(** * The review synthesis pipeline of synthetic_reviews.py

    A shallow embedding of the pipeline (visit dates, cohorts, batch packing,
    content generation with its local fallback, the streaming writer and the
    orchestrating [run]) together with the properties its specification
    states.

    Conventions of the embedding:
    - Python [int] is [Z]; lists are [list]; slices follow Python's rules for
      negative and out-of-range bounds ([Py.slice]).
    - Python [float] values are the rationals they denote ([Q]); [round(x, 1)]
      is rounding to the nearest tenth, ties to even.
    - Text that may hold Korean characters is a list of code points ([text]);
      dates, timestamps and file names are ASCII [string]s.
    - The module-level random source is threaded explicitly: a state [Rng]
      holding an arbitrary sequence of draws, one draw per library call.
    - Exceptions and the state they leave behind are explicit ([Py.M]).
    - Unbounded [while] loops take fuel; running out of it is [OutOfFuel]. *)

From Stdlib Require Import ZArith List Lia Bool String Ascii QArith Qround Lqa.
From Stdlib Require Import ListSet Sorted Permutation PeanoNat DecimalString.
From Stdlib Require Import OrderedTypeEx FinFun DecimalZ DecimalPos.
Import ListNotations.
Local Open Scope Z_scope.

(* ------------------------------------------------------------------------- *)
(** ** Python values, exceptions and control flow *)

Module Py.

Inductive exn : Type :=
| SystemExit (msg : string)
| ValueError
| IndexError
| KeyError.

Inductive result (A : Type) : Type :=
| Ok (a : A)
| Raise (e : exn)
| OutOfFuel.
Arguments Ok {A} a.
Arguments Raise {A} e.
Arguments OutOfFuel {A}.

(** A computation over a mutable state [S]: an exception leaves the state as
    it was when it was raised. *)
Definition M (S A : Type) : Type := S -> result A * S.

Definition ret {S A : Type} (a : A) : M S A := fun s => (Ok a, s).

Definition raise {S A : Type} (e : exn) : M S A := fun s => (Raise e, s).

Definition diverge {S A : Type} : M S A := fun s => (OutOfFuel, s).

Definition bind {S A B : Type} (m : M S A) (f : A -> M S B) : M S B :=
  fun s =>
    match m s with
    | (Ok a, s') => f a s'
    | (Raise e, s') => (Raise e, s')
    | (OutOfFuel, s') => (OutOfFuel, s')
    end.

Declare Scope py_scope.
Delimit Scope py_scope with py.
Notation "x <- m ;; k" := (bind m (fun x => k))
  (at level 100, m at next level, right associativity) : py_scope.
Notation "' p <- m ;; k" := (bind m (fun x => match x with p => k end))
  (at level 100, p pattern, m at next level, right associativity) : py_scope.
Notation "m ;; k" := (bind m (fun _ => k))
  (at level 100, right associativity) : py_scope.
Local Open Scope py_scope.

(** [while cond: body], with [fuel] bounding the number of iterations. *)
Fixpoint while {S St : Type} (fuel : nat) (cond : St -> bool)
    (body : St -> M S St) (st : St) : M S St :=
  match fuel with
  | O => if cond st then diverge else ret st
  | S k => if cond st then st' <- body st ;; while k cond body st' else ret st
  end.

(** [for x in xs: body], the loop state passed along. *)
Fixpoint for_each {S A St : Type} (xs : list A) (body : A -> St -> M S St)
    (st : St) : M S St :=
  match xs with
  | [] => ret st
  | x :: rest => st' <- body x st ;; for_each rest body st'
  end.

(** [[f(x) for x in xs]] for an effectful [f], left to right. *)
Fixpoint map_m {S A B : Type} (f : A -> M S B) (xs : list A) : M S (list B) :=
  match xs with
  | [] => ret []
  | x :: rest => y <- f x ;; ys <- map_m f rest ;; ret (y :: ys)
  end.

Definition len {A : Type} (xs : list A) : Z := Z.of_nat (List.length xs).

(** A slice bound brought into [0, len]: a negative bound counts from the
    end. *)
Definition clamp_index (n k : Z) : Z :=
  if k <? 0 then Z.max 0 (n + k) else Z.min k n.

(** [xs[i:j]] *)
Definition slice {A : Type} (xs : list A) (i j : Z) : list A :=
  let lo := clamp_index (len xs) i in
  let hi := clamp_index (len xs) j in
  firstn (Z.to_nat (hi - lo)) (skipn (Z.to_nat lo) xs).

(** [xs[:k]] *)
Definition slice_to {A : Type} (xs : list A) (k : Z) : list A :=
  slice xs 0 k.

(** [xs[k:]] *)
Definition slice_from {A : Type} (xs : list A) (k : Z) : list A :=
  slice xs k (len xs).

(** [xs[i] = v] for an index in range (the callers below never leave it). *)
Fixpoint update {A : Type} (i : nat) (v : A) (xs : list A) : list A :=
  match xs, i with
  | [], _ => []
  | _ :: rest, O => v :: rest
  | x :: rest, S k => x :: update k v rest
  end.

(** [sorted(xs)] on integers: insertion sort. *)
Fixpoint insert_sorted (x : Z) (xs : list Z) : list Z :=
  match xs with
  | [] => [x]
  | y :: rest => if x <=? y then x :: xs else y :: insert_sorted x rest
  end.

Definition sorted (xs : list Z) : list Z := fold_right insert_sorted [] xs.

End Py.

(* ------------------------------------------------------------------------- *)
(** ** The seeded random source (Python's [random] module) *)

Module Random.
Import Py.
Local Open Scope py_scope.

(** The state of the generator after [random.seed]: the sequence of raw draws
    it will deliver, and how many were consumed.  Every sequence is allowed,
    so a statement for all [Rng] holds for every seed. *)
Record Rng : Type := mkRng { draws : nat -> Z; pos : nat }.

Definition next : M Rng Z :=
  fun g => (Ok (draws g (pos g)), mkRng (draws g) (S (pos g))).

(** [_randbelow(n)] for [n > 0] *)
Definition randbelow (n : Z) : M Rng Z :=
  x <- next ;; ret (x mod n).

(** [random.randint(a, b)]: uniform on [a..b]; an empty range raises. *)
Definition randint (a b : Z) : M Rng Z :=
  if b <? a then raise ValueError
  else x <- randbelow (b - a + 1) ;; ret (a + x).

(** [random.random()]: a multiple of 2^-53 in [0, 1). *)
Definition random : M Rng Q :=
  x <- randbelow (2 ^ 53) ;; ret (x # (2 ^ 53)).

(** [random.uniform(a, b)] *)
Definition uniform (a b : Q) : M Rng Q :=
  r <- random ;; ret (a + (b - a) * r)%Q.

(** [random.choice(xs)] *)
Definition choice {A : Type} (xs : list A) : M Rng A :=
  match xs with
  | [] => raise IndexError
  | d :: _ => i <- randbelow (len xs) ;; ret (nth (Z.to_nat i) xs d)
  end.

(** [x[i], x[j] = x[j], x[i]] *)
Definition swap {A : Type} (xs : list A) (i j : nat) : list A :=
  match nth_error xs i, nth_error xs j with
  | Some a, Some b => update i b (update j a xs)
  | _, _ => xs
  end.

(** [random.shuffle(x)]:
    [for i in reversed(range(1, len(x))): j = randbelow(i + 1); swap i, j]. *)
Fixpoint shuffle_from {A : Type} (i : nat) (xs : list A) : M Rng (list A) :=
  match i with
  | O => ret xs
  | S k =>
      j <- randbelow (Z.of_nat i + 1) ;;
      shuffle_from k (swap xs i (Z.to_nat j))
  end.

Definition shuffle {A : Type} (xs : list A) : M Rng (list A) :=
  shuffle_from (List.length xs - 1) xs.

(** [random.sample(population, k)], by the library's pool algorithm: with [m]
    the number of pool entries still available,
    [j = randbelow(m); result[i] = pool[j]; pool[j] = pool[m - 1]].  (For
    large populations the library picks distinct positions by rejection
    instead; both select [k] distinct positions.) *)
Fixpoint sample_loop {A : Type} (k m : nat) (pool : list A) : M Rng (list A) :=
  match k with
  | O => ret []
  | S k' =>
      j <- randbelow (Z.of_nat m) ;;
      match nth_error pool (Z.to_nat j), nth_error pool (m - 1) with
      | Some x, Some last =>
          rest <- sample_loop k' (m - 1) (update (Z.to_nat j) last pool) ;;
          ret (x :: rest)
      | _, _ => raise IndexError
      end
  end.

Definition sample {A : Type} (population : list A) (k : Z) : M Rng (list A) :=
  if (k <? 0) || (len population <? k) then raise ValueError
  else sample_loop (Z.to_nat k) (List.length population) population.

End Random.

(* ------------------------------------------------------------------------- *)
(** ** Calendar dates ([datetime], [timedelta], [strftime]) *)

Module Dates.

Record date : Type := mkDate { year : Z; month : Z; day : Z }.

Definition is_leap (y : Z) : bool :=
  (y mod 4 =? 0) && (negb (y mod 100 =? 0) || (y mod 400 =? 0)).

Definition days_in_month (y m : Z) : Z :=
  if m =? 2 then (if is_leap y then 29 else 28)
  else if (m =? 4) || (m =? 6) || (m =? 9) || (m =? 11) then 30
  else 31.

Definition days_before_year (y : Z) : Z :=
  let p := y - 1 in p * 365 + p / 4 - p / 100 + p / 400.

Definition days_before_month (y m : Z) : Z :=
  fold_right Z.add 0
    (map (fun k => days_in_month y (Z.of_nat k)) (seq 1 (Z.to_nat (m - 1)))).

(** [d.toordinal()] *)
Definition toordinal (d : date) : Z :=
  days_before_year (year d) + days_before_month (year d) (month d) + day d.

Definition tomorrow (d : date) : date :=
  if day d <? days_in_month (year d) (month d)
  then mkDate (year d) (month d) (day d + 1)
  else if month d <? 12 then mkDate (year d) (month d + 1) 1
  else mkDate (year d + 1) 1 1.

(** [d + timedelta(days=k)] for [k >= 0] *)
Definition add_days (d : date) (k : Z) : date :=
  Nat.iter (Z.to_nat k) tomorrow d.

Definition digit (z : Z) : ascii := ascii_of_nat (48 + Z.to_nat (z mod 10)).

(** [w] decimal digits of [z], zero padded. *)
Fixpoint zfill (w : nat) (z : Z) : string :=
  match w with
  | O => EmptyString
  | S k => (zfill k (z / 10) ++ String (digit z) EmptyString)%string
  end.

(** [d.strftime("%Y-%m-%d")] *)
Definition strftime_ymd (d : date) : string :=
  (zfill 4 (year d) ++ "-" ++ zfill 2 (month d) ++ "-" ++ zfill 2 (day d))%string.

End Dates.

(* ------------------------------------------------------------------------- *)
(** ** synthetic_reviews.py *)

Module Reviews.
Import Py Random Dates.
Local Open Scope py_scope.

(** *** Settings *)

Definition CONCURRENT_PROMPTS : Z := 20.

Definition DATE_START : date := mkDate 2023 1 1.
Definition DATE_END : date := mkDate 2025 7 31.

Definition REVIEW_PHOTO_MIN : Z := 0.
Definition REVIEW_PHOTO_MAX : Z := 3.

(** *** gen_user_dates *)

(** [(DATE_END - DATE_START).days + 1] *)
Definition total_days : Z := toordinal DATE_END - toordinal DATE_START + 1.

(** [any(abs(u - d) < 2 for u in used_days)] *)
Definition too_close (used_days : set Z) (d : Z) : bool :=
  existsb (fun u => Z.abs (u - d) <? 2) used_days.

Definition mem (d : Z) (used_days : set Z) : bool :=
  set_mem Z.eq_dec d used_days.

Definition add (d : Z) (used_days : set Z) : set Z :=
  set_add Z.eq_dec d used_days.

(** The loop state of [gen_user_dates]: [(used_days, attempts)]. *)
Definition gen_state : Type := set Z * Z.

(** Phase 1: candidates at distance >= 2 from every chosen day. *)
Definition phase1 (n max_attempts : Z) : gen_state -> M Rng gen_state :=
  while (Z.to_nat max_attempts)
    (fun '(used_days, attempts) =>
       (len used_days <? n) && (attempts <? max_attempts))
    (fun '(used_days, attempts) =>
       d <- randint 0 (total_days - 1) ;;
       if too_close used_days d then ret (used_days, attempts + 1)
       else ret (add d used_days, attempts + 1)).

(** Phase 2: the same rule, checked on the candidate's neighbours. *)
Definition phase2 (n max_attempts : Z) : gen_state -> M Rng gen_state :=
  while (Z.to_nat (max_attempts * 2))
    (fun '(used_days, attempts) =>
       (len used_days <? n) && (attempts <? max_attempts * 2))
    (fun '(used_days, attempts) =>
       d <- randint 0 (total_days - 1) ;;
       if negb (mem d used_days) && negb (mem (d - 1) used_days)
          && negb (mem (d + 1) used_days)
       then ret (add d used_days, attempts + 1)
       else ret (used_days, attempts + 1)).

(** Phase 3: any unused day; the loop has no attempt budget. *)
Definition phase3 (fuel : nat) (n : Z) : gen_state -> M Rng gen_state :=
  while fuel
    (fun '(used_days, _) => len used_days <? n)
    (fun '(used_days, attempts) =>
       d <- randint 0 (total_days - 1) ;;
       if negb (mem d used_days) then ret (add d used_days, attempts)
       else ret (used_days, attempts)).

(** The two phases that keep the spacing rule. *)
Definition spaced_phases (n : Z) : M Rng gen_state :=
  let max_attempts := n * 200 in
  st <- phase1 n max_attempts ([], 0) ;;
  phase2 n max_attempts st.

(** The calendar dates of day offsets, in ascending order. *)
Definition dates_of (used_days : set Z) : list date :=
  map (add_days DATE_START) (sorted used_days).

Definition gen_user_dates (fuel : nat) (n : Z) : M Rng (list string) :=
  if n <=? 0 then ret []
  else
    st <- spaced_phases n ;;
    '(used_days, _) <- phase3 fuel n st ;;
    ret (slice_to (map strftime_ymd (dates_of used_days)) n).

(** *** Local review text (the fallback of the content generator) *)

Definition text : Type := list Z.

Definition POS_ADJ : list text :=
  [ [44628; 45140; 54616; 44256];
    [49888; 49440; 54616; 44256];
    [54413; 48120; 44032; 32; 51339; 44256];
    [52828; 51208; 54616; 44256];
    [48516; 50948; 44592; 44032; 32; 51339; 44256];
    [51116; 48169; 47928; 32; 51032; 49324; 32; 51080; 44256];
    [44032; 44201; 45824; 46020; 32; 44316; 52270; 44256] ].

Definition MID_ADJ : list text :=
  [ [47924; 45212; 54616; 44256];
    [54217; 48276; 54616; 44256];
    [50500; 49772; 50868; 32; 51216; 46020; 32; 51080; 51648; 47564];
    [48516; 50948; 44592; 45716; 32; 44316; 52270; 44256] ].

Definition NEG_ADJ : list text :=
  [ [44036; 51060; 32; 49464; 44256];
    [44592; 45824; 48372; 45796; 32; 48141; 48141; 54616; 44256];
    [49436; 48708; 49828; 44032; 32; 50500; 49789; 44256];
    [51116; 47308; 44032; 32; 48512; 51313; 54616; 44256] ].

(** The fixed parts of the three templates. *)
Definition pos_head : text := [32; 45796; 45376; 50772; 50612; 50836; 46; 32].
Definition pos_tail : text :=
  [32; 51204; 48152; 51201; 51004; 47196; 32; 47564; 51313; 49828; 47084;
   50912; 49845; 45768; 45796; 46].
Definition mid_head : text := [32; 48169; 47928; 32; 54980; 44592; 46; 32].
Definition mid_tail : text :=
  [32; 44032; 48333; 44172; 32; 49885; 49324; 54616; 44592; 32; 51339; 50500;
   50836; 46].
Definition neg_head : text := [32; 51060; 50857; 54644; 48420; 45716; 45936; 32].
Definition neg_tail : text :=
  [32; 44592; 45824; 50640; 45716; 32; 51312; 44552; 32; 47803; 32; 48120;
   52452; 50612; 50836; 46].
Definition space : text := [32].

Definition Qltb (a b : Q) : bool := negb (Qle_bool b a).

(** [round(x)]: nearest integer, ties to even. *)
Definition round_half_even (x : Q) : Z :=
  let f := Qfloor x in
  let r := (x - inject_Z f)%Q in
  if Qltb r (1 # 2) then f
  else if Qltb (1 # 2) r then f + 1
  else if Z.even f then f else f + 1.

(** [round(x, 1)] *)
Definition round1 (x : Q) : Q := round_half_even (x * 10) # 10.

(** The float literals [0.6] and [0.9], at their binary values. *)
Definition float_0_6 : Q := 5404319552844595 # 9007199254740992.
Definition float_0_9 : Q := 8106479329266893 # 9007199254740992.

Definition fallback_review_text (name desc : text) : M Rng (text * Q) :=
  r <- random ;;
  if Qltb r float_0_6 then
    adj <- choice POS_ADJ ;;
    u <- uniform 4 5 ;;
    let rating := round1 u in
    let txt := name ++ pos_head ++ slice_to desc 40 ++ space ++ adj ++ pos_tail in
    ret (slice_to txt 200, rating)
  else if Qltb r float_0_9 then
    adj <- choice MID_ADJ ;;
    u <- uniform 3 4 ;;
    let rating := round1 u in
    let txt := name ++ mid_head ++ slice_to desc 40 ++ space ++ adj ++ mid_tail in
    ret (slice_to txt 200, rating)
  else
    adj <- choice NEG_ADJ ;;
    u <- uniform 2 (7 # 2) ;;
    let rating := round1 u in
    let txt := name ++ neg_head ++ adj ++ neg_tail in
    ret (slice_to txt 200, rating).

(** *** ReviewLLM *)

Record Slot : Type := mkSlot {
  slot_id : Z;
  user_id : Z;
  restaurant_id : Z;
  name : text;
  description : text;
  visited_at : string
}.

(** A float as [json.loads] may deliver it. *)
Inductive float : Type :=
| FNaN
| FInf (negative : bool)
| FFin (q : Q).

(** A parsed JSON value; the contents of arrays and objects play no role. *)
Inductive json : Type :=
| JNull
| JBool (b : bool)
| JInt (z : Z)
| JFloat (f : float)
| JStr (s : text)
| JArray
| JObject.

(** One line of the service's output text: skipped when it is blank, is no
    JSON or is no JSON object; otherwise [obj.get] of the three keys
    ([JNull] for an absent key). *)
Inductive reply_line : Type :=
| Skipped
| Object (sid rtxt rat : json).

(** The outcome of [client.responses.create]. *)
Inductive reply : Type :=
| CallFails
| OutputText (lines : list reply_line).

(** What the request carries for a slot. *)
Record Item : Type := mkItem {
  item_slot_id : Z;
  restaurant_name : text;
  restaurant_description : text
}.

Record ReviewLLM : Type := mkReviewLLM {
  use_openai : bool;
  client : list Item -> reply
}.

(** [{slot_id, review_text, rating}]; a parsed record keeps the service's own
    [slot_id] value. *)
Record Generated : Type := mkGenerated {
  g_slot_id : json;
  g_review_text : text;
  g_rating : Q
}.

(** Python's [key == k] for a dict key [key] and an integer [k]. *)
Definition key_eq (key : json) (k : Z) : bool :=
  match key with
  | JInt z => z =? k
  | JBool b => (if b then 1 else 0) =? k
  | JFloat (FFin q) => Qeq_bool q (inject_Z k)
  | _ => false
  end.

Definition hashable (key : json) : bool :=
  match key with
  | JArray | JObject => false
  | _ => true
  end.

(** A dict read only through integer keys: the entries, newest first. *)
Definition dict (V : Type) : Type := list (json * V).

Definition dict_set {V : Type} (key : json) (v : V) (d : dict V) : dict V :=
  (key, v) :: d.

Fixpoint dict_get {V : Type} (k : Z) (d : dict V) : option V :=
  match d with
  | [] => None
  | (key, v) :: rest => if key_eq key k then Some v else dict_get k rest
  end.

(** [float(rat)] for a value that passed [isinstance(rat, (int, float))];
    [None] when the conversion overflows. *)
Definition to_float (rat : json) : option float :=
  match rat with
  | JBool b => Some (FFin (if b then 1%Q else 0%Q))
  | JInt z =>
      if Z.abs z <? 2 ^ 1024 - 2 ^ 970 then Some (FFin (inject_Z z)) else None
  | JFloat f => Some f
  | _ => None
  end.

(** [max(0.0, min(5.0, x))], with Python's comparisons on NaN and infinities. *)
Definition clamp_rating (x : float) : Q :=
  match x with
  | FNaN => 5%Q
  | FInf negative => if negative then 0%Q else 5%Q
  | FFin q =>
      let m := if Qltb q 5 then q else 5%Q in
      if Qltb 0 m then m else 0%Q
  end.

(** The body of the loop over the output lines. *)
Definition parse_line (results : dict Generated) (line : reply_line)
    : dict Generated :=
  match line with
  | Skipped => results
  | Object sid rtxt rat =>
      match sid, rtxt, to_float rat with
      | JNull, _, _ => results
      | _, JStr txt, Some x =>
          if hashable sid then
            dict_set sid
              (mkGenerated sid (slice_to txt 200) (round1 (clamp_rating x)))
              results
          else results
      | _, _, _ => results
      end
  end.

Definition fallback_result (s : Slot) : M Rng Generated :=
  '(txt, rating) <- fallback_review_text (name s) (description s) ;;
  ret (mkGenerated (JInt (slot_id s)) txt rating).

Definition is_empty {A : Type} (xs : list A) : bool :=
  match xs with [] => true | _ => false end.

Definition generate_for_slots (self : ReviewLLM) (slots : list Slot)
    : M Rng (list Generated) :=
  if negb (use_openai self) || is_empty slots then map_m fallback_result slots
  else
    let items :=
      map (fun s => mkItem (slot_id s) (name s) (description s)) slots in
    match client self items with
    | CallFails => map_m fallback_result slots
    | OutputText lines =>
        let results := fold_left parse_line lines [] in
        map_m (fun s =>
                 match dict_get (slot_id s) results with
                 | Some r => ret r
                 | None => fallback_result s
                 end) slots
    end.

(** *** Cohorts, restaurants, packing *)

Record Config : Type := mkConfig {
  VIP_COUNT : Z;
  LOYAL_COUNT : Z;
  REGULAR_COUNT : Z;
  VIP_REVIEWS_RANGE : Z * Z;
  LOYAL_REVIEWS_RANGE : Z * Z;
  REGULAR_REVIEWS_RANGE : Z * Z;
  CHUNK_SIZE : Z;
  TARGET_SLOTS_PER_PROMPT : Z;
  MAX_SLOTS_PER_PROMPT : Z
}.

(** The settings when the environment sets none of them. *)
Definition default_config : Config :=
  mkConfig 100 1000 3000 (80, 120) (10, 30) (1, 5) 1000 20 24.

Definition pick_cohorts (cfg : Config) (user_ids : list Z)
    : M Rng (list Z * list Z * list Z) :=
  users <- shuffle user_ids ;;
  let vip := slice_to users (VIP_COUNT cfg) in
  let loyal := slice users (VIP_COUNT cfg) (VIP_COUNT cfg + LOYAL_COUNT cfg) in
  let regular :=
    slice users (VIP_COUNT cfg + LOYAL_COUNT cfg)
      (VIP_COUNT cfg + LOYAL_COUNT cfg + REGULAR_COUNT cfg) in
  ret (vip, loyal, regular).

Definition choose_restaurants_for_user (n : Z) (restaurant_ids : list Z)
    : M Rng (list Z) :=
  if len restaurant_ids <=? n then sample restaurant_ids (len restaurant_ids)
  else sample restaurant_ids n.

(** One turn of the loop of [pack_slots_by_target] on [(batches, current)]. *)
Definition pack_step {A : Type} (target hard_max : Z)
    (st : list (list A) * list A) (slot : A) : list (list A) * list A :=
  let '(batches, current) := st in
  let current := current ++ [slot] in
  if target <=? len current then (batches ++ [slice_to current hard_max], [])
  else (batches, current).

Definition pack_slots_by_target {A : Type} (slots : list A)
    (target hard_max : Z) : list (list A) :=
  let '(batches, current) :=
    fold_left (pack_step target hard_max) slots ([], []) in
  if is_empty current then batches else batches ++ [current].

(** *** The world of a run: random source, clock, row objects, files *)

(** A review row, a Python dict whose [review_id] key is absent until the
    writer sets it. *)
Record Row : Type := mkRow {
  row_user_id : Z;
  row_restaurant_id : Z;
  rating : Q;
  review_text : text;
  row_visited_at : string;
  is_deleted : bool;
  created_at : string;
  updated_at : string;
  review_id : option Z
}.

Definition set_review_id (r : Row) (id : Z) : Row :=
  mkRow (row_user_id r) (row_restaurant_id r) (rating r) (review_text r)
    (row_visited_at r) (is_deleted r) (created_at r) (updated_at r) (Some id).

Record Photo : Type := mkPhoto {
  photo_id : option Z;
  photo_review_id : Z;
  image_url : string;
  photo_is_deleted : bool;
  photo_created_at : string;
  photo_updated_at : string
}.

(** What [json.dump] is given for a file. *)
Inductive content : Type :=
| ReviewChunk (rows : list Row)
| PhotoChunk (photos : list Photo).

(** [datetime.now()] read after read. *)
Record Clock : Type := mkClock { readings : nat -> string; ticks : nat }.

(** Row dicts are objects: lists hold references to them, and an assignment
    to a key is seen through every reference. *)
Record Heap : Type := mkHeap { cells : nat -> Row; brk : nat }.

Record World : Type := mkWorld {
  rng : Rng;
  clock : Clock;
  heap : Heap;
  files : list (string * content)
}.

Definition lift_rng {A : Type} (m : M Rng A) : M World A :=
  fun w =>
    let '(r, g) := m (rng w) in
    (r, mkWorld g (clock w) (heap w) (files w)).

(** [datetime.now().strftime("%Y-%m-%d %H:%M:%S")] *)
Definition now : M World string :=
  fun w =>
    let c := clock w in
    (Ok (readings c (ticks c)),
     mkWorld (rng w) (mkClock (readings c) (S (ticks c))) (heap w) (files w)).

(** A new dict. *)
Definition alloc (r : Row) : M World nat :=
  fun w =>
    let h := heap w in
    let a := brk h in
    (Ok a,
     mkWorld (rng w) (clock w)
       (mkHeap (fun b => if Nat.eqb b a then r else cells h b) (S a))
       (files w)).

Definition load (a : nat) : M World Row :=
  fun w => (Ok (cells (heap w) a), w).

Definition store (a : nat) (r : Row) : M World unit :=
  fun w =>
    let h := heap w in
    (Ok tt,
     mkWorld (rng w) (clock w)
       (mkHeap (fun b => if Nat.eqb b a then r else cells h b) (brk h))
       (files w)).

(** [with path.open("w") as f: json.dump(c, f)] *)
Definition write_file (path : string) (c : content) : M World unit :=
  fun w =>
    (Ok tt, mkWorld (rng w) (clock w) (heap w) (files w ++ [(path, c)])).

Definition str (z : Z) : string := NilZero.string_of_int (Z.to_int z).

(** [range(a, b)] *)
Definition range (a b : Z) : list Z :=
  map (fun k => a + Z.of_nat k) (seq 0 (Z.to_nat (b - a))).

(** [range(0, stop, step)] for a positive [step] *)
Definition range_step (stop step : Z) : list Z :=
  map (fun k => Z.of_nat k * step) (seq 0 (Z.to_nat ((stop + step - 1) / step))).

(** *** split_chunks *)


(** *** ReviewStreamer *)

Record ReviewStreamer : Type := mkReviewStreamer {
  chunk_size : Z;
  buffer : list nat;
  next_review_id : Z
}.

(** [ReviewStreamer(data_dir, chunk_size)] *)
Definition new_streamer (chunk_size : Z) : ReviewStreamer :=
  mkReviewStreamer chunk_size [] 1.

Definition _build_review_photos (batch_reviews : list nat)
    : M World (list Photo) :=
  for_each batch_reviews
    (fun rv photos =>
       n <- lift_rng (randint REVIEW_PHOTO_MIN REVIEW_PHOTO_MAX) ;;
       for_each (range 1 (n + 1))
         (fun idx photos =>
            row <- load rv ;;
            match review_id row with
            | None => raise KeyError
            | Some rid =>
                ret (photos ++
                     [mkPhoto None rid
                        ("/reviews/" ++ str rid ++ "/" ++ str idx)%string
                        false (created_at row) (updated_at row)])
            end)
         photos)
    [].

(** The part [add_rows_and_maybe_flush] and [flush_remaining] have in common:
    [last_id = chunk[-1]["review_id"]], the review file, the photos, the
    photo file. *)
Definition write_chunk (chunk : list nat) : M World unit :=
  match rev chunk with
  | [] => raise IndexError
  | last_row :: _ =>
      r <- load last_row ;;
      match review_id r with
      | None => raise KeyError
      | Some last_id =>
          rows <- map_m load chunk ;;
          write_file ("review_" ++ str last_id ++ ".json")%string
            (ReviewChunk rows) ;;
          photos <- _build_review_photos chunk ;;
          write_file ("review_photo_" ++ str last_id ++ ".json")%string
            (PhotoChunk photos)
      end
  end.

(** The first loop of [add_rows_and_maybe_flush]. *)
Definition assign_ids (self : ReviewStreamer) (rows : list nat)
    : M World ReviewStreamer :=
  for_each rows
    (fun row self =>
       r <- load row ;;
       store row (set_review_id r (next_review_id self)) ;;
       ret (mkReviewStreamer (chunk_size self) (buffer self ++ [row])
              (next_review_id self + 1)))
    self.

(** Its second loop; every turn shortens the buffer or raises, so the fuel
    given in [add_rows_and_maybe_flush] is never used up. *)
Definition flush_full_chunks (fuel : nat) (self : ReviewStreamer)
    : M World ReviewStreamer :=
  while fuel
    (fun self => chunk_size self <=? len (buffer self))
    (fun self =>
       let chunk := slice_to (buffer self) (chunk_size self) in
       write_chunk chunk ;;
       ret (mkReviewStreamer (chunk_size self)
              (slice_from (buffer self) (chunk_size self))
              (next_review_id self)))
    self.

Definition add_rows_and_maybe_flush (self : ReviewStreamer) (rows : list nat)
    : M World ReviewStreamer :=
  self <- assign_ids self rows ;;
  flush_full_chunks (S (List.length (buffer self))) self.

Definition flush_remaining (self : ReviewStreamer) : M World ReviewStreamer :=
  if is_empty (buffer self) then ret self
  else
    let chunk := buffer self in
    write_chunk chunk ;;
    ret (mkReviewStreamer (chunk_size self) [] (next_review_id self)).

(** *** run *)

(** A row of restaurant.json; an absent or null description is [None]. *)
Record Restaurant : Type := mkRestaurant {
  rest_id : Z;
  rest_name : text;
  rest_description : option text
}.

(** A row of user_account.json; [account_id] is its ["user_id"]. *)
Record User : Type := mkUser { account_id : Z }.

(** A dict with integer keys, in insertion order. *)
Definition odict (V : Type) : Type := list (Z * V).

Fixpoint odict_set {V : Type} (k : Z) (v : V) (d : odict V) : odict V :=
  match d with
  | [] => [(k, v)]
  | (k', v') :: rest =>
      if k' =? k then (k', v) :: rest else (k', v') :: odict_set k v rest
  end.

Fixpoint odict_get {V : Type} (k : Z) (d : odict V) : option V :=
  match d with
  | [] => None
  | (k', v) :: rest => if k' =? k then Some v else odict_get k rest
  end.

Definition odict_keys {V : Type} (d : odict V) : list Z := map fst d.

Definition plan : Type := list (Z * string).

Definition assign_for (fuel : nat) (restaurant_ids : list Z) (uid : Z)
    (n_range : Z * Z) (user_plan : odict plan) : M Rng (odict plan) :=
  n <- randint (fst n_range) (snd n_range) ;;
  rids <- choose_restaurants_for_user n restaurant_ids ;;
  dates <- gen_user_dates fuel n ;;
  ret (odict_set uid (combine rids dates) user_plan).

(** The slots of one user, appended to [(all_slots, slot_seq)]. *)
Definition slots_of_user {S : Type} (rest_by_id : odict Restaurant)
    (user_plan : odict plan) (uid : Z) (st : list Slot * Z)
    : M S (list Slot * Z) :=
  match odict_get uid user_plan with
  | None => raise KeyError
  | Some visits =>
      for_each visits
        (fun '(rid, vdate) '(all_slots, slot_seq) =>
           match odict_get rid rest_by_id with
           | None => raise KeyError
           | Some r =>
               ret (all_slots ++
                    [mkSlot slot_seq uid rid (rest_name r)
                       (match rest_description r with
                        | Some d => d
                        | None => []
                        end)
                       vdate],
                    slot_seq + 1)
           end)
        st
  end.

(** Round robin over the cohorts. *)
Definition flatten {S : Type} (rest_by_id : odict Restaurant)
    (user_plan : odict plan) (buckets : list (list Z)) : M S (list Slot) :=
  let max_len := fold_right Z.max 0 (map len buckets) in
  '(all_slots, _) <-
    for_each (range 0 max_len)
      (fun i st =>
         for_each buckets
           (fun bucket st =>
              match nth_error bucket (Z.to_nat i) with
              | None => ret st
              | Some uid => slots_of_user rest_by_id user_plan uid st
              end)
           st)
      ([], 1) ;;
  ret all_slots.

Definition run_prompt (llm : ReviewLLM) (slots : list Slot)
    : M World (list nat) :=
  results <- lift_rng (generate_for_slots llm slots) ;;
  let results_map :=
    fold_left (fun d r => dict_set (g_slot_id r) r d) results [] in
  nowts <- now ;;
  for_each slots
    (fun s rows =>
       '(rating, rtxt) <-
         match dict_get (slot_id s) results_map with
         | Some rr => ret (g_rating rr, slice_to (g_review_text rr) 200)
         | None =>
             '(text_fb, rating) <-
               lift_rng (fallback_review_text (name s) (description s)) ;;
             ret (rating, slice_to text_fb 200)
         end ;;
       row <- alloc (mkRow (user_id s) (restaurant_id s) rating rtxt
                       (visited_at s) false nowts nowts None) ;;
       ret (rows ++ [row]))
    [].

(** [{r["restaurant_id"]: r for r in restaurants}] *)
Definition rest_by_id_of (restaurants : list Restaurant) : odict Restaurant :=
  fold_left (fun d r => odict_set (rest_id r) r d) restaurants [].

(** The planning half of [run]: cohorts, per-user plans, slots, batches. *)
Definition plan_batches (cfg : Config) (fuel : nat)
    (restaurants : list Restaurant) (users : list User)
    : M Rng (list (list Slot)) :=
  let rest_by_id := rest_by_id_of restaurants in
  let restaurant_ids := odict_keys rest_by_id in
  let user_ids := map account_id users in
  '(vip_users, loyal_users, regular_users) <- pick_cohorts cfg user_ids ;;
  user_plan <-
    for_each vip_users
      (fun uid => assign_for fuel restaurant_ids uid (VIP_REVIEWS_RANGE cfg))
      [] ;;
  user_plan <-
    for_each loyal_users
      (fun uid => assign_for fuel restaurant_ids uid (LOYAL_REVIEWS_RANGE cfg))
      user_plan ;;
  user_plan <-
    for_each regular_users
      (fun uid =>
         assign_for fuel restaurant_ids uid (REGULAR_REVIEWS_RANGE cfg))
      user_plan ;;
  all_slots <-
    flatten rest_by_id user_plan [vip_users; loyal_users; regular_users] ;;
  ret (pack_slots_by_target all_slots (TARGET_SLOTS_PER_PROMPT cfg)
         (MAX_SLOTS_PER_PROMPT cfg)).

(** The generating half: windows of [CONCURRENT_PROMPTS] batches, each
    window's results handed to the writer in submission order.  The prompts
    of a window run one after the other here; that is how they run when no
    call to the service suspends. *)
Definition generate_and_write (cfg : Config) (llm : ReviewLLM)
    (batches : list (list Slot)) : M World unit :=
  let streamer := new_streamer (CHUNK_SIZE cfg) in
  let total_tasks := len batches in
  streamer <-
    for_each (range_step total_tasks CONCURRENT_PROMPTS)
      (fun start streamer =>
         let group := slice batches start (start + CONCURRENT_PROMPTS) in
         results_lists <- map_m (run_prompt llm) group ;;
         for_each results_lists
           (fun rows streamer => add_rows_and_maybe_flush streamer rows)
           streamer)
      streamer ;;
  _ <- flush_remaining streamer ;;
  ret tt.

Definition run (cfg : Config) (llm : ReviewLLM) (fuel : nat)
    (restaurants : list Restaurant) (users : list User) : M World unit :=
  if len users <? VIP_COUNT cfg + LOYAL_COUNT cfg + REGULAR_COUNT cfg
  then raise (SystemExit "Not enough users for the requested cohort sizes.")
  else
    batches <- lift_rng (plan_batches cfg fuel restaurants users) ;;
    generate_and_write cfg llm batches.

End Reviews.

(* ------------------------------------------------------------------------- *)
(** ** load_reviews.py *)

Module LoadReviews.

(** What is left of [s] after the leading [p], when [s] starts with [p]. *)
Fixpoint strip_prefix (p s : string) : option string :=
  match p, s with
  | EmptyString, _ => Some s
  | String a p', String b s' => if Ascii.eqb a b then strip_prefix p' s' else None
  | String _ _, EmptyString => None
  end.

(** What comes before the trailing [suffix], when [s] ends with it. *)
Fixpoint strip_suffix (suffix s : string) : option string :=
  if String.eqb s suffix then Some EmptyString
  else match s with
       | EmptyString => None
       | String c rest => option_map (String c) (strip_suffix suffix rest)
       end.

(** [fnmatch] of a name against [f"{prefix}_*.json"], for a prefix without
    wildcard characters: the name starts with the prefix and an underscore,
    and what follows ends in [.json]. *)
Definition glob_match (prefix name : string) : bool :=
  match strip_prefix (prefix ++ "_") name with
  | Some rest =>
      match strip_suffix ".json" rest with
      | Some _ => true
      | None => false
      end
  | None => false
  end.

(** [int(digits)] for a match of [\d+]: a run of at least one decimal digit,
    read in base 10.  (File names are taken to be ASCII, where [\d] is 0 to
    9.) *)
Definition int_of_digits (digits : string) : option Z :=
  option_map Z.of_uint (NilZero.uint_of_string digits).

Definition newline : string := String "010"%char EmptyString.

(** [int(m.group(1))] for [m = patt.match(name)] with the pattern
    [^{prefix}_(\d+)\.json$], [None] when there is no match; [$] matches at
    the end and before a final newline. *)
Definition chunk_number (prefix name : string) : option Z :=
  match strip_prefix (prefix ++ "_") name with
  | None => None
  | Some rest =>
      match strip_suffix ".json" rest with
      | Some digits => int_of_digits digits
      | None =>
          match strip_suffix (".json" ++ newline) rest with
          | Some digits => int_of_digits digits
          | None => None
          end
      end
  end.

(** [items.sort(key=lambda x: x[0])]: a stable sort on the number. *)
Fixpoint insert_by_number (x : Z * string) (xs : list (Z * string))
    : list (Z * string) :=
  match xs with
  | [] => [x]
  | y :: rest =>
      if fst x <=? fst y then x :: xs else y :: insert_by_number x rest
  end.

Definition sort_by_number (items : list (Z * string)) : list (Z * string) :=
  fold_right insert_by_number [] items.

(** The body of the loop: [if m: items.append((int(m.group(1)), p))]. *)
Definition chunk_item (prefix name : string) : list (Z * string) :=
  match chunk_number prefix name with
  | Some k => [(k, name)]
  | None => []
  end.

(** [entries] are the names in [DATA_DIR], in the order [glob] goes through
    them. *)
Definition list_chunk_files (prefix : string) (entries : list string)
    : list string :=
  let items :=
    flat_map (chunk_item prefix) (filter (glob_match prefix) entries) in
  map snd (sort_by_number items).

End LoadReviews.

Import Py Random Dates Reviews.
Import LoadReviews.

(* ------------------------------------------------------------------------- *)
(** ** Slices *)

Section Slices.
Context {A : Type}.
Implicit Types xs ys : list A.

Lemma len_nonneg xs : 0 <= len xs.
Proof. unfold len; lia. Qed.

Lemma len_app xs ys : len (xs ++ ys) = len xs + len ys.
Proof. unfold len; rewrite length_app; lia. Qed.

Lemma slice_to_firstn xs k : 0 <= k -> slice_to xs k = firstn (Z.to_nat k) xs.
Proof.
  intros Hk. unfold slice_to, slice, clamp_index.
  pose proof (len_nonneg xs) as Hn.
  replace (0 <? 0) with false by reflexivity.
  destruct (k <? 0) eqn:E; [apply Z.ltb_lt in E; lia |].
  rewrite (Z.min_l 0) by lia. rewrite Z.sub_0_r. cbn [Z.to_nat skipn].
  destruct (Z.le_gt_cases k (len xs)) as [Hle | Hgt].
  - rewrite Z.min_l by lia. reflexivity.
  - rewrite Z.min_r by lia. unfold len in *. rewrite Nat2Z.id.
    rewrite firstn_all. symmetry. apply firstn_all2. lia.
Qed.

Lemma slice_from_skipn xs k : 0 <= k -> slice_from xs k = skipn (Z.to_nat k) xs.
Proof.
  intros Hk. unfold slice_from, slice, clamp_index.
  pose proof (len_nonneg xs) as Hn.
  destruct (k <? 0) eqn:E; [apply Z.ltb_lt in E; lia |].
  destruct (len xs <? 0) eqn:E'; [apply Z.ltb_lt in E'; lia |].
  rewrite (Z.min_l (len xs)) by lia.
  destruct (Z.le_gt_cases k (len xs)) as [Hle | Hgt].
  - rewrite Z.min_l by lia. apply firstn_all2.
    rewrite length_skipn. unfold len in *. lia.
  - rewrite Z.min_r by lia.
    replace (Z.to_nat (len xs - len xs)) with O by lia. cbn [firstn].
    symmetry. apply skipn_all2. unfold len in *. lia.
Qed.

Lemma slice_to_all xs k : len xs <= k -> slice_to xs k = xs.
Proof.
  intros Hk. pose proof (len_nonneg xs).
  rewrite slice_to_firstn by lia. apply firstn_all2. unfold len in *. lia.
Qed.

Lemma slice_firstn_skipn xs i j :
  0 <= i <= j -> slice xs i j = firstn (Z.to_nat (j - i)) (skipn (Z.to_nat i) xs).
Proof.
  intros Hij. unfold slice, clamp_index.
  pose proof (len_nonneg xs) as Hn.
  destruct (i <? 0) eqn:E; [apply Z.ltb_lt in E; lia |].
  destruct (j <? 0) eqn:E'; [apply Z.ltb_lt in E'; lia |].
  destruct (Z.le_gt_cases j (len xs)) as [Hj | Hj].
  - rewrite !Z.min_l by lia. reflexivity.
  - rewrite (Z.min_r j) by lia.
    destruct (Z.le_gt_cases i (len xs)) as [Hi | Hi].
    + rewrite Z.min_l by lia.
      rewrite !firstn_all2; try reflexivity;
        rewrite length_skipn; unfold len in *; lia.
    + rewrite Z.min_r by lia.
      rewrite !skipn_all2 by (unfold len in *; lia).
      now rewrite !firstn_nil.
Qed.

End Slices.

(* ------------------------------------------------------------------------- *)
(** ** The batch packer *)

Section Packer.
Context {A : Type}.
Implicit Types (slots current : list A) (closed : list (list A)).

(** What the loop has done after any number of turns: the batches are the
    closed accumulations, each cut at [hard_max]; every closed accumulation
    holds exactly [target] slots; the open one holds fewer. *)
Lemma pack_loop_inv target hard_max slots :
  1 <= target ->
  forall closed current,
    Forall (fun c => len c = target) closed ->
    len current < target ->
    exists closed' current',
      fold_left (pack_step target hard_max) slots
        (map (fun c => slice_to c hard_max) closed, current)
      = (map (fun c => slice_to c hard_max) closed', current') /\
      List.concat closed' ++ current' = List.concat closed ++ current ++ slots /\
      Forall (fun c => len c = target) closed' /\
      len current' < target.
Proof.
  intros Ht. induction slots as [| slot slots IH]; intros closed current Hc Hlt.
  - exists closed, current. cbn. rewrite app_nil_r. auto.
  - cbn [fold_left]. unfold pack_step at 2.
    destruct (target <=? len (current ++ [slot])) eqn:E.
    + apply Z.leb_le in E. rewrite len_app in E. change (len [slot]) with 1 in E.
      destruct (IH (closed ++ [current ++ [slot]]) []) as (c' & r' & Hf & Hcat & Hall & Hr).
      * apply Forall_app. split; [assumption |].
        constructor; [| constructor]. rewrite len_app. change (len [slot]) with 1. lia.
      * change (len (@nil A)) with 0. lia.
      * exists c', r'. rewrite map_app in Hf. cbn [map] in Hf.
        split; [exact Hf |]. split; [| auto].
        rewrite Hcat, concat_app. cbn [List.concat]. rewrite app_nil_r.
        now rewrite <- !app_assoc.
    + apply Z.leb_gt in E.
      destruct (IH closed (current ++ [slot]) Hc E) as (c' & r' & Hf & Hcat & Hall & Hr).
      exists c', r'. split; [exact Hf |]. split; [| auto].
      rewrite Hcat. now rewrite <- !app_assoc.
Qed.

Lemma pack_shape target hard_max slots :
  1 <= target ->
  exists closed rest,
    pack_slots_by_target slots target hard_max
    = map (fun c => slice_to c hard_max) closed
      ++ (if is_empty rest then [] else [rest]) /\
    slots = List.concat closed ++ rest /\
    Forall (fun c => len c = target) closed /\
    len rest < target.
Proof.
  intros Ht.
  destruct (pack_loop_inv target hard_max slots Ht [] []) as (c & r & Hf & Hcat & Hall & Hr).
  - constructor.
  - change (len (@nil A)) with 0. lia.
  - exists c, r. unfold pack_slots_by_target. cbn [map] in Hf. rewrite Hf.
    cbn in Hcat. split; [| auto].
    destruct r; cbn [is_empty]; [now rewrite app_nil_r | reflexivity].
Qed.

Lemma len_concat_uniform closed target :
  Forall (fun c => len c = target) closed ->
  len (List.concat closed) = len closed * target.
Proof.
  induction 1 as [| c cs Hc _ IH]; [reflexivity |].
  cbn [List.concat]. rewrite len_app, IH, Hc. unfold len. cbn [List.length]. lia.
Qed.

End Packer.

Lemma NoDup_app_disjoint {A : Type} (l1 l2 : list A) :
  NoDup (l1 ++ l2) -> forall x, In x l1 -> ~ In x l2.
Proof.
  induction l1 as [| a l1 IH]; cbn; intros H x Hx; [contradiction |].
  inversion H as [| ? ? Hn Hd]; subst. destruct Hx as [-> | Hx].
  - intros Hin. apply Hn. apply in_or_app. now right.
  - now apply IH.
Qed.

(** Among distinct slots, what is cut off one accumulation is kept by none. *)
Lemma cut_tail_not_kept {A : Type} (h : nat) (closed : list (list A)) :
  NoDup (List.concat closed) ->
  forall c s, In c closed -> In s (skipn h c) ->
    ~ In s (List.concat (map (firstn h) closed)).
Proof.
  induction closed as [| c0 cs IH]; intros Hnd c s Hc Hin; [contradiction |].
  cbn [List.concat map] in *.
  assert (Hsub : In s (List.concat (map (firstn h) cs)) -> In s (List.concat cs)).
  { intros H. apply in_concat in H. destruct H as (l & Hl & Hsl).
    apply in_map_iff in Hl. destruct Hl as (c' & <- & Hc').
    apply in_concat. exists c'. split; [exact Hc' |].
    rewrite <- (firstn_skipn h c'). apply in_or_app. now left. }
  intros Hout. apply in_app_or in Hout.
  destruct Hc as [<- | Hc], Hout as [Hout | Hout].
  - apply NoDup_app_remove_r in Hnd. rewrite <- (firstn_skipn h c0) in Hnd.
    exact (NoDup_app_disjoint _ _ Hnd s Hout Hin).
  - apply (NoDup_app_disjoint _ _ Hnd s); [| now apply Hsub].
    rewrite <- (firstn_skipn h c0). apply in_or_app. now right.
  - apply (NoDup_app_disjoint _ _ Hnd s).
    + rewrite <- (firstn_skipn h c0). apply in_or_app. now left.
    + apply in_concat. exists c. split; [exact Hc |].
      rewrite <- (firstn_skipn h c). apply in_or_app. now right.
  - apply NoDup_app_remove_l in Hnd. exact (IH Hnd c s Hc Hin Hout).
Qed.

Lemma Forall_removelast {A : Type} (P : A -> Prop) (xs : list A) :
  Forall P xs -> Forall P (removelast xs).
Proof.
  induction 1 as [| x xs Hx Hxs IH]; [constructor |].
  cbn [removelast]. destruct xs; [constructor | now constructor].
Qed.

(** C5. With target 20 and hard maximum 24, whatever the slot sequence: every
    batch holds at most 24 slots, every batch but the last holds at least 20,
    and the batches concatenated in emission order are the input sequence. *)
Theorem pack_default_bounds_and_concat :
  forall (slots : list Slot),
    let batches := pack_slots_by_target slots 20 24 in
    Forall (fun b => len b <= 24) batches /\
    Forall (fun b => 20 <= len b) (removelast batches) /\
    List.concat batches = slots.
Proof.
  intros slots batches. subst batches.
  destruct (pack_shape 20 24 slots ltac:(lia)) as (closed & rest & -> & Hs & Hall & Hr).
  assert (Hid : map (fun c => slice_to c 24) closed = closed).
  { clear Hs. induction Hall as [| c cs Hc _ IH]; [reflexivity |].
    cbn [map]. rewrite IH, slice_to_all by lia. reflexivity. }
  rewrite Hid. split; [| split].
  - apply Forall_app. split.
    + eapply Forall_impl; [| exact Hall]. cbn; intros; lia.
    + destruct rest; cbn [is_empty]; constructor; [lia | constructor].
  - destruct rest as [| x rest]; cbn [is_empty].
    + rewrite app_nil_r. apply Forall_removelast.
      eapply Forall_impl; [| exact Hall]. cbn; intros; lia.
    + rewrite removelast_last.
      eapply Forall_impl; [| exact Hall]. cbn; intros; lia.
  - rewrite concat_app, Hs. f_equal.
    destruct rest; cbn; [reflexivity | now rewrite app_nil_r].
Qed.

(** What the packer does to [slots] when batches close at [target] and are
    cut at [hard_max]: the input splits into [len slots / target] closed
    accumulations of exactly [target] slots and a shorter rest; the emitted
    batches hold the first [hard_max] slots of every closed accumulation and
    the rest; the other [target - hard_max] slots of every closed accumulation
    are not emitted in its batch, and, the slots being distinct (as they are
    in [run], by their ids), are in no batch at all. *)
Definition discards {A : Type} (slots : list A) (target hard_max : Z) : Prop :=
  exists closed rest,
    slots = List.concat closed ++ rest /\
    Forall (fun c => len c = target) closed /\
    len rest < target /\
    len closed = len slots / target /\
    List.concat (pack_slots_by_target slots target hard_max)
    = List.concat (map (firstn (Z.to_nat hard_max)) closed) ++ rest /\
    Forall (fun c => c = firstn (Z.to_nat hard_max) c ++ skipn (Z.to_nat hard_max) c /\
                     len (skipn (Z.to_nat hard_max) c) = target - hard_max) closed /\
    len (List.concat (pack_slots_by_target slots target hard_max))
    = len slots - (target - hard_max) * (len slots / target) /\
    (NoDup slots ->
     forall c s, In c closed -> In s (skipn (Z.to_nat hard_max) c) ->
       ~ In s (List.concat (pack_slots_by_target slots target hard_max))).

(** C10. With a hard maximum below the target (both being sizes, the hard
    maximum is not negative), every batch closed at the target size loses
    its last [target - hard_max] slots: they are in no emitted batch, so they
    never reach the content generator. *)
Theorem pack_discards_beyond_hard_max :
  forall (slots : list Slot) (target hard_max : Z),
    0 <= hard_max < target -> discards slots target hard_max.
Proof.
  intros slots target hard_max Hh. unfold discards.
  destruct (pack_shape target hard_max slots ltac:(lia)) as (closed & rest & Hp & Hs & Hall & Hr).
  assert (Hmap : map (fun c => slice_to c hard_max) closed
                 = map (firstn (Z.to_nat hard_max)) closed).
  { apply map_ext. intros c. apply slice_to_firstn. lia. }
  assert (Hn : len closed = len slots / target).
  { rewrite Hs, len_app, (len_concat_uniform _ _ Hall).
    pose proof (len_nonneg rest).
    rewrite Z.div_add_l by lia. rewrite Z.div_small by lia. lia. }
  assert (Hcat : List.concat (pack_slots_by_target slots target hard_max)
                 = List.concat (map (firstn (Z.to_nat hard_max)) closed) ++ rest).
  { rewrite Hp, Hmap, concat_app. f_equal.
    destruct rest; cbn; [reflexivity | now rewrite app_nil_r]. }
  exists closed, rest.
  split; [exact Hs |]. split; [exact Hall |]. split; [exact Hr |].
  split; [exact Hn |]. split; [exact Hcat |]. split; [| split].
  - eapply Forall_impl; [| exact Hall]. cbn. intros c Hc. split.
    + symmetry. apply firstn_skipn.
    + unfold len in *. rewrite length_skipn. lia.
  - rewrite Hcat, len_app.
    assert (Hk : len (List.concat (map (firstn (Z.to_nat hard_max)) closed))
                 = len closed * hard_max).
    { replace (len closed) with (len (map (firstn (Z.to_nat hard_max)) closed))
        by (unfold len; now rewrite length_map).
      apply len_concat_uniform. apply Forall_map.
      eapply Forall_impl; [| exact Hall]. cbn. intros c Hc.
      unfold len in *. rewrite length_firstn. lia. }
    rewrite Hk, <- Hn.
    rewrite Hs at 1. rewrite len_app, (len_concat_uniform _ _ Hall). lia.
  - intros Hnd c s Hc Hin. rewrite Hcat. rewrite Hs in Hnd.
    intros Hout. apply in_app_or in Hout. destruct Hout as [Hout | Hout].
    + apply NoDup_app_remove_r in Hnd.
      exact (cut_tail_not_kept (Z.to_nat hard_max) closed Hnd c s Hc Hin Hout).
    + apply (NoDup_app_disjoint _ _ Hnd s); [| exact Hout].
      apply in_concat. exists c. split; [exact Hc |].
      rewrite <- (firstn_skipn (Z.to_nat hard_max) c). apply in_or_app. now right.
Qed.

(* ------------------------------------------------------------------------- *)
(** ** The random source: shuffling and sampling *)

Definition advance (g : Rng) : Rng := mkRng (draws g) (S (pos g)).

Lemma randbelow_eq n g :
  randbelow n g = (Ok (draws g (pos g) mod n), advance g).
Proof. reflexivity. Qed.

Lemma randint_eq a b g :
  a <= b ->
  randint a b g = (Ok (a + draws g (pos g) mod (b - a + 1)), advance g).
Proof.
  intros Hab. unfold randint.
  destruct (b <? a) eqn:E; [apply Z.ltb_lt in E; lia | reflexivity].
Qed.

Lemma randint_range a b g :
  a <= b -> a <= a + draws g (pos g) mod (b - a + 1) <= b.
Proof.
  intros Hab. pose proof (Z.mod_pos_bound (draws g (pos g)) (b - a + 1)). lia.
Qed.

Section Shuffle.
Context {A : Type}.
Implicit Types xs : list A.

Lemma update_perm xs : forall j (x b : A),
  nth_error xs j = Some b -> Permutation (x :: xs) (b :: update j x xs).
Proof.
  induction xs as [| y xs IH]; intros [| j] x b H; cbn in *; try discriminate.
  - injection H as ->. apply perm_swap.
  - rewrite perm_swap. rewrite (IH j x b H). apply perm_swap.
Qed.

Lemma swap_perm xs : forall i j, Permutation xs (swap xs i j).
Proof.
  unfold swap. induction xs as [| x xs IH]; intros i j.
  - destruct i; reflexivity.
  - destruct i as [| i], j as [| j]; cbn [nth_error update].
    + reflexivity.
    + destruct (nth_error xs j) as [b |] eqn:E; [| reflexivity].
      cbn [update]. now apply update_perm.
    + destruct (nth_error xs i) as [a |] eqn:E; [| reflexivity].
      cbn [update]. now apply update_perm.
    + specialize (IH i j).
      destruct (nth_error xs i), (nth_error xs j); cbn [update];
        try reflexivity. now constructor.
Qed.

Lemma shuffle_from_perm : forall i xs g,
  exists ys g', shuffle_from i xs g = (Ok ys, g') /\ Permutation xs ys.
Proof.
  induction i as [| i IH]; intros xs g.
  - exists xs, g. split; reflexivity.
  - cbn [shuffle_from]. unfold bind at 1. rewrite randbelow_eq. cbn [ret].
    match goal with |- context [shuffle_from i ?zs ?h] =>
      destruct (IH zs h) as (ys & g' & E & P) end.
    exists ys, g'. split; [exact E |].
    etransitivity; [apply swap_perm | exact P].
Qed.

Lemma shuffle_perm xs g :
  exists ys g', shuffle xs g = (Ok ys, g') /\ Permutation xs ys.
Proof. apply shuffle_from_perm. Qed.

End Shuffle.

(* ------------------------------------------------------------------------- *)
(** ** The cohort assigner *)

Definition disjoint (xs ys : list Z) : Prop := forall x, In x xs -> ~ In x ys.

Lemma pick_cohorts_partition cfg user_ids g :
  NoDup user_ids ->
  0 <= VIP_COUNT cfg -> 0 <= LOYAL_COUNT cfg -> 0 <= REGULAR_COUNT cfg ->
  VIP_COUNT cfg + LOYAL_COUNT cfg + REGULAR_COUNT cfg <= len user_ids ->
  exists vip loyal regular g',
    pick_cohorts cfg user_ids g = (Ok (vip, loyal, regular), g') /\
    len vip = VIP_COUNT cfg /\
    len loyal = LOYAL_COUNT cfg /\
    len regular = REGULAR_COUNT cfg /\
    disjoint vip loyal /\ disjoint vip regular /\ disjoint loyal regular /\
    incl (vip ++ loyal ++ regular) user_ids.
Proof.
  intros Hnd Hv Hl Hr Hsum. unfold pick_cohorts.
  destruct (shuffle_perm user_ids g) as (users & g' & E & P).
  unfold bind. rewrite E. cbn [ret].
  set (V := VIP_COUNT cfg) in *. set (L := LOYAL_COUNT cfg) in *.
  set (R := REGULAR_COUNT cfg) in *.
  do 4 eexists. split; [reflexivity |].
  assert (Hlen : len users = len user_ids)
    by (unfold len; now rewrite (Permutation_length P)).
  assert (Hnd' : NoDup users) by (eapply Permutation_NoDup; eassumption).
  rewrite slice_to_firstn by lia.
  rewrite !slice_firstn_skipn by lia.
  replace (V + L - V) with L by lia.
  replace (V + L + R - (V + L)) with R by lia.
  replace (Z.to_nat (V + L)) with (Z.to_nat L + Z.to_nat V)%nat by lia.
  rewrite <- skipn_skipn.
  set (rest1 := skipn (Z.to_nat V) users).
  set (rest2 := skipn (Z.to_nat L) rest1).
  assert (H1 : users = firstn (Z.to_nat V) users ++ rest1)
    by (symmetry; apply firstn_skipn).
  assert (H2 : rest1 = firstn (Z.to_nat L) rest1 ++ rest2)
    by (symmetry; apply firstn_skipn).
  assert (H3 : rest2 = firstn (Z.to_nat R) rest2 ++ skipn (Z.to_nat R) rest2)
    by (symmetry; apply firstn_skipn).
  assert (Hl1 : len rest1 = len users - V)
    by (unfold rest1, len in *; rewrite length_skipn; lia).
  assert (Hl2 : len rest2 = len rest1 - L)
    by (unfold rest2, len in *; rewrite length_skipn; lia).
  assert (Hnd1 : NoDup rest1)
    by (rewrite H1 in Hnd'; eapply NoDup_app_remove_l; eassumption).
  assert (D1 : disjoint (firstn (Z.to_nat V) users) rest1)
    by (unfold disjoint; apply NoDup_app_disjoint; rewrite <- H1; exact Hnd').
  assert (D2 : disjoint (firstn (Z.to_nat L) rest1) rest2)
    by (unfold disjoint; apply NoDup_app_disjoint; rewrite <- H2; exact Hnd1).
  assert (I2 : incl (firstn (Z.to_nat L) rest1) rest1)
    by (intros x Hx; rewrite H2; apply in_or_app; now left).
  assert (I3 : incl (firstn (Z.to_nat R) rest2) rest2)
    by (intros x Hx; rewrite H3; apply in_or_app; now left).
  assert (I3' : incl rest2 rest1)
    by (intros x Hx; rewrite H2; apply in_or_app; now right).
  assert (I1 : incl rest1 users)
    by (intros x Hx; rewrite H1; apply in_or_app; now right).
  repeat split.
  - unfold len in *. rewrite length_firstn. lia.
  - unfold len in *. rewrite length_firstn. lia.
  - unfold len in *. rewrite length_firstn. lia.
  - intros x Hx Hy. apply (D1 x Hx). now apply I2.
  - intros x Hx Hy. apply (D1 x Hx). now apply I3', I3.
  - intros x Hx Hy. apply (D2 x Hx). now apply I3.
  - intros x Hx. apply (Permutation_in x (Permutation_sym P)).
    apply in_app_or in Hx. destruct Hx as [Hx | Hx].
    + rewrite H1. apply in_or_app. now left.
    + apply in_app_or in Hx. destruct Hx as [Hx | Hx].
      * now apply I1, I2.
      * now apply I1, I3', I3.
Qed.

(** C9. For a population of distinct user ids and cohort counts that are
    counts (not negative): when the population is at least as large as
    the three counts together, [pick_cohorts] returns three groups of exactly
    the configured sizes, pairwise disjoint and drawn from the population;
    when it is smaller, [run] raises [SystemExit] at once, leaving the world
    (random source, clock, rows, files) exactly as it found it. *)
Theorem cohorts_partition_or_abort :
  forall cfg llm fuel restaurants users,
    NoDup (map account_id users) ->
    0 <= VIP_COUNT cfg -> 0 <= LOYAL_COUNT cfg -> 0 <= REGULAR_COUNT cfg ->
    (VIP_COUNT cfg + LOYAL_COUNT cfg + REGULAR_COUNT cfg <= len users ->
     forall g, exists vip loyal regular g',
       pick_cohorts cfg (map account_id users) g = (Ok (vip, loyal, regular), g') /\
       len vip = VIP_COUNT cfg /\
       len loyal = LOYAL_COUNT cfg /\
       len regular = REGULAR_COUNT cfg /\
       disjoint vip loyal /\ disjoint vip regular /\ disjoint loyal regular /\
       incl (vip ++ loyal ++ regular) (map account_id users)) /\
    (len users < VIP_COUNT cfg + LOYAL_COUNT cfg + REGULAR_COUNT cfg ->
     forall w,
       run cfg llm fuel restaurants users w
       = (Raise (SystemExit "Not enough users for the requested cohort sizes."), w)).
Proof.
  intros cfg llm fuel restaurants users Hnd Hv Hl Hr. split.
  - intros Hsum g. apply pick_cohorts_partition; try assumption.
    unfold len in *. now rewrite length_map.
  - intros Hlt w. unfold run.
    destruct (len users <? VIP_COUNT cfg + LOYAL_COUNT cfg + REGULAR_COUNT cfg) eqn:E.
    + reflexivity.
    + apply Z.ltb_ge in E. lia.
Qed.

(* ------------------------------------------------------------------------- *)
(** ** Stepping through computations *)

Lemma bind_ok {S A B : Type} (m : M S A) (f : A -> M S B) s a s' :
  m s = (Ok a, s') -> bind m f s = f a s'.
Proof. intros E. unfold bind. now rewrite E. Qed.

Lemma map_m_ok {S A B : Type} (f : A -> M S B) (I : S -> Prop)
    (P : A -> B -> Prop) :
  (forall x s, I s -> exists y s', f x s = (Ok y, s') /\ I s' /\ P x y) ->
  forall xs s, I s ->
    exists ys s', map_m f xs s = (Ok ys, s') /\ I s' /\ Forall2 P xs ys.
Proof.
  intros Hf. induction xs as [| x xs IH]; intros s Hs.
  - exists [], s. repeat split; [assumption | constructor].
  - destruct (Hf x s Hs) as (y & s1 & E1 & Hs1 & Hp).
    destruct (IH s1 Hs1) as (ys & s2 & E2 & Hs2 & Hps).
    exists (y :: ys), s2. cbn [map_m].
    rewrite (bind_ok _ _ _ _ _ E1), (bind_ok _ _ _ _ _ E2).
    repeat split; [assumption | now constructor].
Qed.

(* ------------------------------------------------------------------------- *)
(** ** Ratings *)

Lemma Qltb_true a b : Qltb a b = true -> (a < b)%Q.
Proof.
  unfold Qltb. intros H. apply negb_true_iff in H.
  apply Qnot_le_lt. intros Hle. apply Qle_bool_iff in Hle. congruence.
Qed.

Lemma Qltb_false a b : Qltb a b = false -> (b <= a)%Q.
Proof.
  unfold Qltb. intros H. apply negb_false_iff in H. now apply Qle_bool_iff.
Qed.

Lemma round_half_even_bounds (lo hi : Z) (y : Q) :
  (inject_Z lo <= y <= inject_Z hi)%Q ->
  lo <= round_half_even y <= hi.
Proof.
  intros [Hlo Hhi]. unfold round_half_even.
  set (f := Qfloor y).
  assert (Hf1 : (inject_Z f <= y)%Q) by apply Qfloor_le.
  assert (Hlf : lo <= f).
  { rewrite <- (Qfloor_Z lo). now apply Qfloor_resp_le. }
  assert (Hfh : f <= hi).
  { rewrite <- (Qfloor_Z hi). now apply Qfloor_resp_le. }
  assert (Hup : (1 # 2 <= y - inject_Z f)%Q -> f + 1 <= hi).
  { intros Hr. assert (Hlt : (inject_Z f < inject_Z hi)%Q) by lra.
    rewrite <- Zlt_Qlt in Hlt. lia. }
  destruct (Qltb (y - inject_Z f) (1 # 2)) eqn:E1; [lia |].
  apply Qltb_false in E1. specialize (Hup E1).
  destruct (Qltb (1 # 2) (y - inject_Z f)); [lia |].
  destruct (Z.even f); lia.
Qed.

(** A rating the pipeline may emit: a number of tenths between 0.0 and 5.0. *)
Definition rating_ok (q : Q) : Prop := exists k : Z, q = k # 10 /\ 0 <= k <= 50.

Lemma round1_rating_ok (x : Q) : (0 <= x <= 5)%Q -> rating_ok (round1 x).
Proof.
  intros Hx. exists (round_half_even (x * 10)). split; [reflexivity |].
  apply round_half_even_bounds.
  change (inject_Z 0) with 0%Q. change (inject_Z 50) with 50%Q. lra.
Qed.

Lemma clamp_rating_range (x : float) : (0 <= clamp_rating x <= 5)%Q.
Proof.
  destruct x as [| [|] | q]; cbn [clamp_rating]; try lra.
  destruct (Qltb q 5) eqn:E1.
  - apply Qltb_true in E1.
    destruct (Qltb 0 q) eqn:E2; [apply Qltb_true in E2 |]; lra.
  - destruct (Qltb 0 5) eqn:E2; [| discriminate E2]. lra.
Qed.

Lemma random_eq g :
  random g = (Ok ((draws g (pos g) mod 2 ^ 53) # (2 ^ 53)), advance g).
Proof. reflexivity. Qed.

Lemma random_range g :
  (0 <= (draws g (pos g) mod 2 ^ 53) # (2 ^ 53) < 1)%Q.
Proof.
  pose proof (Z.mod_pos_bound (draws g (pos g)) (2 ^ 53) ltac:(lia)) as H.
  set (x := draws g (pos g) mod 2 ^ 53) in *.
  unfold Qle, Qlt. cbn [Qnum Qden]. change (Z.pos (2 ^ 53)) with (2 ^ 53). lia.
Qed.

Lemma uniform_eq a b g :
  uniform a b g
  = (Ok (a + (b - a) * ((draws g (pos g) mod 2 ^ 53) # (2 ^ 53)))%Q, advance g).
Proof. reflexivity. Qed.

Lemma choice_eq {A : Type} (d : A) (xs : list A) g :
  choice (d :: xs) g
  = (Ok (nth (Z.to_nat (draws g (pos g) mod len (d :: xs))) (d :: xs) d), advance g).
Proof. reflexivity. Qed.

Lemma fallback_review_text_ok name desc g :
  exists txt rating g',
    fallback_review_text name desc g = (Ok (txt, rating), g') /\ rating_ok rating.
Proof.
  unfold fallback_review_text.
  rewrite (bind_ok _ _ _ _ _ (random_eq g)).
  pose proof (random_range (advance (advance g))) as Hr.
  destruct (Qltb _ float_0_6); [| destruct (Qltb _ float_0_9)];
    unfold POS_ADJ, MID_ADJ, NEG_ADJ;
    rewrite (bind_ok _ _ _ _ _ (choice_eq _ _ _));
    rewrite (bind_ok _ _ _ _ _ (uniform_eq _ _ _));
    do 3 eexists; (split; [reflexivity |]);
    apply round1_rating_ok; lra.
Qed.

(* ------------------------------------------------------------------------- *)
(** ** The content generator *)

(** A result answers a slot when its [slot_id] equals the slot's (as Python
    compares dict keys) and its rating is a valid one. *)
Definition answers (s : Slot) (r : Generated) : Prop :=
  key_eq (g_slot_id r) (slot_id s) = true /\ rating_ok (g_rating r).

Lemma fallback_result_ok s g :
  exists r g', fallback_result s g = (Ok r, g') /\ answers s r.
Proof.
  unfold fallback_result.
  destruct (fallback_review_text_ok (name s) (description s) g)
    as (txt & rating & g' & E & Hr).
  rewrite (bind_ok _ _ _ _ _ E).
  do 2 eexists. split; [reflexivity |]. split; [| exact Hr].
  cbn. apply Z.eqb_refl.
Qed.

Definition dict_ok (d : dict Generated) : Prop :=
  Forall (fun kv => g_slot_id (snd kv) = fst kv /\ rating_ok (g_rating (snd kv))) d.

Lemma parse_line_ok results line : dict_ok results -> dict_ok (parse_line results line).
Proof.
  intros Hd. destruct line as [| sid rtxt rat]; [exact Hd |].
  unfold parse_line.
  assert (Hset : forall txt x,
             dict_ok (if hashable sid
                      then dict_set sid
                             (mkGenerated sid (slice_to txt 200) (round1 (clamp_rating x)))
                             results
                      else results)).
  { intros txt x. destruct (hashable sid); [| exact Hd].
    constructor; [| exact Hd]. cbn. split; [reflexivity |].
    apply round1_rating_ok, clamp_rating_range. }
  destruct sid; try exact Hd;
    destruct rtxt; try exact Hd;
    destruct (to_float rat); try exact Hd; apply Hset.
Qed.

Lemma parse_lines_ok lines : forall results,
  dict_ok results -> dict_ok (fold_left parse_line lines results).
Proof.
  induction lines as [| l lines IH]; intros results Hd; [exact Hd |].
  cbn [fold_left]. now apply IH, parse_line_ok.
Qed.

Lemma dict_get_ok k d r :
  dict_ok d -> dict_get k d = Some r ->
  key_eq (g_slot_id r) k = true /\ rating_ok (g_rating r).
Proof.
  induction 1 as [| [key v] d [Hk Hr] _ IH]; cbn [dict_get]; [discriminate |].
  cbn [fst snd] in *. destruct (key_eq key k) eqn:E.
  - intros [= <-]. rewrite Hk. auto.
  - exact IH.
Qed.

Lemma generate_for_slots_answers llm slots g :
  exists out g',
    generate_for_slots llm slots g = (Ok out, g') /\ Forall2 answers slots out.
Proof.
  assert (Hfb : exists out g',
             map_m fallback_result slots g = (Ok out, g') /\ True /\
             Forall2 answers slots out).
  { apply (map_m_ok fallback_result (fun _ => True) answers); [| exact I].
    intros s g0 _. destruct (fallback_result_ok s g0) as (r & g1 & E & Ha).
    exists r, g1. auto. }
  assert (Hgoal : exists out g',
             generate_for_slots llm slots g = (Ok out, g') /\ True /\
             Forall2 answers slots out).
  { unfold generate_for_slots.
    destruct (negb (use_openai llm) || is_empty slots); [exact Hfb |].
    destruct (client llm _) as [| lines]; [exact Hfb |].
    apply (map_m_ok _ (fun _ => True) answers); [| exact I].
    intros s g0 _.
    destruct (dict_get (slot_id s) (fold_left parse_line lines [])) as [r |] eqn:E.
    - exists r, g0. split; [reflexivity |]. split; [exact I |].
      eapply dict_get_ok; [| exact E]. apply parse_lines_ok. constructor.
    - destruct (fallback_result_ok s g0) as (r & g1 & E1 & Ha).
      exists r, g1. auto. }
  destruct Hgoal as (out & g' & E & _ & Hall). eauto.
Qed.

(** C6. For every batch, whatever the service does (not configured, failing
    call, any reply text), [generate_for_slots] returns, and its results match
    the slots one to one and in order: each result carries its slot's id, and
    each rating is a whole number of tenths within [0.0, 5.0]. *)
Theorem generate_for_slots_total_and_bounded :
  forall (llm : ReviewLLM) (slots : list Slot) (g : Rng),
    exists out g',
      generate_for_slots llm slots g = (Ok out, g') /\
      List.length out = List.length slots /\
      Forall2 answers slots out.
Proof.
  intros llm slots g.
  destruct (generate_for_slots_answers llm slots g) as (out & g' & E & Hall).
  exists out, g'. split; [exact E |]. split; [| exact Hall].
  symmetry. eapply Forall2_length; eassumption.
Qed.

(* ------------------------------------------------------------------------- *)
(** ** The streaming writer *)

Lemma for_each_ok {S A St : Type} (body : A -> St -> M S St)
    (P : St -> S -> Prop) (xs : list A) :
  (forall x st s, In x xs -> P st s ->
     exists st' s', body x st s = (Ok st', s') /\ P st' s') ->
  forall st s, P st s ->
    exists st' s', for_each xs body st s = (Ok st', s') /\ P st' s'.
Proof.
  induction xs as [| x xs IH]; intros Hb st s Hp.
  - exists st, s. split; [reflexivity | assumption].
  - destruct (Hb x st s (or_introl eq_refl) Hp) as (st1 & s1 & E1 & Hp1).
    cbn [for_each]. rewrite (bind_ok _ _ _ _ _ E1).
    apply IH; [| assumption]. intros y st' s' Hy. apply Hb. now right.
Qed.

(** The row behind reference [a] has been given an id. *)
Definition has_id (w : World) (a : nat) : Prop :=
  review_id (cells (heap w) a) <> None.

(** Every photo refers to a review id found in [rows]. *)
Definition photos_ok (rows : list Row) (photos : list Photo) : Prop :=
  Forall (fun p => In (Some (photo_review_id p)) (map review_id rows)) photos.

(** Nothing but the random source differs. *)
Definition same_store (w w' : World) : Prop :=
  heap w' = heap w /\ files w' = files w /\ clock w' = clock w.

Lemma same_store_refl w : same_store w w.
Proof. repeat split. Qed.

Lemma lift_rng_ok {A : Type} (m : M Rng A) w a g' :
  m (rng w) = (Ok a, g') ->
  lift_rng m w = (Ok a, mkWorld g' (clock w) (heap w) (files w)).
Proof. intros E. unfold lift_rng. now rewrite E. Qed.

Lemma map_m_load chunk w :
  map_m load chunk w = (Ok (map (cells (heap w)) chunk), w).
Proof.
  induction chunk as [| a chunk IH]; [reflexivity |].
  cbn [map_m map]. unfold bind at 1. unfold load at 1.
  rewrite (bind_ok _ _ _ _ _ IH). reflexivity.
Qed.

Lemma build_review_photos_ok chunk w :
  Forall (has_id w) chunk ->
  exists photos w',
    _build_review_photos chunk w = (Ok photos, w') /\
    same_store w w' /\
    photos_ok (map (cells (heap w)) chunk) photos.
Proof.
  intros Hid. unfold _build_review_photos.
  set (P := fun (photos : list Photo) (w' : World) =>
              same_store w w' /\
              photos_ok (map (cells (heap w)) chunk) photos).
  apply (for_each_ok _ P); [| split; [apply same_store_refl | constructor]].
  intros rv photos w1 Hrv [Hs Hp].
  assert (En : REVIEW_PHOTO_MIN <= REVIEW_PHOTO_MAX)
    by (unfold REVIEW_PHOTO_MIN, REVIEW_PHOTO_MAX; lia).
  rewrite (bind_ok _ _ _ _ _ (lift_rng_ok _ _ _ _ (randint_eq _ _ (rng w1) En))).
  apply (for_each_ok _ P).
  - intros idx photos' w2 _ [Hs2 Hp2].
    unfold bind at 1. unfold load at 1.
    destruct Hs2 as (Hh & Hf & Hc).
    rewrite Forall_forall in Hid. specialize (Hid rv Hrv). unfold has_id in Hid.
    rewrite Hh. destruct (review_id (cells (heap w) rv)) as [rid |] eqn:E;
      [| contradiction].
    do 2 eexists. split; [reflexivity |]. split; [repeat split; assumption |].
    apply Forall_app. split; [exact Hp2 |]. constructor; [| constructor].
    cbn [photo_review_id]. rewrite <- E, map_map.
    apply (in_map (fun a => review_id (cells (heap w) a))). exact Hrv.
  - split; [| exact Hp]. destruct Hs as (Hh & Hf & Hc). repeat split; assumption.
Qed.

Lemma write_chunk_ok chunk w :
  chunk <> [] -> Forall (has_id w) chunk ->
  exists path photo_path photos w',
    write_chunk chunk w = (Ok tt, w') /\
    heap w' = heap w /\ clock w' = clock w /\
    files w' = files w ++ [(path, ReviewChunk (map (cells (heap w)) chunk));
                           (photo_path, PhotoChunk photos)] /\
    photos_ok (map (cells (heap w)) chunk) photos.
Proof.
  intros Hne Hid. unfold write_chunk.
  destruct (rev chunk) as [| last_row rest] eqn:Er.
  { apply (f_equal (@rev nat)) in Er. rewrite rev_involutive in Er.
    cbn in Er. contradiction. }
  assert (Hin : In last_row chunk).
  { apply in_rev. rewrite Er. now left. }
  unfold bind at 1. unfold load at 1.
  pose proof Hid as Hid'. rewrite Forall_forall in Hid'.
  specialize (Hid' _ Hin). unfold has_id in Hid'.
  destruct (review_id (cells (heap w) last_row)) as [last_id |]; [| contradiction].
  rewrite (bind_ok _ _ _ _ _ (map_m_load chunk w)).
  unfold bind at 1. unfold write_file at 1.
  match goal with |- context [bind (_build_review_photos chunk) _ ?w1] =>
    destruct (build_review_photos_ok chunk w1) as (photos & w2 & E & (Hh & Hf & Hc) & Hp);
      [exact Hid |] end.
  rewrite (bind_ok _ _ _ _ _ E). unfold write_file.
  do 4 eexists. split; [reflexivity |]. cbn [heap clock files] in *.
  repeat split; try assumption.
  - rewrite Hf, <- app_assoc. reflexivity.
  - exact Hp.
Qed.

(** The file log a flush leaves: for every chunk its rows, then photos that
    refer only to those rows. *)
Inductive chunks_written : list (list Row) -> list (string * content) -> Prop :=
| cw_nil : chunks_written [] []
| cw_cons rows chunks path photo_path photos log :
    photos_ok rows photos ->
    chunks_written chunks log ->
    chunks_written (rows :: chunks)
      ((path, ReviewChunk rows) :: (photo_path, PhotoChunk photos) :: log).

Lemma chunks_written_app cs1 cs2 l1 l2 :
  chunks_written cs1 l1 -> chunks_written cs2 l2 ->
  chunks_written (cs1 ++ cs2) (l1 ++ l2).
Proof.
  induction 1; intros H2; [exact H2 |]. cbn. constructor; auto.
Qed.

(** The rows behind a list of chunks of references. *)
Definition rows_of (h : Heap) (chunks : list (list nat)) : list (list Row) :=
  map (map (cells h)) chunks.

(** [cells] after the first loop of [add_rows_and_maybe_flush]. *)
Fixpoint assigned (c : nat -> Row) (next : Z) (rows : list nat) : nat -> Row :=
  match rows with
  | [] => c
  | a :: rest =>
      assigned (fun b => if Nat.eqb b a then set_review_id (c a) next else c b)
        (next + 1) rest
  end.

Lemma assign_ids_ok rows : forall self w,
  exists w',
    assign_ids self rows w
    = (Ok (mkReviewStreamer (chunk_size self) (buffer self ++ rows)
             (next_review_id self + len rows)), w') /\
    rng w' = rng w /\ clock w' = clock w /\ files w' = files w /\
    brk (heap w') = brk (heap w) /\
    cells (heap w') = assigned (cells (heap w)) (next_review_id self) rows.
Proof.
  unfold assign_ids.
  induction rows as [| a rows IH]; intros self w.
  - exists w. cbn [for_each]. unfold ret. rewrite app_nil_r.
    change (len (@nil nat)) with 0. rewrite Z.add_0_r.
    destruct self. repeat split.
  - cbn [for_each]. unfold bind at 1. unfold bind at 1. unfold load at 1.
    unfold bind at 1. unfold store at 1. unfold ret at 1.
    match goal with |- context [for_each rows _ ?s1 ?w1] =>
      destruct (IH s1 w1) as (w' & E & Hg & Hc & Hf & Hb & Hcells) end.
    exists w'. cbn [chunk_size buffer next_review_id] in E.
    rewrite E. cbn [rng clock files heap brk cells] in *.
    repeat split; try assumption.
    f_equal. f_equal. f_equal.
    + now rewrite <- app_assoc.
    + unfold len. cbn [List.length]. lia.
Qed.

Lemma assigned_has_id rows : forall c next a,
  review_id (c a) <> None \/ In a rows ->
  review_id (assigned c next rows a) <> None.
Proof.
  induction rows as [| b rows IH]; intros c next a H.
  - destruct H as [H | []]. exact H.
  - cbn [assigned]. apply IH. destruct (Nat.eqb a b) eqn:E.
    + left. discriminate.
    + destruct H as [H | [H | H]]; [now left | | now right].
      subst. now rewrite Nat.eqb_refl in E.
Qed.

Lemma assigned_other rows : forall c next a,
  ~ In a rows -> assigned c next rows a = c a.
Proof.
  induction rows as [| b rows IH]; intros c next a H; [reflexivity |].
  cbn [assigned]. rewrite IH by (intros Hin; apply H; now right).
  destruct (Nat.eqb a b) eqn:E; [| reflexivity].
  apply Nat.eqb_eq in E. subst. exfalso. apply H. now left.
Qed.

Lemma assigned_nth rows : forall c next i a,
  NoDup rows -> nth_error rows i = Some a ->
  assigned c next rows a = set_review_id (c a) (next + Z.of_nat i).
Proof.
  induction rows as [| b rows IH]; intros c next i a Hnd Hi.
  - destruct i; discriminate.
  - inversion Hnd as [| ? ? Hnotin Hnd']; subst. cbn [assigned].
    destruct i as [| i]; cbn [nth_error] in Hi.
    + injection Hi as ->. rewrite assigned_other by assumption.
      rewrite Nat.eqb_refl. now rewrite Z.add_0_r.
    + rewrite (IH _ _ i a Hnd' Hi).
      assert (Hab : a <> b).
      { intros ->. apply Hnotin. eapply nth_error_In; eassumption. }
      apply Nat.eqb_neq in Hab. rewrite Hab. f_equal. lia.
Qed.

(** The second loop: full chunks leave the front of the buffer one by one. *)
Lemma flush_full_chunks_ok fuel : forall self w,
  1 <= chunk_size self ->
  Forall (has_id w) (buffer self) ->
  (List.length (buffer self) < fuel)%nat ->
  exists chunks log rest w',
    flush_full_chunks fuel self w
    = (Ok (mkReviewStreamer (chunk_size self) rest (next_review_id self)), w') /\
    buffer self = List.concat chunks ++ rest /\
    Forall (fun c => len c = chunk_size self) chunks /\
    len rest < chunk_size self /\
    heap w' = heap w /\ clock w' = clock w /\
    files w' = files w ++ log /\
    chunks_written (rows_of (heap w) chunks) log.
Proof.
  unfold flush_full_chunks.
  induction fuel as [| fuel IH]; intros self w Hcs Hid Hfuel; [lia |].
  cbn [while].
  destruct (chunk_size self <=? len (buffer self)) eqn:E.
  - apply Z.leb_le in E.
    set (chunk := slice_to (buffer self) (chunk_size self)).
    assert (Hchunk : chunk = firstn (Z.to_nat (chunk_size self)) (buffer self))
      by (apply slice_to_firstn; lia).
    assert (Hrest : slice_from (buffer self) (chunk_size self)
                    = skipn (Z.to_nat (chunk_size self)) (buffer self))
      by (apply slice_from_skipn; lia).
    assert (Hsplit : buffer self = chunk ++ slice_from (buffer self) (chunk_size self))
      by (rewrite Hchunk, Hrest; symmetry; apply firstn_skipn).
    assert (Hlen : len chunk = chunk_size self)
      by (rewrite Hchunk; unfold len in *; rewrite length_firstn; lia).
    assert (Hne : chunk <> []).
    { intros Hnil. rewrite Hnil in Hlen. change (len (@nil nat)) with 0 in Hlen. lia. }
    assert (Hid1 : Forall (has_id w) chunk).
    { rewrite Hsplit in Hid. now apply Forall_app in Hid. }
    destruct (write_chunk_ok chunk w Hne Hid1)
      as (path & ppath & photos & w1 & Ew & Hh & Hc & Hf & Hp).
    unfold bind at 1. rewrite (bind_ok _ _ _ _ _ Ew). unfold ret at 1.
    match goal with |- context [while fuel _ _ ?s1 w1] =>
      destruct (IH s1 w1) as (chunks & log & rest & w' & E' & Hb & Hall & Hr & Hh' & Hc' & Hf' & Hcw) end.
    + exact Hcs.
    + cbn [buffer]. rewrite Hsplit in Hid. apply Forall_app in Hid.
      destruct Hid as [_ Hid]. eapply Forall_impl; [| exact Hid].
      intros a Ha. unfold has_id in *. now rewrite Hh.
    + cbn [buffer]. rewrite Hrest, length_skipn. unfold len in *. lia.
    + cbn [chunk_size buffer next_review_id] in *.
      exists (chunk :: chunks), ((path, ReviewChunk (map (cells (heap w)) chunk))
                                 :: (ppath, PhotoChunk photos) :: log), rest, w'.
      split; [exact E' |]. repeat split.
      * cbn [List.concat]. rewrite <- app_assoc, <- Hb. exact Hsplit.
      * constructor; assumption.
      * exact Hr.
      * congruence.
      * congruence.
      * rewrite Hf', Hf, <- app_assoc. reflexivity.
      * cbn [rows_of map]. constructor; [exact Hp |].
        unfold rows_of in Hcw. now rewrite <- Hh.
  - apply Z.leb_gt in E.
    exists [], [], (buffer self), w. unfold ret. destruct self.
    cbn [chunk_size buffer next_review_id List.concat] in *.
    rewrite app_nil_r. repeat split; try assumption; constructor.
Qed.

Lemma add_rows_and_maybe_flush_ok self rows w :
  1 <= chunk_size self ->
  Forall (has_id w) (buffer self) ->
  exists chunks log rest w',
    add_rows_and_maybe_flush self rows w
    = (Ok (mkReviewStreamer (chunk_size self) rest
             (next_review_id self + len rows)), w') /\
    buffer self ++ rows = List.concat chunks ++ rest /\
    Forall (fun c => len c = chunk_size self) chunks /\
    len rest < chunk_size self /\
    brk (heap w') = brk (heap w) /\
    cells (heap w') = assigned (cells (heap w)) (next_review_id self) rows /\
    clock w' = clock w /\
    files w' = files w ++ log /\
    chunks_written (rows_of (heap w') chunks) log.
Proof.
  intros Hcs Hid. unfold add_rows_and_maybe_flush.
  destruct (assign_ids_ok rows self w) as (w1 & E1 & Hg & Hc & Hf & Hb & Hcells).
  rewrite (bind_ok _ _ _ _ _ E1). cbn [buffer].
  match goal with |- context [flush_full_chunks ?fuel ?s1 w1] =>
    destruct (flush_full_chunks_ok fuel s1 w1)
      as (chunks & log & rest & w' & E2 & Hbuf & Hall & Hr & Hh & Hc' & Hf' & Hcw) end.
  - exact Hcs.
  - cbn [buffer]. apply Forall_app. split.
    + eapply Forall_impl; [| exact Hid]. intros a Ha. unfold has_id in *.
      rewrite Hcells. apply assigned_has_id. now left.
    + apply Forall_forall. intros a Ha. unfold has_id.
      rewrite Hcells. apply assigned_has_id. now right.
  - cbn [buffer]. lia.
  - cbn [chunk_size buffer next_review_id] in *.
    exists chunks, log, rest, w'. split; [exact E2 |].
    rewrite Hh. repeat split; try assumption; congruence.
Qed.

Lemma flush_remaining_ok self w :
  Forall (has_id w) (buffer self) ->
  exists log w',
    flush_remaining self w
    = (Ok (mkReviewStreamer (chunk_size self) [] (next_review_id self)), w') /\
    heap w' = heap w /\ clock w' = clock w /\
    files w' = files w ++ log /\
    chunks_written
      (rows_of (heap w) (if is_empty (buffer self) then [] else [buffer self])) log.
Proof.
  intros Hid. unfold flush_remaining.
  destruct (buffer self) as [| a buf] eqn:Eb; cbn [is_empty].
  - exists [], w. unfold ret. rewrite app_nil_r. destruct self.
    cbn [buffer chunk_size next_review_id] in *. subst.
    repeat split. constructor.
  - destruct (write_chunk_ok (a :: buf) w ltac:(discriminate) Hid)
      as (path & ppath & photos & w' & E & Hh & Hc & Hf & Hp).
    rewrite (bind_ok _ _ _ _ _ E). unfold ret.
    do 2 eexists. split; [reflexivity |]. repeat split; try eassumption.
    cbn [rows_of map]. constructor; [exact Hp | constructor].
Qed.

(** Rows handed to the writer call by call, as [run] does within and across
    windows. *)
Definition feed (self : ReviewStreamer) (calls : list (list nat))
    : M World ReviewStreamer :=
  for_each calls (fun rows self => add_rows_and_maybe_flush self rows) self.

Definition feed_and_flush (chunk_size : Z) (calls : list (list nat))
    : M World ReviewStreamer :=
  bind (feed (new_streamer chunk_size) calls) flush_remaining.

Lemma feed_ok calls : forall self w,
  1 <= chunk_size self ->
  Forall (has_id w) (buffer self) ->
  exists chunks log rest w',
    feed self calls w
    = (Ok (mkReviewStreamer (chunk_size self) rest
             (next_review_id self + len (List.concat calls))), w') /\
    len (buffer self) + len (List.concat calls)
    = len chunks * chunk_size self + len rest /\
    (len (buffer self) < chunk_size self \/ calls <> [] -> len rest < chunk_size self) /\
    Forall (fun rows => len rows = chunk_size self) chunks /\
    Forall (has_id w') rest /\
    files w' = files w ++ log /\
    chunks_written chunks log.
Proof.
  unfold feed. induction calls as [| rows calls IH]; intros self w Hcs Hid.
  - exists [], [], (buffer self), w. cbn [for_each List.concat]. unfold ret.
    change (len (@nil nat)) with 0. rewrite Z.add_0_r, app_nil_r.
    destruct self. cbn [chunk_size buffer next_review_id].
    repeat split; try assumption; try constructor.
    + change (len (@nil (list Row))) with 0. lia.
    + intros [H | H]; [exact H | contradiction].
  - destruct (add_rows_and_maybe_flush_ok self rows w Hcs Hid)
      as (chunks1 & log1 & rest1 & w1 & E1 & Hbuf & Hall1 & Hr1 & Hb1 & Hcells & Hc1 & Hf1 & Hcw1).
    cbn [for_each]. rewrite (bind_ok _ _ _ _ _ E1).
    assert (Hid1 : Forall (has_id w1) rest1).
    { assert (Hall : Forall (has_id w1) (buffer self ++ rows)).
      { apply Forall_app. split.
        - eapply Forall_impl; [| exact Hid]. intros a Ha. unfold has_id in *.
          rewrite Hcells. apply assigned_has_id. now left.
        - apply Forall_forall. intros a Ha. unfold has_id.
          rewrite Hcells. apply assigned_has_id. now right. }
      rewrite Hbuf in Hall. now apply Forall_app in Hall. }
    match goal with |- context [for_each calls _ ?s1 w1] =>
      destruct (IH s1 w1) as (chunks2 & log2 & rest2 & w2 & E2 & Hlen & Hr2 & Hall2 & Hid2 & Hf2 & Hcw2) end;
      [exact Hcs | exact Hid1 |].
    cbn [chunk_size buffer next_review_id] in *.
    exists (rows_of (heap w1) chunks1 ++ chunks2), (log1 ++ log2), rest2, w2.
    repeat split.
    + rewrite E2. cbn [List.concat]. rewrite len_app. do 3 f_equal. lia.
    + cbn [List.concat]. rewrite len_app.
      apply (f_equal len) in Hbuf. rewrite !len_app in Hbuf.
      rewrite (len_concat_uniform _ _ Hall1) in Hbuf.
      rewrite len_app. unfold rows_of at 1.
      replace (len (map (map (cells (heap w1))) chunks1)) with (len chunks1)
        by (unfold len; now rewrite length_map).
      lia.
    + intros _. apply Hr2. now left.
    + apply Forall_app. split; [| exact Hall2].
      unfold rows_of. apply Forall_map.
      eapply Forall_impl; [| exact Hall1]. cbn. intros c Hc.
      unfold len in *. now rewrite length_map.
    + exact Hid2.
    + rewrite Hf2, Hf1, <- app_assoc. reflexivity.
    + now apply chunks_written_app.
Qed.

(** Three review files of 1000, 1000 and 500 rows, each followed by its
    photo file, appended to the files of [w]; every review id a photo file
    refers to is the id of a row of the review file before it. *)
Definition writes_three_chunks (calls : list (list nat)) (w : World) : Prop :=
  exists self' w' p1 q1 p2 q2 p3 q3 rows1 rows2 rows3 photos1 photos2 photos3,
    feed_and_flush 1000 calls w = (Ok self', w') /\
    files w' = files w ++
               [(p1, ReviewChunk rows1); (q1, PhotoChunk photos1);
                (p2, ReviewChunk rows2); (q2, PhotoChunk photos2);
                (p3, ReviewChunk rows3); (q3, PhotoChunk photos3)] /\
    List.length rows1 = 1000%nat /\
    List.length rows2 = 1000%nat /\
    List.length rows3 = 500%nat /\
    photos_ok rows1 photos1 /\ photos_ok rows2 photos2 /\ photos_ok rows3 photos3.

(** C7. With chunk size 1000, 2500 rows fed in any sequence of
    [add_rows_and_maybe_flush] calls and then [flush_remaining]: the writer
    returns having written exactly three review files, of 1000, 1000 and 500
    rows in that order, each followed by its photo file, and every review id
    a photo file refers to is the id of a row of the review file written just
    before it. *)
Theorem streamer_2500_rows_three_chunks :
  forall (calls : list (list nat)) (w : World),
    List.length (List.concat calls) = 2500%nat -> writes_three_chunks calls w.
Proof.
  intros calls w Htotal. unfold writes_three_chunks, feed_and_flush.
  destruct (feed_ok calls (new_streamer 1000) w ltac:(cbn; lia) ltac:(constructor))
    as (chunks & log & rest & w1 & E1 & Hlen & Hr & Hall & Hid & Hf & Hcw).
  rewrite (bind_ok _ _ _ _ _ E1).
  cbn [new_streamer chunk_size buffer next_review_id] in *.
  change (len (@nil nat)) with 0 in *.
  specialize (Hr ltac:(left; lia)).
  assert (Ht : len (List.concat calls) = 2500) by (unfold len; lia).
  pose proof (len_nonneg rest) as Hr0. pose proof (len_nonneg chunks) as Hc0.
  assert (Hn : len chunks = 2 /\ len rest = 500) by lia.
  destruct Hn as [Hn2 Hn500].
  destruct (flush_remaining_ok (mkReviewStreamer 1000 rest (1 + len (List.concat calls))) w1 Hid)
    as (log2 & w2 & E2 & Hh2 & Hc2 & Hf2 & Hcw2).
  cbn [chunk_size buffer next_review_id] in *.
  destruct rest as [| a rest]; [discriminate Hn500 |]. cbn [is_empty] in Hcw2.
  destruct chunks as [| c1 [| c2 [| c3 chunks]]]; try discriminate Hn2.
  2: { unfold len in Hn2. cbn [List.length] in Hn2. lia. }
  inversion Hcw as [| r1 cs1 p1 q1 ph1 l1 Hp1 Hcw' ]; subst.
  inversion Hcw' as [| r2 cs2 p2 q2 ph2 l2 Hp2 Hcw'' ]; subst.
  inversion Hcw''; subst.
  inversion Hcw2 as [| r3 cs3 p3 q3 ph3 l3 Hp3 Hcw3 ]; subst.
  inversion Hcw3; subst.
  inversion Hall as [| ? ? Hl1 Hall']; subst.
  inversion Hall' as [| ? ? Hl2 _]; subst.
  exists (mkReviewStreamer 1000 [] (1 + len (List.concat calls))), w2,
    p1, q1, p2, q2, p3, q3, c1, c2, (map (cells (heap w1)) (a :: rest)), ph1, ph2, ph3.
  split; [exact E2 |]. split.
  - rewrite Hf2, Hf, <- app_assoc. reflexivity.
  - unfold len in *. rewrite length_map. repeat split; try assumption; lia.
Qed.

(* ------------------------------------------------------------------------- *)
(** ** Review ids *)

(** What a caller may do with the writer. *)
Inductive writer_op : Type :=
| AddRows (rows : list nat)
| FlushRemaining.

Definition apply_op (self : ReviewStreamer) (op : writer_op)
    : M World ReviewStreamer :=
  match op with
  | AddRows rows => add_rows_and_maybe_flush self rows
  | FlushRemaining => flush_remaining self
  end.

Definition apply_ops (ops : list writer_op) (self : ReviewStreamer)
    : M World ReviewStreamer :=
  for_each ops (fun op self => apply_op self op) self.

Definition rows_fed (op : writer_op) : list nat :=
  match op with
  | AddRows rows => rows
  | FlushRemaining => []
  end.

(** The row objects in the order they reach the writer. *)
Definition arrivals (ops : list writer_op) : list nat := flat_map rows_fed ops.

(** The review ids in the review files of a log, in writing order. *)
Definition review_ids_written (log : list (string * content)) : list (option Z) :=
  flat_map (fun f => match snd f with
                     | ReviewChunk rows => map review_id rows
                     | PhotoChunk _ => []
                     end) log.

(** [first, first + 1, ...], [n] ids. *)
Definition ids_from (first : Z) (n : nat) : list (option Z) :=
  map (fun i => Some (first + Z.of_nat i)) (seq 0 n).

(** The [i]-th row of [arr] (from 0) carries the id [base + i]. *)
Definition numbered (h : Heap) (base : Z) (arr : list nat) : Prop :=
  forall i a, nth_error arr i = Some a ->
    review_id (cells h a) = Some (base + Z.of_nat i).

Lemma map_seq_shift {B : Type} (f : nat -> B) (n : nat) : forall m k,
  map f (seq (k + n) m) = map (fun i => f (i + n)%nat) (seq k m).
Proof.
  induction m as [| m IH]; intros k; [reflexivity |].
  cbn [seq map]. f_equal. apply (IH (S k)).
Qed.

Lemma ids_from_app first n m :
  ids_from first (n + m) = ids_from first n ++ ids_from (first + Z.of_nat n) m.
Proof.
  unfold ids_from. rewrite seq_app, map_app. f_equal.
  rewrite map_seq_shift. apply map_ext. intros i. f_equal. lia.
Qed.

Lemma numbered_ids h : forall arr base,
  numbered h base arr ->
  map (fun a => review_id (cells h a)) arr = ids_from base (List.length arr).
Proof.
  induction arr as [| a arr IH]; intros base H; [reflexivity |].
  change (List.length (a :: arr)) with (1 + List.length arr)%nat.
  rewrite ids_from_app. cbn [map app ids_from seq]. f_equal.
  - rewrite (H 0%nat a eq_refl). reflexivity.
  - apply IH. intros i b Hi. rewrite (H (S i) b Hi). f_equal. lia.
Qed.

Lemma numbered_skipn h base arr f :
  numbered h base arr -> numbered h (base + Z.of_nat f) (skipn f arr).
Proof.
  intros H i a Hi. rewrite nth_error_skipn in Hi.
  rewrite (H _ _ Hi). f_equal. lia.
Qed.

Lemma numbered_app_l h base l1 l2 :
  numbered h base (l1 ++ l2) -> numbered h base l1.
Proof.
  intros H i a Hi. apply H. rewrite nth_error_app1; [exact Hi |].
  apply nth_error_Some. congruence.
Qed.

Lemma chunks_written_ids chunks log :
  chunks_written chunks log ->
  review_ids_written log = map review_id (List.concat chunks).
Proof.
  induction 1 as [| rows chunks path ppath photos log _ _ IH]; [reflexivity |].
  cbn [review_ids_written flat_map snd List.concat app] in *.
  rewrite map_app. f_equal. exact IH.
Qed.

Lemma concat_rows_of h chunks :
  List.concat (rows_of h chunks) = map (cells h) (List.concat chunks).
Proof.
  unfold rows_of. induction chunks as [| c chunks IH]; [reflexivity |].
  cbn [map List.concat]. rewrite map_app. now f_equal.
Qed.

(** The state of writer and heap after the rows [arr] have arrived, the first
    [f] of which have left the buffer. *)
Definition tracks (self : ReviewStreamer) (w : World) (arr : list nat) (f : nat)
    : Prop :=
  next_review_id self = 1 + len arr /\
  (f <= List.length arr)%nat /\
  buffer self = skipn f arr /\
  numbered (heap w) 1 arr.

Lemma tracks_has_id self w arr f :
  tracks self w arr f -> Forall (has_id w) (buffer self).
Proof.
  intros (_ & _ & Hb & Hn). rewrite Hb. apply Forall_forall. intros a Ha.
  apply (In_nth_error (skipn f arr)) in Ha. destruct Ha as [i Hi].
  rewrite nth_error_skipn in Hi. unfold has_id. now rewrite (Hn _ _ Hi).
Qed.

Lemma apply_op_ids self w arr f op :
  1 <= chunk_size self ->
  tracks self w arr f ->
  NoDup (arr ++ rows_fed op) ->
  exists self' w' f' log,
    apply_op self op w = (Ok self', w') /\
    chunk_size self' = chunk_size self /\
    tracks self' w' (arr ++ rows_fed op) f' /\
    (f <= f')%nat /\
    files w' = files w ++ log /\
    review_ids_written log = ids_from (1 + Z.of_nat f) (f' - f) /\
    (forall a, In a arr -> cells (heap w') a = cells (heap w) a) /\
    brk (heap w') = brk (heap w).
Proof.
  intros Hcs Ht Hnd. pose proof (tracks_has_id _ _ _ _ Ht) as Hid.
  destruct Ht as (Hnext & Hf & Hbuf & Hnum).
  destruct op as [rows |]; cbn [apply_op rows_fed] in *.
  - destruct (add_rows_and_maybe_flush_ok self rows w Hcs Hid)
      as (chunks & log & rest & w' & E & Hsplit & Hall & Hr & Hb & Hcells & Hc & Hfl & Hcw).
    set (m := List.length (List.concat chunks)).
    assert (Hsk : skipn f (arr ++ rows) = List.concat chunks ++ rest).
    { rewrite skipn_app. replace (f - List.length arr)%nat with 0%nat by lia.
      cbn [skipn]. now rewrite <- Hbuf. }
    assert (Hnum' : numbered (heap w') 1 (arr ++ rows)).
    { intros i a Hi. rewrite Hcells.
      destruct (Nat.lt_ge_cases i (List.length arr)) as [Hlt | Hge].
      - rewrite nth_error_app1 in Hi by assumption.
        rewrite assigned_other; [now apply Hnum |].
        apply NoDup_app_disjoint with (l1 := arr); [exact Hnd |].
        eapply nth_error_In; eassumption.
      - rewrite nth_error_app2 in Hi by assumption.
        rewrite (assigned_nth rows _ _ _ a (NoDup_app_remove_l _ _ Hnd) Hi).
        cbn [set_review_id review_id]. f_equal. rewrite Hnext. unfold len. lia. }
    assert (Hm : (f + m <= List.length (arr ++ rows))%nat).
    { apply (f_equal (@List.length nat)) in Hsk.
      rewrite length_skipn, !length_app in Hsk. fold m in Hsk.
      rewrite length_app. lia. }
    exists (mkReviewStreamer (chunk_size self) rest (next_review_id self + len rows)),
      w', (f + m)%nat, log.
    split; [exact E |]. split; [reflexivity |].
    split; [| split; [lia | split; [exact Hfl | split; [| split; [| exact Hb]]]]].
    + split; [| split; [exact Hm | split; [| exact Hnum']]].
      * cbn [next_review_id]. rewrite Hnext, len_app. lia.
      * cbn [buffer]. rewrite Nat.add_comm, <- skipn_skipn, Hsk.
        unfold m. rewrite skipn_app, skipn_all, Nat.sub_diag. reflexivity.
    + rewrite (chunks_written_ids _ _ Hcw), concat_rows_of, map_map.
      replace (f + m - f)%nat with m by lia.
      apply numbered_ids.
      apply numbered_app_l with (l2 := rest). rewrite <- Hsk.
      apply numbered_skipn. exact Hnum'.
    + intros a Ha. rewrite Hcells. apply assigned_other.
      apply NoDup_app_disjoint with (l1 := arr); assumption.
  - destruct (flush_remaining_ok self w Hid)
      as (log & w' & E & Hh & Hc & Hfl & Hcw).
    rewrite app_nil_r in *.
    exists (mkReviewStreamer (chunk_size self) [] (next_review_id self)),
      w', (List.length arr), log.
    split; [exact E |]. split; [reflexivity |].
    split; [| split; [lia | split; [exact Hfl | split; [| split; [| now rewrite Hh]]]]].
    + split; [exact Hnext |]. split; [lia |]. split.
      * cbn [buffer]. now rewrite skipn_all.
      * now rewrite Hh.
    + rewrite (chunks_written_ids _ _ Hcw), concat_rows_of, map_map.
      assert (Hcat : List.concat (if is_empty (buffer self) then [] else [buffer self])
                     = skipn f arr).
      { rewrite <- Hbuf. destruct (buffer self); cbn; [reflexivity |].
        now rewrite app_nil_r. }
      rewrite Hcat. rewrite <- (length_skipn f arr).
      apply numbered_ids, numbered_skipn. exact Hnum.
    + intros a _. now rewrite Hh.
Qed.

Lemma apply_ops_ids ops : forall self w arr f,
  1 <= chunk_size self ->
  tracks self w arr f ->
  NoDup (arr ++ arrivals ops) ->
  exists self' w' f' log,
    apply_ops ops self w = (Ok self', w') /\
    chunk_size self' = chunk_size self /\
    tracks self' w' (arr ++ arrivals ops) f' /\
    (f <= f')%nat /\
    files w' = files w ++ log /\
    review_ids_written log = ids_from (1 + Z.of_nat f) (f' - f) /\
    (forall a, In a arr -> cells (heap w') a = cells (heap w) a) /\
    brk (heap w') = brk (heap w).
Proof.
  unfold apply_ops.
  induction ops as [| op ops IH]; intros self w arr f Hcs Ht Hnd.
  - exists self, w, f, []. cbn [for_each arrivals flat_map].
    rewrite !app_nil_r, Nat.sub_diag. repeat split; try assumption; try lia;
      apply Ht.
  - cbn [arrivals flat_map] in Hnd. fold (arrivals ops) in Hnd.
    rewrite app_assoc in Hnd.
    destruct (apply_op_ids self w arr f op Hcs Ht (NoDup_app_remove_r _ _ Hnd))
      as (s1 & w1 & f1 & log1 & E1 & Hcs1 & Ht1 & Hf1 & Hfl1 & Hids1 & Hst1 & Hb1).
    destruct (IH s1 w1 (arr ++ rows_fed op) f1 ltac:(lia) Ht1 Hnd)
      as (s2 & w2 & f2 & log2 & E2 & Hcs2 & Ht2 & Hf2 & Hfl2 & Hids2 & Hst2 & Hb2).
    exists s2, w2, f2, (log1 ++ log2).
    cbn [for_each arrivals flat_map]. fold (arrivals ops).
    rewrite (bind_ok _ _ _ _ _ E1), app_assoc.
    split; [exact E2 |]. split; [congruence |]. split; [exact Ht2 |].
    split; [lia |]. split; [| split; [| split]].
    + rewrite Hfl2, Hfl1, <- app_assoc. reflexivity.
    + unfold review_ids_written in *. rewrite flat_map_app, Hids1, Hids2.
      replace (f2 - f)%nat with ((f1 - f) + (f2 - f1))%nat by lia.
      rewrite ids_from_app. do 2 f_equal. lia.
    + intros a Ha. rewrite Hst2 by (apply in_or_app; now left). now apply Hst1.
    + congruence.
Qed.

Lemma apply_ops_app ops1 ops2 self w s1 w1 :
  apply_ops ops1 self w = (Ok s1, w1) ->
  apply_ops (ops1 ++ ops2) self w = apply_ops ops2 s1 w1.
Proof.
  unfold apply_ops. revert self w.
  induction ops1 as [| op ops1 IH]; intros self w E.
  - cbn in E. injection E as -> ->. reflexivity.
  - cbn [app for_each] in *. unfold bind in *.
    destruct (apply_op self op w) as [[s' | e |] w'] eqn:Eop; try discriminate.
    now apply IH.
Qed.

(** The operations [ops1] and then [ops2] on a new writer all return; after
    [ops1], and still after [ops2], the row that arrived [i]-th (from 0)
    carries review id [1 + i]; [ops2] leaves every row that arrived during
    [ops1] as it was; the next id is one more than the number of arrivals; and
    the review ids in the files written, in writing order, are 1, 2, ..., [n]
    for some [n]. *)
Definition ids_dense_and_stable (size : Z) (ops1 ops2 : list writer_op)
    (w : World) : Prop :=
  exists s1 w1 s2 w2 log n,
    apply_ops ops1 (new_streamer size) w = (Ok s1, w1) /\
    apply_ops ops2 s1 w1 = (Ok s2, w2) /\
    apply_ops (ops1 ++ ops2) (new_streamer size) w = (Ok s2, w2) /\
    numbered (heap w1) 1 (arrivals ops1) /\
    numbered (heap w2) 1 (arrivals (ops1 ++ ops2)) /\
    (forall a, In a (arrivals ops1) -> cells (heap w2) a = cells (heap w1) a) /\
    next_review_id s2 = 1 + len (arrivals (ops1 ++ ops2)) /\
    files w2 = files w ++ log /\
    review_ids_written log = ids_from 1 n.

(** C8. Take any sequence of writer operations on a new writer (chunk size at
    least 1), each row object handed over once, as in [run], where every row
    is a new dict.  Review ids are given in arrival order, growing by one from
    1 without gaps, and an id once given is not changed by any later
    operation. *)
Theorem review_ids_dense_increasing_stable :
  forall (size : Z) (ops1 ops2 : list writer_op) (w : World),
    1 <= size ->
    NoDup (arrivals (ops1 ++ ops2)) ->
    ids_dense_and_stable size ops1 ops2 w.
Proof.
  intros size ops1 ops2 w Hsize Hnd. unfold ids_dense_and_stable.
  assert (Harr : arrivals (ops1 ++ ops2) = arrivals ops1 ++ arrivals ops2)
    by apply flat_map_app.
  rewrite Harr in *.
  assert (Ht0 : tracks (new_streamer size) w [] 0).
  { repeat split; cbn; try lia. intros [| i] a Hi; discriminate. }
  destruct (apply_ops_ids ops1 (new_streamer size) w [] 0%nat Hsize Ht0
              (NoDup_app_remove_r _ _ Hnd))
    as (s1 & w1 & f1 & log1 & E1 & Hcs1 & Ht1 & Hf1 & Hfl1 & Hids1 & _).
  cbn [app] in Ht1.
  destruct (apply_ops_ids ops2 s1 w1 (arrivals ops1) f1
              ltac:(rewrite Hcs1; exact Hsize) Ht1 Hnd)
    as (s2 & w2 & f2 & log2 & E2 & Hcs2 & Ht2 & Hf2 & Hfl2 & Hids2 & Hst & _).
  exists s1, w1, s2, w2, (log1 ++ log2), f2.
  split; [exact E1 |]. split; [exact E2 |].
  split; [rewrite (apply_ops_app _ _ _ _ _ _ E1); exact E2 |].
  split; [apply Ht1 |]. split; [apply Ht2 |]. split; [exact Hst |].
  split; [apply Ht2 |]. split.
  - rewrite Hfl2, Hfl1, <- app_assoc. reflexivity.
  - unfold review_ids_written in *. rewrite flat_map_app, Hids1, Hids2.
    cbn [Z.of_nat Z.add] in *. rewrite Nat.sub_0_r.
    replace f2 with (f1 + (f2 - f1))%nat at 2 by lia.
    rewrite ids_from_app. do 2 f_equal. 
Qed.

(* ------------------------------------------------------------------------- *)
(** ** Loops with fuel *)

Section While.
Context {S St : Type}.
Variables (cond : St -> bool) (body : St -> M S St).
Variable I : St -> S -> Prop.

(** The body returns and keeps the invariant. *)
Hypothesis body_ok : forall st s,
  I st s -> cond st = true ->
  exists st' s', body st s = (Ok st', s') /\ I st' s'.

Lemma while_false fuel st s :
  cond st = false -> while fuel cond body st s = (Ok st, s).
Proof. intros H. destruct fuel; cbn [while]; now rewrite H. Qed.

Lemma while_step fuel st s st1 s1 :
  cond st = true -> body st s = (Ok st1, s1) ->
  while (Datatypes.S fuel) cond body st s = while fuel cond body st1 s1.
Proof. intros H E. cbn [while]. rewrite H. now apply bind_ok. Qed.

Lemma while_result : forall fuel st s st' s',
  I st s -> while fuel cond body st s = (Ok st', s') ->
  I st' s' /\ cond st' = false.
Proof.
  induction fuel as [| fuel IH]; intros st s st' s' Hi E;
    destruct (cond st) eqn:Ec.
  - cbn [while] in E. rewrite Ec in E. discriminate.
  - rewrite while_false in E by assumption. injection E as <- <-. auto.
  - destruct (body_ok st s Hi Ec) as (st1 & s1 & Eb & Hi1).
    rewrite (while_step _ _ _ _ _ Ec Eb) in E. eapply IH; eassumption.
  - rewrite while_false in E by assumption. injection E as <- <-. auto.
Qed.

Lemma while_more_fuel : forall fuel st s st' s',
  while fuel cond body st s = (Ok st', s') ->
  forall extra, while (fuel + extra) cond body st s = (Ok st', s').
Proof.
  induction fuel as [| fuel IH]; intros st s st' s' E extra;
    destruct (cond st) eqn:Ec.
  - cbn [while] in E. rewrite Ec in E. discriminate.
  - rewrite while_false in * by assumption. exact E.
  - cbn [while Nat.add] in *. rewrite Ec in *. unfold bind in *.
    destruct (body st s) as [[st1 | e |] s1]; try discriminate.
    now apply IH.
  - rewrite while_false in * by assumption. exact E.
Qed.

(** With a measure that every turn lowers, fuel up to the measure is enough. *)
Lemma while_bounded (mu : St -> nat) :
  (forall st s st' s',
     I st s -> cond st = true -> body st s = (Ok st', s') -> (mu st' < mu st)%nat) ->
  forall fuel st s,
    I st s -> (mu st <= fuel)%nat ->
    exists st' s',
      while fuel cond body st s = (Ok st', s') /\ I st' s' /\ cond st' = false.
Proof.
  intros Hmu. induction fuel as [| fuel IH]; intros st s Hi Hle;
    destruct (cond st) eqn:Ec.
  - destruct (body_ok st s Hi Ec) as (st1 & s1 & Eb & Hi1).
    pose proof (Hmu _ _ _ _ Hi Ec Eb). lia.
  - exists st, s. rewrite while_false by assumption. auto.
  - destruct (body_ok st s Hi Ec) as (st1 & s1 & Eb & Hi1).
    pose proof (Hmu _ _ _ _ Hi Ec Eb).
    rewrite (while_step _ _ _ _ _ Ec Eb). apply IH; [assumption | lia].
  - exists st, s. rewrite while_false by assumption. auto.
Qed.

(** A loop whose condition the invariant forces never ends. *)
Lemma while_diverges :
  (forall st s, I st s -> cond st = true) ->
  forall fuel st s, I st s -> fst (while fuel cond body st s) = OutOfFuel.
Proof.
  intros Hc. induction fuel as [| fuel IH]; intros st s Hi.
  - cbn [while]. now rewrite (Hc st s Hi).
  - destruct (body_ok st s Hi (Hc st s Hi)) as (st1 & s1 & Eb & Hi1).
    rewrite (while_step _ _ _ _ _ (Hc st s Hi) Eb). now apply IH.
Qed.

End While.

(* ------------------------------------------------------------------------- *)
(** ** Sorting *)

Lemma insert_sorted_perm x xs : Permutation (x :: xs) (insert_sorted x xs).
Proof.
  induction xs as [| y xs IH]; cbn [insert_sorted]; [reflexivity |].
  destruct (x <=? y); [reflexivity |].
  rewrite perm_swap. now constructor.
Qed.

Lemma sorted_perm xs : Permutation xs (sorted xs).
Proof.
  unfold sorted. induction xs as [| x xs IH]; cbn [fold_right]; [reflexivity |].
  rewrite <- insert_sorted_perm. now constructor.
Qed.

Lemma insert_sorted_le x xs :
  StronglySorted Z.le xs -> StronglySorted Z.le (insert_sorted x xs).
Proof.
  induction 1 as [| y xs Hs IH Hall]; cbn [insert_sorted].
  - repeat constructor.
  - destruct (x <=? y) eqn:E.
    + apply Z.leb_le in E. constructor; [now constructor |].
      constructor; [exact E |].
      eapply Forall_impl; [| exact Hall]. cbn; intros; lia.
    + apply Z.leb_gt in E. constructor; [exact IH |].
      apply (Permutation_Forall (insert_sorted_perm x xs)).
      constructor; [lia | exact Hall].
Qed.

Lemma sorted_le xs : StronglySorted Z.le (sorted xs).
Proof.
  unfold sorted. induction xs as [| x xs IH]; cbn [fold_right]; [constructor |].
  now apply insert_sorted_le.
Qed.

Lemma sorted_lt xs : NoDup xs -> StronglySorted Z.lt (sorted xs).
Proof.
  intros Hnd.
  assert (Hnd' : NoDup (sorted xs))
    by (eapply Permutation_NoDup; [apply sorted_perm | exact Hnd]).
  pose proof (sorted_le xs) as Hs.
  induction Hs as [| y ys Hs IH Hall]; [constructor |].
  inversion Hnd' as [| ? ? Hnotin Hnd'']; subst.
  constructor; [now apply IH |].
  rewrite Forall_forall in *. intros z Hz.
  specialize (Hall z Hz). assert (z <> y) by (intros ->; contradiction). lia.
Qed.

Lemma sorted_length xs : List.length (sorted xs) = List.length xs.
Proof. symmetry. apply Permutation_length, sorted_perm. Qed.

(* ------------------------------------------------------------------------- *)
(** ** The calendar of the date range *)

(** The date [k] days after [DATE_START], and how it is printed. *)
Definition day_date (k : Z) : date := add_days DATE_START k.
Definition day_str (k : Z) : string := strftime_ymd (day_date k).

(** Python's [<] on strings. *)
Definition str_lt (a b : string) : Prop := String.ltb a b = true.

(** Calendar order. *)
Definition date_lt (a b : date) : Prop := toordinal a < toordinal b.

Lemma range_In a b x : In x (range a b) <-> a <= x < b.
Proof.
  unfold range. rewrite in_map_iff. split.
  - intros (k & <- & Hk). apply in_seq in Hk. lia.
  - intros H. exists (Z.to_nat (x - a)). split; [lia |]. apply in_seq. lia.
Qed.

Lemma range_NoDup a b : NoDup (range a b).
Proof.
  unfold range. apply Injective_map_NoDup; [| apply seq_NoDup].
  intros x y H. lia.
Qed.

Lemma range_length a b : List.length (range a b) = Z.to_nat (b - a).
Proof. unfold range. now rewrite length_map, length_seq. Qed.

Lemma total_days_eq : total_days = 943.
Proof. reflexivity. Qed.

Lemma day_ordinal k :
  0 <= k < total_days -> toordinal (day_date k) = toordinal DATE_START + k.
Proof.
  assert (H : forallb (fun k => toordinal (day_date k) =? toordinal DATE_START + k)
                (range 0 total_days) = true) by (vm_compute; reflexivity).
  intros Hk. rewrite forallb_forall in H. apply Z.eqb_eq, H, range_In. lia.
Qed.

Lemma str_lt_trans a b c : str_lt a b -> str_lt b c -> str_lt a c.
Proof.
  unfold str_lt, String.ltb. intros H1 H2.
  destruct (String.compare a b) eqn:E1; try discriminate.
  destruct (String.compare b c) eqn:E2; try discriminate.
  apply String_as_OT.cmp_lt in E1, E2.
  pose proof (String_as_OT.lt_trans _ _ _ E1 E2) as H.
  apply String_as_OT.cmp_lt in H. unfold String_as_OT.cmp in H. now rewrite H.
Qed.

Lemma str_lt_irrefl a : ~ str_lt a a.
Proof.
  unfold str_lt, String.ltb. intros H.
  assert (E : String.compare a a = Eq) by now apply String_as_OT.cmp_eq.
  rewrite E in H. discriminate.
Qed.

Lemma day_str_next k :
  0 <= k < total_days - 1 -> str_lt (day_str k) (day_str (k + 1)).
Proof.
  assert (H : forallb (fun k => String.ltb (day_str k) (day_str (k + 1)))
                (range 0 (total_days - 1)) = true) by (vm_compute; reflexivity).
  intros Hk. rewrite forallb_forall in H. apply H, range_In. lia.
Qed.

Lemma day_str_lt i j : 0 <= i -> i < j -> j < total_days -> str_lt (day_str i) (day_str j).
Proof.
  intros Hi Hij Hj.
  replace j with (i + 1 + Z.of_nat (Z.to_nat (j - i - 1))) in * by lia.
  induction (Z.to_nat (j - i - 1)) as [| m IH].
  - rewrite Z.add_0_r. apply day_str_next. lia.
  - apply str_lt_trans with (day_str (i + 1 + Z.of_nat m)); [apply IH; lia |].
    replace (i + 1 + Z.of_nat (S m)) with (i + 1 + Z.of_nat m + 1) by lia.
    apply day_str_next. lia.
Qed.

Lemma StronglySorted_map {A B : Type} (R : A -> A -> Prop) (R' : B -> B -> Prop)
    (P : A -> Prop) (f : A -> B) (xs : list A) :
  (forall x y, P x -> P y -> R x y -> R' (f x) (f y)) ->
  Forall P xs -> StronglySorted R xs -> StronglySorted R' (map f xs).
Proof.
  intros Hf Hp Hs. induction Hs as [| x xs Hs IH Hall]; [constructor |].
  inversion Hp as [| ? ? Hx Hxs]; subst. cbn [map].
  constructor; [now apply IH |].
  apply Forall_map. rewrite Forall_forall in *. intros y Hy.
  apply Hf; auto.
Qed.

Lemma StronglySorted_NoDup {A : Type} (R : A -> A -> Prop) (xs : list A) :
  (forall x, ~ R x x) -> StronglySorted R xs -> NoDup xs.
Proof.
  intros Hirr. induction 1 as [| x xs Hs IH Hall]; constructor; [| exact IH].
  intros Hin. rewrite Forall_forall in Hall. exact (Hirr x (Hall x Hin)).
Qed.

(* ------------------------------------------------------------------------- *)
(** ** The visit date generator *)

Definition in_range (used_days : set Z) : Prop :=
  Forall (fun u => 0 <= u < total_days) used_days.

(** No two chosen days are the same or adjacent. *)
Definition spaced (used_days : set Z) : Prop :=
  forall u v, In u used_days -> In v used_days -> u <> v -> 2 <= Z.abs (u - v).

(** The candidate day the next draw yields. *)
Definition next_day (g : Rng) : Z := draws g (pos g) mod total_days.

Lemma randint_day g :
  randint 0 (total_days - 1) g = (Ok (next_day g), advance g).
Proof.
  rewrite randint_eq by (rewrite total_days_eq; lia).
  unfold next_day. rewrite Z.add_0_l.
  replace (total_days - 1 - 0 + 1) with total_days by lia. reflexivity.
Qed.

Lemma next_day_range g : 0 <= next_day g < total_days.
Proof. apply Z.mod_pos_bound. rewrite total_days_eq. lia. Qed.

Lemma mem_In d used : mem d used = true <-> In d used.
Proof.
  unfold mem. split.
  - apply set_mem_correct1.
  - apply set_mem_correct2.
Qed.

Lemma mem_false d used : mem d used = false -> ~ In d used.
Proof.
  intros H Hin. apply mem_In in Hin. congruence.
Qed.

Lemma add_new d used : ~ In d used -> add d used = used ++ [d].
Proof.
  unfold add. induction used as [| u used IH]; intros H; [reflexivity |].
  cbn [set_add]. destruct (Z.eq_dec d u) as [-> | Hne].
  - exfalso. apply H. now left.
  - cbn [app]. f_equal. apply IH. intros Hin. apply H. now right.
Qed.

Lemma too_close_false used d :
  too_close used d = false -> forall u, In u used -> 2 <= Z.abs (u - d).
Proof.
  unfold too_close. induction used as [| v used IH]; intros H u Hu; [contradiction |].
  cbn [existsb] in H. apply orb_false_iff in H. destruct H as [H1 H2].
  destruct Hu as [-> | Hu]; [apply Z.ltb_ge in H1; exact H1 | now apply IH].
Qed.

Lemma spaced_add used d :
  spaced used -> (forall u, In u used -> 2 <= Z.abs (u - d)) -> spaced (used ++ [d]).
Proof.
  intros Hs Hd u v Hu Hv Hne.
  apply in_app_or in Hu. apply in_app_or in Hv.
  destruct Hu as [Hu | [<- | []]], Hv as [Hv | [<- | []]].
  - now apply Hs.
  - now apply Hd.
  - specialize (Hd v Hv). lia.
  - contradiction.
Qed.

Lemma in_range_bound used :
  NoDup used -> in_range used -> len used <= total_days.
Proof.
  intros Hnd Hr.
  assert (Hincl : incl used (range 0 total_days)).
  { intros u Hu. apply range_In. unfold in_range in Hr.
    rewrite Forall_forall in Hr. now apply Hr. }
  pose proof (NoDup_incl_length Hnd Hincl) as H.
  rewrite range_length in H. unfold len. rewrite total_days_eq in *. lia.
Qed.

Lemma unused_day used :
  NoDup used -> len used < total_days ->
  exists d, 0 <= d < total_days /\ ~ In d used.
Proof.
  intros Hnd Hlt.
  destruct (Forall_Exists_dec (fun d => In d used)
              (fun d => in_dec Z.eq_dec d used) (range 0 total_days)) as [Hall | Hex].
  - exfalso. rewrite Forall_forall in Hall.
    pose proof (NoDup_incl_length (range_NoDup 0 total_days) Hall) as H.
    rewrite range_length in H. unfold len in Hlt. rewrite total_days_eq in *. lia.
  - apply Exists_exists in Hex. destruct Hex as (d & Hd & Hn).
    exists d. split; [now apply range_In | exact Hn].
Qed.

(** What every phase keeps: the draws still to come are those of [g0]; the
    attempt count is not negative; the chosen days are distinct, lie in the
    range and are at most [n]. *)
Definition chosen (g0 : Rng) (n : Z) (st : gen_state) (g : Rng) : Prop :=
  draws g = draws g0 /\ 0 <= snd st /\ NoDup (fst st) /\ in_range (fst st) /\
  len (fst st) <= Z.max 0 n.

Definition chosen_spaced (g0 : Rng) (n : Z) (st : gen_state) (g : Rng) : Prop :=
  chosen g0 n st g /\ spaced (fst st).

Lemma chosen_keep g0 n used attempts attempts' g :
  chosen g0 n (used, attempts) g -> 0 <= attempts' ->
  chosen g0 n (used, attempts') (advance g).
Proof.
  intros (Hd & Ha & Hnd & Hr & Hl) Ha'. repeat split; assumption.
Qed.

Lemma chosen_add g0 n used attempts attempts' g :
  chosen g0 n (used, attempts) g -> 0 <= attempts' -> len used < n ->
  ~ In (next_day g) used ->
  chosen g0 n (used ++ [next_day g], attempts') (advance g).
Proof.
  intros (Hd & Ha & Hnd & Hr & Hl) Ha' Hlt Hnew. cbn [fst snd] in *.
  repeat split; cbn [fst snd]; try assumption.
  - rewrite <- (add_new _ _ Hnew). now apply set_add_nodup.
  - apply Forall_app. split; [exact Hr |].
    constructor; [apply next_day_range | constructor].
  - rewrite len_app. change (len [next_day g]) with 1. lia.
Qed.

Lemma phase1_ok g0 n st g :
  chosen_spaced g0 n st g ->
  exists st' g',
    phase1 n (n * 200) st g = (Ok st', g') /\ chosen_spaced g0 n st' g'.
Proof.
  intros Hi. unfold phase1.
  match goal with |- context [while ?f ?c ?b st g] =>
    assert (Hbody : forall st s, chosen_spaced g0 n st s -> c st = true ->
              exists st' s', b st s = (Ok st', s') /\ chosen_spaced g0 n st' s' /\
                             snd st' = snd st + 1 /\ snd st < n * 200);
    [| destruct (while_bounded c b (chosen_spaced g0 n)) with
         (mu := fun st : gen_state => Z.to_nat (n * 200 - snd st))
         (fuel := f) (st := st) (s := g) as (st' & g' & E & Hi' & _) ]
  end.
  - clear st g Hi. intros [used attempts] s [Hc Hs] Hcond. cbv beta iota in *.
    apply andb_true_iff in Hcond. destruct Hcond as [Hlen Hatt].
    apply Z.ltb_lt in Hlen, Hatt. pose proof Hc as (_ & Ha & _). cbn [snd] in Ha.
    rewrite (bind_ok _ _ _ _ _ (randint_day s)).
    destruct (too_close used (next_day s)) eqn:E.
    + do 2 eexists. split; [reflexivity |]. cbn [fst snd] in *.
      split; [| split; [reflexivity | lia]].
      split; [| exact Hs].
      apply (chosen_keep g0 n used attempts); [exact Hc | lia].
    + pose proof (too_close_false _ _ E) as Hfar.
      assert (Hnew : ~ In (next_day s) used).
      { intros Hin. specialize (Hfar _ Hin). rewrite Z.sub_diag in Hfar.
        cbn in Hfar. lia. }
      rewrite (add_new _ _ Hnew).
      do 2 eexists. split; [reflexivity |]. cbn [fst snd] in *.
      split; [| split; [reflexivity | lia]].
      split; [| now apply spaced_add].
      apply (chosen_add g0 n used attempts); try assumption; lia.
  - intros st0 s0 H0 Hc0. destruct (Hbody st0 s0 H0 Hc0) as (st1 & s1 & E1 & H1 & _).
    eauto.
  - intros st0 s0 st1 s1 H0 Hc0 E0.
    destruct (Hbody st0 s0 H0 Hc0) as (st2 & s2 & E2 & _ & Hs & Hlt).
    rewrite E0 in E2. injection E2 as <- <-. unfold set in *. lia.
  - exact Hi.
  - destruct Hi as [(_ & Ha & _) _]. unfold set in *. lia.
  - exists st', g'. auto.
Qed.

Lemma phase2_ok g0 n st g :
  chosen_spaced g0 n st g ->
  exists st' g',
    phase2 n (n * 200) st g = (Ok st', g') /\ chosen_spaced g0 n st' g'.
Proof.
  intros Hi. unfold phase2.
  match goal with |- context [while ?f ?c ?b st g] =>
    assert (Hbody : forall st s, chosen_spaced g0 n st s -> c st = true ->
              exists st' s', b st s = (Ok st', s') /\ chosen_spaced g0 n st' s' /\
                             snd st' = snd st + 1 /\ snd st < n * 200 * 2);
    [| destruct (while_bounded c b (chosen_spaced g0 n)) with
         (mu := fun st : gen_state => Z.to_nat (n * 200 * 2 - snd st))
         (fuel := f) (st := st) (s := g) as (st' & g' & E & Hi' & _) ]
  end.
  - clear st g Hi. intros [used attempts] s [Hc Hs] Hcond. cbv beta iota in *.
    apply andb_true_iff in Hcond. destruct Hcond as [Hlen Hatt].
    apply Z.ltb_lt in Hlen, Hatt. pose proof Hc as (_ & Ha & _). cbn [snd] in Ha.
    rewrite (bind_ok _ _ _ _ _ (randint_day s)).
    destruct (mem (next_day s) used) eqn:E0; cbn [negb andb].
    2: destruct (mem (next_day s - 1) used) eqn:E1; cbn [negb andb].
    3: destruct (mem (next_day s + 1) used) eqn:E2; cbn [negb andb].
    1-3: do 2 eexists; (split; [reflexivity |]); cbn [fst snd] in *;
      (split; [| split; [reflexivity | lia]]); (split; [| exact Hs]);
      apply (chosen_keep g0 n used attempts); [exact Hc | lia].
    apply mem_false in E0, E1, E2.
    rewrite (add_new _ _ E0).
    do 2 eexists. split; [reflexivity |]. cbn [fst snd] in *.
    split; [| split; [reflexivity | lia]]. split.
    + apply (chosen_add g0 n used attempts); try assumption; lia.
    + apply spaced_add; [exact Hs |]. intros u Hu.
      assert (u <> next_day s) by (intros ->; contradiction).
      assert (u <> next_day s - 1) by (intros ->; contradiction).
      assert (u <> next_day s + 1) by (intros ->; contradiction).
      lia.
  - intros st0 s0 H0 Hc0. destruct (Hbody st0 s0 H0 Hc0) as (st1 & s1 & E1 & H1 & _).
    eauto.
  - intros st0 s0 st1 s1 H0 Hc0 E0.
    destruct (Hbody st0 s0 H0 Hc0) as (st2 & s2 & E2 & _ & Hs & Hlt).
    rewrite E0 in E2. injection E2 as <- <-. unfold set in *. lia.
  - exact Hi.
  - destruct Hi as [(_ & Ha & _) _]. unfold set in *. lia.
  - exists st', g'. auto.
Qed.

Lemma spaced_phases_ok n g :
  exists used attempts g',
    spaced_phases n g = (Ok (used, attempts), g') /\
    chosen_spaced g n (used, attempts) g'.
Proof.
  unfold spaced_phases.
  assert (H0 : chosen_spaced g n ([], 0) g).
  { repeat split; cbn [fst snd]; try lia; try constructor.
    - change (len (@nil Z)) with 0. lia.
    - intros u v []. }
  destruct (phase1_ok g n _ g H0) as (st1 & g1 & E1 & H1).
  destruct (phase2_ok g n st1 g1 H1) as ([used attempts] & g2 & E2 & H2).
  exists used, attempts, g2. cbv zeta. rewrite (bind_ok _ _ _ _ _ E1). auto.
Qed.

Lemma spaced_phases_nothing n g :
  n <= 0 -> spaced_phases n g = (Ok ([], 0), g).
Proof.
  intros Hn. unfold spaced_phases, phase1, phase2. cbv zeta.
  assert (Hc : (len (@nil Z) <? n) = false)
    by (apply Z.ltb_ge; change (len (@nil Z)) with 0; lia).
  erewrite bind_ok by (apply while_false; cbv beta iota; now rewrite Hc).
  apply while_false. cbv beta iota. now rewrite Hc.
Qed.

(** Phase 3, turn by turn. *)

Lemma phase3_done fuel n used attempts g :
  n <= len used -> phase3 fuel n (used, attempts) g = (Ok (used, attempts), g).
Proof.
  intros H. unfold phase3. apply while_false. cbv beta iota. now apply Z.ltb_ge.
Qed.

Lemma phase3_step_used fuel n used attempts g :
  len used < n -> In (next_day g) used ->
  phase3 (S fuel) n (used, attempts) g = phase3 fuel n (used, attempts) (advance g).
Proof.
  intros Hlt Hin. unfold phase3. apply while_step.
  - cbv beta iota. now apply Z.ltb_lt.
  - cbv beta iota. rewrite (bind_ok _ _ _ _ _ (randint_day g)).
    apply mem_In in Hin. now rewrite Hin.
Qed.

Lemma phase3_step_new fuel n used attempts g :
  len used < n -> ~ In (next_day g) used ->
  phase3 (S fuel) n (used, attempts) g
  = phase3 fuel n (used ++ [next_day g], attempts) (advance g).
Proof.
  intros Hlt Hnew. unfold phase3. apply while_step.
  - cbv beta iota. now apply Z.ltb_lt.
  - cbv beta iota. rewrite (bind_ok _ _ _ _ _ (randint_day g)).
    destruct (mem (next_day g) used) eqn:E.
    + apply mem_In in E. contradiction.
    + cbn [negb]. now rewrite add_new.
Qed.

Lemma phase3_out_of_fuel n used attempts g :
  len used < n -> phase3 0 n (used, attempts) g = (OutOfFuel, g).
Proof.
  intros Hlt. unfold phase3. cbn [while]. cbv beta iota.
  apply Z.ltb_lt in Hlt. now rewrite Hlt.
Qed.

Lemma phase3_result g0 n : forall fuel used attempts g st' g',
  chosen g0 n (used, attempts) g ->
  phase3 fuel n (used, attempts) g = (Ok st', g') ->
  chosen g0 n st' g' /\ n <= len (fst st').
Proof.
  induction fuel as [| fuel IH]; intros used attempts g st' g' Hc E;
    destruct (Z.lt_ge_cases (len used) n) as [Hlt | Hge].
  - rewrite phase3_out_of_fuel in E by assumption. discriminate.
  - rewrite phase3_done in E by assumption. injection E as <- <-. auto.
  - pose proof Hc as (_ & Ha & _). cbn [snd] in Ha.
    destruct (in_dec Z.eq_dec (next_day g) used) as [Hin | Hnew].
    + rewrite phase3_step_used in E by assumption.
      eapply IH; [| exact E]. now apply (chosen_keep g0 n used attempts).
    + rewrite phase3_step_new in E by assumption.
      eapply IH; [| exact E]. now apply (chosen_add g0 n used attempts).
  - rewrite phase3_done in E by assumption. injection E as <- <-. auto.
Qed.

(** More visit dates than days: phase 3 never has enough. *)
Lemma phase3_diverges g0 n : total_days < n ->
  forall fuel used attempts g,
    chosen g0 n (used, attempts) g ->
    fst (phase3 fuel n (used, attempts) g) = OutOfFuel.
Proof.
  intros Hn. induction fuel as [| fuel IH]; intros used attempts g Hc.
  all: pose proof Hc as (_ & Ha & Hnd & Hr & _); cbn [fst snd] in *.
  all: pose proof (in_range_bound used Hnd Hr) as Hb.
  - rewrite phase3_out_of_fuel by lia. reflexivity.
  - destruct (in_dec Z.eq_dec (next_day g) used) as [Hin | Hnew].
    + rewrite phase3_step_used by (assumption || lia).
      apply IH. now apply (chosen_keep g0 n used attempts).
    + rewrite phase3_step_new by (assumption || lia).
      apply IH. apply (chosen_add g0 n used attempts); (assumption || lia).
Qed.

(** Every day of the range keeps coming up among the draws. *)
Definition fair (g : Rng) : Prop :=
  forall p d, 0 <= d < total_days ->
    exists q, (p <= q)%nat /\ draws g q mod total_days = d.

Lemma phase3_fill_one g0 n : forall m used attempts g,
  chosen g0 n (used, attempts) g -> len used < n ->
  ~ In (draws g (pos g + m) mod total_days) used ->
  exists j used' g',
    chosen g0 n (used', attempts) g' /\ len used' = len used + 1 /\
    forall fuel,
      phase3 (j + fuel) n (used, attempts) g = phase3 fuel n (used', attempts) g'.
Proof.
  induction m as [| m IH]; intros used attempts g Hc Hlt Hnew.
  all: pose proof Hc as (_ & Ha & _); cbn [snd] in Ha.
  - rewrite Nat.add_0_r in Hnew. fold (next_day g) in Hnew.
    exists 1%nat, (used ++ [next_day g]), (advance g). split; [| split].
    + now apply (chosen_add g0 n used attempts).
    + rewrite len_app. reflexivity.
    + intros fuel. now apply phase3_step_new.
  - destruct (in_dec Z.eq_dec (next_day g) used) as [Hin | Hnew0].
    + destruct (IH used attempts (advance g)) as (j & used' & g' & Hc' & Hl & Hf).
      * now apply (chosen_keep g0 n used attempts).
      * exact Hlt.
      * cbn [advance draws pos]. now rewrite Nat.add_succ_comm.
      * exists (S j), used', g'. split; [exact Hc' |]. split; [exact Hl |].
        intros fuel. cbn [Nat.add]. rewrite phase3_step_used by assumption.
        apply Hf.
    + exists 1%nat, (used ++ [next_day g]), (advance g). split; [| split].
      * now apply (chosen_add g0 n used attempts).
      * rewrite len_app. reflexivity.
      * intros fuel. now apply phase3_step_new.
Qed.

Lemma phase3_terminates g0 n :
  fair g0 -> n <= total_days ->
  forall k used attempts g,
    chosen g0 n (used, attempts) g -> n - len used <= Z.of_nat k ->
    exists j st' g',
      (forall fuel, phase3 (j + fuel) n (used, attempts) g = (Ok st', g')) /\
      chosen g0 n st' g' /\ n <= len (fst st').
Proof.
  intros Hfair Hn. induction k as [| k IH]; intros used attempts g Hc Hk.
  - exists 0%nat, (used, attempts), g. split; [| split; [exact Hc | cbn; lia]].
    intros fuel. apply phase3_done. lia.
  - destruct (Z.lt_ge_cases (len used) n) as [Hlt | Hge].
    + pose proof Hc as (Hd & _ & Hnd & _). cbn [fst] in Hnd.
      destruct (unused_day used Hnd ltac:(lia)) as (d & Hdr & Hnew).
      destruct (Hfair (pos g) d Hdr) as (q & Hq & Eq).
      destruct (phase3_fill_one g0 n (q - pos g) used attempts g Hc Hlt)
        as (j1 & used' & g1 & Hc1 & Hl1 & Hf1).
      { rewrite Hd. replace (pos g + (q - pos g))%nat with q by lia.
        now rewrite Eq. }
      destruct (IH used' attempts g1 Hc1 ltac:(lia)) as (j2 & st' & g' & Hf2 & Hc2 & Hl2).
      exists (j1 + j2)%nat, st', g'. split; [| auto].
      intros fuel. rewrite <- Nat.add_assoc, Hf1. apply Hf2.
    + exists 0%nat, (used, attempts), g. split; [| split; [exact Hc | cbn; lia]].
      intros fuel. now apply phase3_done.
Qed.

(** The distance in days between two calendar dates. *)
Definition days_apart (a b : date) : Z := Z.abs (toordinal a - toordinal b).

Definition pairwise_apart (ds : list date) : Prop :=
  forall a b, In a ds -> In b ds -> a <> b -> 2 <= days_apart a b.

(** What a list of [n] visit dates is to be: [n] strings, ascending as
    strings, without repetition, the printed forms of calendar dates in
    ascending order. *)
Definition visit_dates (n : Z) (dates : list string) : Prop :=
  len dates = n /\ StronglySorted str_lt dates /\ NoDup dates /\
  exists ds, dates = map strftime_ymd ds /\ StronglySorted date_lt ds.

Lemma sorted_in_range used : in_range used -> in_range (sorted used).
Proof. apply Permutation_Forall, sorted_perm. Qed.

Lemma dates_of_str used :
  map strftime_ymd (dates_of used) = map day_str (sorted used).
Proof. unfold dates_of. now rewrite map_map. Qed.

Lemma visit_dates_of n used :
  NoDup used -> in_range used -> len used = n ->
  visit_dates n (map strftime_ymd (dates_of used)).
Proof.
  intros Hnd Hr Hlen.
  pose proof (sorted_lt used Hnd) as Hs.
  pose proof (sorted_in_range used Hr) as Hr'.
  assert (Hstr : StronglySorted str_lt (map day_str (sorted used))).
  { apply (StronglySorted_map Z.lt str_lt (fun u => 0 <= u < total_days));
      [| exact Hr' | exact Hs].
    intros x y Hx Hy Hxy. apply day_str_lt; lia. }
  rewrite dates_of_str. split; [| split; [exact Hstr | split]].
  - unfold len in *. now rewrite length_map, sorted_length.
  - eapply StronglySorted_NoDup; [apply str_lt_irrefl | exact Hstr].
  - exists (dates_of used). split; [symmetry; apply dates_of_str |].
    unfold dates_of.
    apply (StronglySorted_map Z.lt date_lt (fun u => 0 <= u < total_days));
      [| exact Hr' | exact Hs].
    intros x y Hx Hy Hxy. unfold date_lt.
    fold (day_date x) (day_date y). rewrite !day_ordinal by assumption. lia.
Qed.

Lemma pairwise_apart_dates_of used :
  in_range used -> spaced used -> pairwise_apart (dates_of used).
Proof.
  intros Hr Hs a b Ha Hb Hne. unfold dates_of in *.
  apply in_map_iff in Ha, Hb.
  destruct Ha as (u & <- & Hu), Hb as (v & <- & Hv).
  apply (Permutation_in _ (Permutation_sym (sorted_perm used))) in Hu, Hv.
  unfold in_range in Hr. rewrite Forall_forall in Hr.
  unfold days_apart. fold (day_date u) (day_date v).
  rewrite !day_ordinal by auto.
  assert (u <> v) by (intros ->; now apply Hne).
  specialize (Hs u v Hu Hv ltac:(assumption)). lia.
Qed.

Lemma gen_user_dates_zero fuel g : gen_user_dates fuel 0 g = (Ok [], g).
Proof. reflexivity. Qed.

Lemma gen_user_dates_pos fuel n g :
  0 < n ->
  gen_user_dates fuel n g
  = bind (spaced_phases n)
      (fun st => bind (phase3 fuel n st)
         (fun '(used_days, _) =>
            ret (slice_to (map strftime_ymd (dates_of used_days)) n))) g.
Proof.
  intros Hn. unfold gen_user_dates.
  destruct (n <=? 0) eqn:E; [apply Z.leb_le in E; lia | reflexivity].
Qed.

Lemma chosen_len g0 n st g :
  0 <= n -> chosen g0 n st g -> n <= len (fst st) -> len (fst st) = n.
Proof. intros Hn (_ & _ & _ & _ & Hl) Hge. lia. Qed.

(** Whenever the generator returns, it returns [n] visit dates. *)
Lemma gen_user_dates_result fuel n g dates g' :
  0 <= n -> gen_user_dates fuel n g = (Ok dates, g') -> visit_dates n dates.
Proof.
  intros Hn E. destruct (Z.eq_dec n 0) as [-> | Hne].
  - rewrite gen_user_dates_zero in E. injection E as <- <-.
    repeat split; try constructor. exists []. split; constructor.
  - rewrite gen_user_dates_pos in E by lia.
    destruct (spaced_phases_ok n g) as (used & attempts & g1 & E1 & [Hc _]).
    rewrite (bind_ok _ _ _ _ _ E1) in E. unfold bind in E.
    destruct (phase3 fuel n (used, attempts) g1) as [[[used' attempts'] | e |] g2] eqn:E3;
      try discriminate.
    destruct (phase3_result g n _ _ _ _ _ _ Hc E3) as [Hc' Hge].
    pose proof (chosen_len _ _ _ _ Hn Hc' Hge) as Hlen. cbn [fst] in Hlen.
    unfold ret in E. injection E as <- <-.
    rewrite slice_to_all
      by (unfold len in *; rewrite length_map; unfold dates_of;
          rewrite length_map, sorted_length; lia).
    destruct Hc' as (_ & _ & Hnd & Hr & _). now apply visit_dates_of.
Qed.

(** With a fair random source and no more dates asked for than the range has
    days, some amount of fuel is enough, and so is any larger amount. *)
Lemma gen_user_dates_terminates n g :
  0 <= n <= total_days -> fair g ->
  exists fuel0 dates g',
    forall fuel, (fuel0 <= fuel)%nat -> gen_user_dates fuel n g = (Ok dates, g').
Proof.
  intros Hn Hfair. destruct (Z.eq_dec n 0) as [-> | Hne].
  - exists 0%nat, [], g. intros fuel _. apply gen_user_dates_zero.
  - destruct (spaced_phases_ok n g) as (used & attempts & g1 & E1 & [Hc _]).
    destruct (phase3_terminates g n Hfair ltac:(lia) (Z.to_nat n) used attempts g1 Hc)
      as (j & [used' attempts'] & g2 & Hf & Hc' & Hge).
    { pose proof (len_nonneg used). lia. }
    exists j. do 2 eexists. intros fuel Hfuel.
    rewrite gen_user_dates_pos by lia.
    rewrite (bind_ok _ _ _ _ _ E1).
    replace fuel with (j + (fuel - j))%nat by lia.
    rewrite (bind_ok _ _ _ _ _ (Hf _)). reflexivity.
Qed.

(** Asked for more dates than the range has days, it never returns. *)
Lemma gen_user_dates_diverges fuel n g :
  total_days < n -> fst (gen_user_dates fuel n g) = OutOfFuel.
Proof.
  intros Hn. rewrite gen_user_dates_pos by (rewrite total_days_eq in Hn; lia).
  destruct (spaced_phases_ok n g) as (used & attempts & g1 & E1 & [Hc _]).
  rewrite (bind_ok _ _ _ _ _ E1). unfold bind.
  pose proof (phase3_diverges g n Hn fuel used attempts g1 Hc) as H.
  destruct (phase3 fuel n (used, attempts) g1) as [[st | e |] g2];
    cbn [fst] in H; try discriminate. reflexivity.
Qed.

(** The random source that starts at the beginning of the draws [f]. *)
Definition rng_of (f : nat -> Z) : Rng := mkRng f 0.

(** A source that counts, and so keeps delivering every day. *)
Definition counting_rng : Rng := rng_of Z.of_nat.

(** A source stuck on one value. *)
Definition stuck_rng : Rng := rng_of (fun _ => 0).

(** A source that delivers day 0 for the 800 attempts the spacing phases
    have for two dates, then day 1. *)
Definition adjacent_rng : Rng := rng_of (fun i => if (i <? 800)%nat then 0 else 1).

Lemma counting_rng_fair : fair counting_rng.
Proof.
  intros p d Hd. exists (p * 943 + Z.to_nat d)%nat. split; [lia |].
  cbn [counting_rng rng_of draws]. rewrite total_days_eq in *.
  rewrite Nat2Z.inj_add, Nat2Z.inj_mul, Z2Nat.id by lia.
  change (Z.of_nat 943) with 943.
  rewrite Z.add_comm, Z_mod_plus_full. apply Z.mod_small. lia.
Qed.


Lemma stuck_phase3 : forall fuel p,
  fst (phase3 fuel 2 ([0], 800) (mkRng (fun _ => 0) p)) = OutOfFuel.
Proof.
  induction fuel as [| fuel IH]; intros p.
  - reflexivity.
  - rewrite phase3_step_used.
    + apply IH.
    + reflexivity.
    + left. reflexivity.
Qed.

Lemma stuck_spaced_phases :
  spaced_phases 2 stuck_rng = (Ok ([0], 800), mkRng (fun _ => 0) 800).
Proof. vm_compute. reflexivity. Qed.

(** C2, as the specification words it, fails: 944 dates cannot be had from a
    range of 943 days, so for that count no amount of fuel makes the
    generator return, whatever the random source (here one that counts); and
    with a source stuck on one value, it does not return even for two
    dates. *)
Lemma gen_user_dates_may_never_return :
  (~ exists fuel dates g',
       gen_user_dates fuel 944 counting_rng = (Ok dates, g')) /\
  (~ exists fuel dates g',
       gen_user_dates fuel 2 stuck_rng = (Ok dates, g')).
Proof.
  split.
  - intros (fuel & dates & g' & E).
    pose proof (gen_user_dates_diverges fuel 944 counting_rng
                  ltac:(rewrite total_days_eq; lia)) as H.
    rewrite E in H. discriminate.
  - intros (fuel & dates & g' & E).
    rewrite gen_user_dates_pos in E by lia.
    rewrite (bind_ok _ _ _ _ _ stuck_spaced_phases) in E. unfold bind in E.
    pose proof (stuck_phase3 fuel 800) as H.
    destruct (phase3 fuel 2 ([0], 800) (mkRng (fun _ => 0) 800)) as [[st | e |] g2];
      cbn [fst] in H; first [discriminate H | discriminate E].
Qed.

(** C2, amended. For every count [n] from 0 up to the number of days in the
    range: whenever the generator returns, it returns exactly [n] dates, in
    ascending order and without duplicates; and it does return, given enough
    fuel, when the random source keeps delivering every day of the range. *)
Theorem gen_user_dates_exact_sorted_distinct :
  forall n, 0 <= n <= total_days ->
    (forall fuel g dates g',
       gen_user_dates fuel n g = (Ok dates, g') -> visit_dates n dates) /\
    (forall g, fair g ->
       exists fuel0 dates g',
         (forall fuel, (fuel0 <= fuel)%nat ->
            gen_user_dates fuel n g = (Ok dates, g')) /\
         visit_dates n dates).
Proof.
  intros n Hn. split.
  - intros fuel g dates g' E. eapply gen_user_dates_result; [lia | exact E].
  - intros g Hfair.
    destruct (gen_user_dates_terminates n g Hn Hfair) as (fuel0 & dates & g' & H).
    exists fuel0, dates, g'. split; [exact H |].
    eapply gen_user_dates_result; [lia | apply (H fuel0); lia].
Qed.

Lemma gen_user_dates_exact_sorted_distinct_witness :
  0 <= 3 <= total_days /\
  exists fuel0 dates g',
    (forall fuel, (fuel0 <= fuel)%nat ->
       gen_user_dates fuel 3 counting_rng = (Ok dates, g')) /\
    visit_dates 3 dates.
Proof.
  assert (H : 0 <= 3 <= total_days) by (rewrite total_days_eq; lia).
  split; [exact H |].
  exact (proj2 (gen_user_dates_exact_sorted_distinct 3 H) counting_rng counting_rng_fair).
Defined.

(** C3, as the specification words it, fails: for two dates (far below half
    of the 943 days), with a source that delivers day 0 throughout the
    spacing phases and day 1 afterwards, the generator returns the first two
    days of the range, one day apart. *)
Lemma gen_user_dates_adjacent_dates :
  2 * 2 <= total_days /\
  fst (gen_user_dates 1 2 adjacent_rng)
  = Ok (map strftime_ymd [mkDate 2023 1 1; mkDate 2023 1 2]) /\
  days_apart (mkDate 2023 1 1) (mkDate 2023 1 2) = 1.
Proof. vm_compute. repeat split. discriminate. Qed.

(** C3, amended. For every count and every state of the random source, the
    days chosen by the two spacing phases give dates that are pairwise at
    least 2 days apart; and when those phases fill all [n] places, these are
    the dates returned, whatever the fuel.  (When they do not, phase 3 adds
    days without looking at their neighbours.) *)
Theorem spaced_phases_keep_two_days_apart :
  forall n g,
    exists used_days attempts g',
      spaced_phases n g = (Ok (used_days, attempts), g') /\
      pairwise_apart (dates_of used_days) /\
      (len used_days = n ->
       forall fuel,
         gen_user_dates fuel n g
         = (Ok (map strftime_ymd (dates_of used_days)), g')).
Proof.
  intros n g. destruct (Z.le_gt_cases n 0) as [Hn | Hn].
  - exists [], 0, g. split; [now apply spaced_phases_nothing |]. split.
    + intros a b [].
    + change (len (@nil Z)) with 0. intros <- fuel. apply gen_user_dates_zero.
  - destruct (spaced_phases_ok n g) as (used & attempts & g1 & E1 & [Hc Hs]).
    exists used, attempts, g1. split; [exact E1 |].
    destruct Hc as (_ & _ & Hnd & Hr & _). cbn [fst] in *. split.
    + now apply pairwise_apart_dates_of.
    + intros Hlen fuel. rewrite gen_user_dates_pos by lia.
      rewrite (bind_ok _ _ _ _ _ E1).
      rewrite (bind_ok _ _ _ _ _ (phase3_done fuel n used attempts g1 ltac:(lia))).
      unfold ret. rewrite slice_to_all; [reflexivity |].
      unfold len in *. rewrite length_map. unfold dates_of.
      rewrite length_map, sorted_length. lia.
Qed.

(* ------------------------------------------------------------------------- *)
(** ** Sampling without replacement *)

Section Sample.
Context {A : Type}.
Implicit Types pool : list A.









End Sample.



(* ------------------------------------------------------------------------- *)
(** ** Visit plans *)














(* ------------------------------------------------------------------------- *)
(** ** Two runs that differ in the clock only *)

(** A row, a photo, a file with the wall-clock fields blanked. *)
Definition erase_row (r : Row) : Row :=
  mkRow (row_user_id r) (row_restaurant_id r) (rating r) (review_text r)
    (row_visited_at r) (is_deleted r) EmptyString EmptyString (review_id r).

Definition erase_photo (p : Photo) : Photo :=
  mkPhoto (photo_id p) (photo_review_id p) (image_url p) (photo_is_deleted p)
    EmptyString EmptyString.

Definition erase_content (c : content) : content :=
  match c with
  | ReviewChunk rows => ReviewChunk (map erase_row rows)
  | PhotoChunk photos => PhotoChunk (map erase_photo photos)
  end.

Definition erase_file (f : string * content) : string * content :=
  (fst f, erase_content (snd f)).

(** The world when [run] starts: no row object yet, nothing written. *)
Definition blank_row : Row :=
  mkRow 0 0 0 [] EmptyString false EmptyString EmptyString None.

Definition initial_world (g : Rng) (c : Clock) : World :=
  mkWorld g c (mkHeap (fun _ => blank_row) 0) [].

(** Two worlds that differ at most in clock readings and in the wall-clock
    fields of rows and files. *)
Definition sim (w1 w2 : World) : Prop :=
  rng w1 = rng w2 /\
  brk (heap w1) = brk (heap w2) /\
  (forall a, erase_row (cells (heap w1) a) = erase_row (cells (heap w2) a)) /\
  map erase_file (files w1) = map erase_file (files w2).

Inductive res_sim {A : Type} (RA : A -> A -> Prop) : result A -> result A -> Prop :=
| rs_ok a1 a2 : RA a1 a2 -> res_sim RA (Ok a1) (Ok a2)
| rs_raise e : res_sim RA (Raise e) (Raise e)
| rs_out : res_sim RA OutOfFuel OutOfFuel.

(** From similar worlds, two computations end alike in similar worlds. *)
Definition agree {A : Type} (RA : A -> A -> Prop) (m1 m2 : M World A) : Prop :=
  forall w1 w2, sim w1 w2 ->
    res_sim RA (fst (m1 w1)) (fst (m2 w2)) /\ sim (snd (m1 w1)) (snd (m2 w2)).

Section Agree.
Context {A B : Type}.

Lemma agree_ret (RA : A -> A -> Prop) a1 a2 :
  RA a1 a2 -> agree RA (ret a1) (ret a2).
Proof. intros H w1 w2 Hs. split; [now constructor | exact Hs]. Qed.

Lemma agree_raise (RA : A -> A -> Prop) e : agree RA (raise e) (raise e).
Proof. intros w1 w2 Hs. split; [constructor | exact Hs]. Qed.

Lemma agree_bind (RA : A -> A -> Prop) (RB : B -> B -> Prop)
    (m1 m2 : M World A) (f1 f2 : A -> M World B) :
  agree RA m1 m2 ->
  (forall a1 a2, RA a1 a2 -> agree RB (f1 a1) (f2 a2)) ->
  agree RB (bind m1 f1) (bind m2 f2).
Proof.
  intros Hm Hf w1 w2 Hs. unfold bind.
  destruct (Hm w1 w2 Hs) as [Hr Hs'].
  destruct (m1 w1) as [r1 w1'], (m2 w2) as [r2 w2']. cbn [fst snd] in *.
  inversion Hr as [a1 a2 Ha | e | ]; subst.
  - now apply Hf.
  - split; [constructor | exact Hs'].
  - split; [constructor | exact Hs'].
Qed.

Lemma agree_lift_rng (m : M Rng A) : agree eq (lift_rng m) (lift_rng m).
Proof.
  intros w1 w2 (Hg & Hb & Hc & Hf). unfold lift_rng. rewrite Hg.
  destruct (m (rng w2)) as [r g]. cbn [fst snd]. split.
  - destruct r; constructor. reflexivity.
  - repeat split; assumption.
Qed.

End Agree.

Lemma agree_for_each {A X : Type} (RS : A -> A -> Prop) (xs : list X)
    (body1 body2 : X -> A -> M World A) :
  (forall x st1 st2, In x xs -> RS st1 st2 -> agree RS (body1 x st1) (body2 x st2)) ->
  forall st1 st2, RS st1 st2 ->
    agree RS (for_each xs body1 st1) (for_each xs body2 st2).
Proof.
  induction xs as [| x xs IH]; intros Hb st1 st2 Hst; cbn [for_each].
  - now apply agree_ret.
  - apply (agree_bind RS RS).
    + apply Hb; [now left | exact Hst].
    + intros a1 a2 Ha. apply IH; [| exact Ha].
      intros y s1 s2 Hy. apply Hb. now right.
Qed.

Lemma agree_while {A : Type} (RS : A -> A -> Prop) (cond : A -> bool)
    (body1 body2 : A -> M World A) :
  (forall st1 st2, RS st1 st2 -> cond st1 = cond st2) ->
  (forall st1 st2, RS st1 st2 -> agree RS (body1 st1) (body2 st2)) ->
  forall fuel st1 st2, RS st1 st2 ->
    agree RS (while fuel cond body1 st1) (while fuel cond body2 st2).
Proof.
  intros Hc Hb. induction fuel as [| fuel IH]; intros st1 st2 Hst; cbn [while];
    rewrite (Hc st1 st2 Hst); destruct (cond st2).
  - intros w1 w2 Hs. split; [constructor | exact Hs].
  - now apply agree_ret.
  - apply (agree_bind RS RS); [now apply Hb | exact IH].
  - now apply agree_ret.
Qed.

Lemma agree_map_m {X B : Type} (f : X -> M World B) (xs : list X) :
  (forall x, In x xs -> agree eq (f x) (f x)) ->
  agree eq (map_m f xs) (map_m f xs).
Proof.
  induction xs as [| x xs IH]; intros Hf; cbn [map_m].
  - now apply agree_ret.
  - apply (agree_bind eq eq); [apply Hf; now left |].
    intros y ? <-. apply (agree_bind eq eq).
    + apply IH. intros z Hz. apply Hf. now right.
    + intros ys ? <-. now apply agree_ret.
Qed.

Definition row_sim (r1 r2 : Row) : Prop := erase_row r1 = erase_row r2.

Lemma row_sim_id r1 r2 : row_sim r1 r2 -> review_id r1 = review_id r2.
Proof. intros H. apply (f_equal review_id) in H. exact H. Qed.

Lemma row_sim_set_review_id r1 r2 id :
  row_sim r1 r2 -> row_sim (set_review_id r1 id) (set_review_id r2 id).
Proof.
  destruct r1, r2. unfold row_sim, erase_row, set_review_id. cbn.
  intros H. injection H as -> -> -> -> -> -> _. reflexivity.
Qed.

Lemma agree_now : agree (fun _ _ => True) now now.
Proof.
  intros w1 w2 (Hg & Hb & Hc & Hf). unfold now. cbn [fst snd]. split.
  - now constructor.
  - repeat split; assumption.
Qed.

Lemma agree_load a : agree row_sim (load a) (load a).
Proof.
  intros w1 w2 Hs. unfold load. cbn [fst snd]. split; [| exact Hs].
  constructor. apply Hs.
Qed.

Lemma agree_store a r1 r2 : row_sim r1 r2 -> agree eq (store a r1) (store a r2).
Proof.
  intros Hr w1 w2 (Hg & Hb & Hc & Hf). unfold store. cbn [fst snd]. split.
  - now constructor.
  - repeat split; cbn [rng heap brk cells files]; try assumption.
    intros b. destruct (Nat.eqb b a); [exact Hr | apply Hc].
Qed.

Lemma agree_alloc r1 r2 : row_sim r1 r2 -> agree eq (alloc r1) (alloc r2).
Proof.
  intros Hr w1 w2 (Hg & Hb & Hc & Hf). unfold alloc. cbn [fst snd]. split.
  - constructor. exact Hb.
  - repeat split; cbn [rng heap brk cells files]; try assumption.
    + now rewrite Hb.
    + intros b. rewrite Hb. destruct (Nat.eqb b (brk (heap w2))); [exact Hr | apply Hc].
Qed.

Lemma agree_write_file path c1 c2 :
  erase_content c1 = erase_content c2 ->
  agree eq (write_file path c1) (write_file path c2).
Proof.
  intros Hc w1 w2 (Hg & Hb & Hcl & Hf). unfold write_file. cbn [fst snd]. split.
  - now constructor.
  - repeat split; cbn [rng heap brk cells files]; try assumption.
    rewrite !map_app, Hf. cbn [map]. unfold erase_file. cbn [fst snd].
    now rewrite Hc.
Qed.

Lemma agree_map_m_load chunk :
  agree (fun rs1 rs2 => map erase_row rs1 = map erase_row rs2)
    (map_m load chunk) (map_m load chunk).
Proof.
  induction chunk as [| a chunk IH]; cbn [map_m].
  - now apply agree_ret.
  - apply (agree_bind row_sim _); [apply agree_load |].
    intros r1 r2 Hr. apply (agree_bind _ _ _ _ _ _ IH).
    intros rs1 rs2 Hrs. apply agree_ret. cbn [map]. now rewrite Hr, Hrs.
Qed.

Definition photos_sim (l1 l2 : list Photo) : Prop :=
  map erase_photo l1 = map erase_photo l2.

Lemma agree_build_review_photos chunk :
  agree photos_sim (_build_review_photos chunk) (_build_review_photos chunk).
Proof.
  unfold _build_review_photos.
  apply (agree_for_each photos_sim); [| reflexivity].
  intros rv l1 l2 _ Hl.
  apply (agree_bind eq _); [apply agree_lift_rng |].
  intros n ? <-. apply (agree_for_each photos_sim); [| exact Hl].
  intros idx p1 p2 _ Hp.
  apply (agree_bind row_sim _); [apply agree_load |].
  intros r1 r2 Hr. cbv beta. rewrite (row_sim_id _ _ Hr).
  destruct (review_id r2) as [rid |]; [| apply agree_raise].
  apply agree_ret. unfold photos_sim in *. rewrite !map_app, Hp.
  cbn [map]. unfold erase_photo. reflexivity.
Qed.

Lemma agree_write_chunk chunk : agree eq (write_chunk chunk) (write_chunk chunk).
Proof.
  unfold write_chunk. destruct (rev chunk) as [| last_row _]; [apply agree_raise |].
  apply (agree_bind row_sim _); [apply agree_load |].
  intros r1 r2 Hr. cbv beta. rewrite (row_sim_id _ _ Hr).
  destruct (review_id r2) as [last_id |]; [| apply agree_raise].
  apply (agree_bind _ _ _ _ _ _ (agree_map_m_load chunk)).
  intros rs1 rs2 Hrs. apply (agree_bind eq _).
  - apply agree_write_file. cbn [erase_content]. now rewrite Hrs.
  - intros _ _ _. apply (agree_bind _ _ _ _ _ _ (agree_build_review_photos chunk)).
    intros p1 p2 Hp. apply agree_write_file. cbn [erase_content].
    unfold photos_sim in Hp. now rewrite Hp.
Qed.

Lemma agree_assign_ids rows : forall self,
  agree eq (assign_ids self rows) (assign_ids self rows).
Proof.
  intros self. unfold assign_ids. apply (agree_for_each eq); [| reflexivity].
  intros row s1 ? _ <-.
  apply (agree_bind row_sim _); [apply agree_load |].
  intros r1 r2 Hr. apply (agree_bind eq _).
  - now apply agree_store, row_sim_set_review_id.
  - intros _ _ _. now apply agree_ret.
Qed.

Lemma agree_add_rows self rows :
  agree eq (add_rows_and_maybe_flush self rows) (add_rows_and_maybe_flush self rows).
Proof.
  unfold add_rows_and_maybe_flush.
  apply (agree_bind eq _); [apply agree_assign_ids |].
  intros s1 ? <-. unfold flush_full_chunks.
  apply (agree_while eq); [now intros ? ? <- | | reflexivity].
  intros st ? <-. apply (agree_bind eq _); [apply agree_write_chunk |].
  intros _ _ _. now apply agree_ret.
Qed.

Lemma agree_flush_remaining self :
  agree eq (flush_remaining self) (flush_remaining self).
Proof.
  unfold flush_remaining. destruct (is_empty (buffer self)); [now apply agree_ret |].
  apply (agree_bind eq _); [apply agree_write_chunk |].
  intros _ _ _. now apply agree_ret.
Qed.

Lemma agree_run_prompt llm slots :
  agree eq (run_prompt llm slots) (run_prompt llm slots).
Proof.
  unfold run_prompt.
  apply (agree_bind eq _); [apply agree_lift_rng |].
  intros results ? <-.
  apply (agree_bind (fun _ _ => True) _); [apply agree_now |].
  intros nowts1 nowts2 _.
  apply (agree_for_each eq); [| reflexivity].
  intros s rows ? _ <-.
  apply (agree_bind eq _).
  - destruct (dict_get (slot_id s) _) as [rr |]; [now apply agree_ret |].
    apply (agree_bind eq _); [apply agree_lift_rng |].
    intros [text_fb rating_fb] ? <-. now apply agree_ret.
  - intros [rating_v rtxt] ? <-.
    apply (agree_bind eq _); [now apply agree_alloc |].
    intros row ? <-. now apply agree_ret.
Qed.

Lemma agree_generate_and_write cfg llm batches :
  agree eq (generate_and_write cfg llm batches) (generate_and_write cfg llm batches).
Proof.
  unfold generate_and_write. cbv zeta.
  apply (agree_bind eq _).
  - apply (agree_for_each eq); [| reflexivity].
    intros start s1 ? _ <-.
    apply (agree_bind eq _).
    + apply agree_map_m. intros slots _. apply agree_run_prompt.
    + intros results_lists ? <-.
      apply (agree_for_each eq); [| reflexivity].
      intros rows s2 ? _ <-. apply agree_add_rows.
  - intros s1 ? <-. apply (agree_bind eq _); [apply agree_flush_remaining |].
    intros _ _ _. now apply agree_ret.
Qed.

Lemma agree_run cfg llm fuel restaurants users :
  agree eq (run cfg llm fuel restaurants users) (run cfg llm fuel restaurants users).
Proof.
  unfold run.
  destruct (len users <? VIP_COUNT cfg + LOYAL_COUNT cfg + REGULAR_COUNT cfg);
    [apply agree_raise |].
  apply (agree_bind eq _); [apply agree_lift_rng |].
  intros batches ? <-. apply agree_generate_and_write.
Qed.

(** C1, amended. Two runs with the same settings, the same catalogs, the same
    state of the random source and no external service end alike and write
    the same files under the same names, equal in everything but the
    [created_at] and [updated_at] fields, which hold the wall-clock time read
    by [run_prompt]; the random source ends in the same state.  This holds
    whatever the two clocks read. *)
Theorem run_same_seed_same_chunks_up_to_timestamps :
  forall (cfg : Config) (client : list Item -> reply) (fuel : nat)
         (restaurants : list Restaurant) (users : list User)
         (g : Rng) (clock1 clock2 : Clock),
    let llm := mkReviewLLM false client in
    let out1 := run cfg llm fuel restaurants users (initial_world g clock1) in
    let out2 := run cfg llm fuel restaurants users (initial_world g clock2) in
    fst out1 = fst out2 /\
    map erase_file (files (snd out1)) = map erase_file (files (snd out2)) /\
    rng (snd out1) = rng (snd out2).
Proof.
  intros cfg client fuel restaurants users g clock1 clock2 llm out1 out2.
  assert (Hs : sim (initial_world g clock1) (initial_world g clock2))
    by (repeat split).
  destruct (agree_run cfg llm fuel restaurants users _ _ Hs) as [Hr (Hg & _ & _ & Hf)].
  fold out1 out2 in Hr, Hg, Hf. split; [| split; assumption].
  inversion Hr; subst; congruence.
Qed.

(* ------------------------------------------------------------------------- *)
(** ** Review ids in a run

    In [run] the rows reach the writer as the theorem on review ids asks:
    [run_prompt] makes a new dict for every slot, so no row object is handed
    over twice.  Hence, for a chunk size of at least 1, the files of a run
    hold the ids 1, 2, ..., one per slot. *)














(** Settings, catalogs and clocks small enough to run by hand. *)
Definition example_cfg : Config := mkConfig 1 1 1 (2, 2) (1, 1) (1, 2) 2 2 3.

Definition example_restaurants : list Restaurant :=
  [mkRestaurant 10 [65] None; mkRestaurant 11 [66] (Some [67]);
   mkRestaurant 12 [68] (Some [])].

Definition example_users : list User := map mkUser [1; 2; 3; 4].

Definition no_service : ReviewLLM := mkReviewLLM false (fun _ => CallFails).

Definition morning : Clock := mkClock (fun _ => "2024-01-01 09:00:00"%string) 0.
Definition next_morning : Clock := mkClock (fun _ => "2024-01-02 09:00:00"%string) 0.

Definition example_world : World := initial_world counting_rng morning.

Definition example_run (c : Clock) : result unit * World :=
  run example_cfg no_service 5 example_restaurants example_users
    (initial_world counting_rng c).

(** C1, as the specification words it, fails: the same settings, catalogs and
    random state, no external service, and two runs started a day apart
    write different files. *)
Lemma run_differs_with_the_clock :
  fst (example_run morning) = Ok tt /\
  fst (example_run next_morning) = Ok tt /\
  files (snd (example_run morning)) <> files (snd (example_run next_morning)).
Proof.
  split; [vm_compute; reflexivity |]. split; [vm_compute; reflexivity |].
  intros H. vm_compute in H. discriminate H.
Qed.

(* ------------------------------------------------------------------------- *)
(** ** The properties at concrete inputs *)

Definition example_slots : list Slot :=
  map (fun k => mkSlot (Z.of_nat k) 1 10 [65] [] "2023-01-01") (seq 1 13).

Lemma pack_discards_beyond_hard_max_witness :
  0 <= 3 < 5 /\ discards example_slots 5 3.
Proof.
  assert (H : 0 <= 3 < 5) by lia.
  split; [exact H | exact (pack_discards_beyond_hard_max example_slots 5 3 H)].
Defined.

Lemma example_users_NoDup : NoDup (map account_id example_users).
Proof.
  cbn. repeat (constructor; [cbn; intuition discriminate |]). constructor.
Qed.

Definition too_few_users : list User := map mkUser [1; 2].

Lemma too_few_users_NoDup : NoDup (map account_id too_few_users).
Proof.
  cbn. repeat (constructor; [cbn; intuition discriminate |]). constructor.
Qed.

Lemma cohorts_partition_or_abort_witness :
  (NoDup (map account_id example_users) /\
   0 <= VIP_COUNT example_cfg /\ 0 <= LOYAL_COUNT example_cfg /\
   0 <= REGULAR_COUNT example_cfg /\
   VIP_COUNT example_cfg + LOYAL_COUNT example_cfg + REGULAR_COUNT example_cfg
   <= len example_users) /\
  (exists vip loyal regular g',
     pick_cohorts example_cfg (map account_id example_users) counting_rng
     = (Ok (vip, loyal, regular), g') /\
     len vip = VIP_COUNT example_cfg /\
     len loyal = LOYAL_COUNT example_cfg /\
     len regular = REGULAR_COUNT example_cfg /\
     disjoint vip loyal /\ disjoint vip regular /\ disjoint loyal regular /\
     incl (vip ++ loyal ++ regular) (map account_id example_users)) /\
  (len too_few_users
   < VIP_COUNT example_cfg + LOYAL_COUNT example_cfg + REGULAR_COUNT example_cfg /\
   run example_cfg no_service 5 example_restaurants too_few_users example_world
   = (Raise (SystemExit "Not enough users for the requested cohort sizes."),
      example_world)).
Proof.
  assert (Hv : 0 <= VIP_COUNT example_cfg) by (cbn; lia).
  assert (Hl : 0 <= LOYAL_COUNT example_cfg) by (cbn; lia).
  assert (Hr : 0 <= REGULAR_COUNT example_cfg) by (cbn; lia).
  assert (Hs : VIP_COUNT example_cfg + LOYAL_COUNT example_cfg
               + REGULAR_COUNT example_cfg <= len example_users) by (cbn; lia).
  assert (Hf : len too_few_users
               < VIP_COUNT example_cfg + LOYAL_COUNT example_cfg
                 + REGULAR_COUNT example_cfg) by (cbn; lia).
  split; [repeat split; try assumption; apply example_users_NoDup |].
  split.
  - exact (proj1 (cohorts_partition_or_abort example_cfg no_service 5
                    example_restaurants example_users example_users_NoDup Hv Hl Hr)
             Hs counting_rng).
  - split; [exact Hf |].
    exact (proj2 (cohorts_partition_or_abort example_cfg no_service 5
                    example_restaurants too_few_users too_few_users_NoDup Hv Hl Hr)
             Hf example_world).
Defined.

Definition example_calls : list (list nat) :=
  [seq 0 700; seq 700 1300; seq 2000 500].

Lemma streamer_2500_rows_three_chunks_witness :
  List.length (List.concat example_calls) = 2500%nat /\
  writes_three_chunks example_calls example_world.
Proof.
  assert (H : List.length (List.concat example_calls) = 2500%nat)
    by (vm_compute; reflexivity).
  split; [exact H |].
  exact (streamer_2500_rows_three_chunks example_calls example_world H).
Defined.

Definition example_ops1 : list writer_op := [AddRows [0; 1; 2]%nat].
Definition example_ops2 : list writer_op := [AddRows [3]%nat; FlushRemaining].

Lemma example_arrivals_NoDup : NoDup (arrivals (example_ops1 ++ example_ops2)).
Proof.
  cbn. repeat (constructor; [cbn; intuition discriminate |]). constructor.
Qed.

Lemma review_ids_dense_increasing_stable_witness :
  (1 <= 2 /\ NoDup (arrivals (example_ops1 ++ example_ops2))) /\
  ids_dense_and_stable 2 example_ops1 example_ops2 example_world.
Proof.
  assert (H : 1 <= 2) by lia.
  split; [split; [exact H | apply example_arrivals_NoDup] |].
  exact (review_ids_dense_increasing_stable 2 example_ops1 example_ops2
           example_world H example_arrivals_NoDup).
Defined.

(* ------------------------------------------------------------------------- *)
(** ** More on slices and chunks *)

Lemma slice_to_len {A : Type} (xs : list A) (k : Z) :
  0 <= k -> len (slice_to xs k) = Z.min k (len xs).
Proof.
  intros Hk. rewrite slice_to_firstn by assumption.
  unfold len. rewrite length_firstn. lia.
Qed.





(* ------------------------------------------------------------------------- *)
(** ** The packer at any target *)

Lemma pack_step_floor {A : Type} (target hard_max : Z)
    (st : list (list A) * list A) (slot : A) :
  pack_step target hard_max st slot = pack_step (Z.max 1 target) hard_max st slot.
Proof.
  destruct st as [batches current]. unfold pack_step.
  assert (H : 1 <= len (current ++ [slot])).
  { rewrite len_app. pose proof (len_nonneg current).
    change (len [slot]) with 1. lia. }
  destruct (target <=? len (current ++ [slot])) eqn:E1;
    destruct (Z.max 1 target <=? len (current ++ [slot])) eqn:E2;
    try reflexivity;
    [apply Z.leb_le in E1; apply Z.leb_gt in E2
    | apply Z.leb_gt in E1; apply Z.leb_le in E2]; lia.
Qed.

Lemma pack_floor {A : Type} (slots : list A) (target hard_max : Z) :
  pack_slots_by_target slots target hard_max
  = pack_slots_by_target slots (Z.max 1 target) hard_max.
Proof.
  unfold pack_slots_by_target.
  assert (H : forall st,
            fold_left (pack_step target hard_max) slots st
            = fold_left (pack_step (Z.max 1 target) hard_max) slots st).
  { induction slots as [| s slots IH]; intros st; [reflexivity |].
    cbn [fold_left]. now rewrite pack_step_floor, IH. }
  now rewrite H.
Qed.

(** X2. Whenever the hard maximum is at least 1 and not below the target,
    [pack_slots_by_target] loses no slot: the batches concatenated are the
    input, no batch is empty, and every batch but the last holds exactly
    [max(1, target)] slots (a target of 0 or less closes a batch at every
    slot). *)
Theorem pack_keeps_every_slot :
  forall (A : Type) (slots : list A) (target hard_max : Z),
    1 <= hard_max -> target <= hard_max ->
    let batches := pack_slots_by_target slots target hard_max in
    List.concat batches = slots /\
    Forall (fun b => 1 <= len b <= Z.max 1 target) batches /\
    Forall (fun b => len b = Z.max 1 target) (removelast batches).
Proof.
  intros A slots target hard_max Hh Ht batches. subst batches.
  rewrite pack_floor. set (t := Z.max 1 target).
  destruct (pack_shape t hard_max slots ltac:(lia)) as (closed & rest & -> & Hs & Hall & Hr).
  assert (Hid : map (fun c => slice_to c hard_max) closed = closed).
  { clear Hs. induction Hall as [| c cs Hc _ IH]; [reflexivity |].
    cbn [map]. rewrite IH, slice_to_all by lia. reflexivity. }
  rewrite Hid. split; [| split].
  - rewrite concat_app, Hs. f_equal.
    destruct rest; cbn; [reflexivity | now rewrite app_nil_r].
  - apply Forall_app. split.
    + eapply Forall_impl; [| exact Hall]. cbn; intros; lia.
    + destruct rest as [| x rest]; cbn [is_empty]; constructor; [| constructor].
      pose proof (len_nonneg rest). unfold len in *. cbn [List.length] in *. lia.
  - destruct rest as [| x rest]; cbn [is_empty].
    + rewrite app_nil_r. now apply Forall_removelast.
    + rewrite removelast_last. exact Hall.
Qed.

Lemma pack_keeps_every_slot_witness :
  (1 <= 3 /\ 0 <= 3) /\
  List.concat (pack_slots_by_target [1; 2; 3; 4; 5] 0 3) = [1; 2; 3; 4; 5] /\
  Forall (fun b => 1 <= len b <= Z.max 1 0) (pack_slots_by_target [1; 2; 3; 4; 5] 0 3) /\
  Forall (fun b => len b = Z.max 1 0)
    (removelast (pack_slots_by_target [1; 2; 3; 4; 5] 0 3)).
Proof.
  assert (H1 : 1 <= 3) by lia. assert (H2 : 0 <= 3) by lia.
  split; [split; assumption |].
  exact (pack_keeps_every_slot Z [1; 2; 3; 4; 5] 0 3 H1 H2).
Defined.

(* ------------------------------------------------------------------------- *)
(** ** The local review generator *)

Lemma round1_between (lo hi : Z) (x : Q) :
  (inject_Z lo <= x * 10 <= inject_Z hi)%Q ->
  exists k, round1 x = k # 10 /\ lo <= k <= hi.
Proof.
  intros H. exists (round_half_even (x * 10)). split; [reflexivity |].
  now apply round_half_even_bounds.
Qed.

(** X3. The local review generator never fails and takes exactly three draws
    from the random source.  Its text holds at most 200 code points.  Its
    rating is a whole number of tenths in the band its first draw [r]
    selects: 4.0 to 5.0 when [r < 0.6], 3.0 to 4.0 when [0.6 <= r < 0.9],
    2.0 to 3.5 otherwise; so never below 2.0. *)
Theorem fallback_review_text_bands :
  forall (name desc : text) (g : Rng),
    let r := (draws g (pos g) mod 2 ^ 53) # (2 ^ 53) in
    exists txt k,
      fallback_review_text name desc g
      = (Ok (txt, k # 10), advance (advance (advance g))) /\
      len txt <= 200 /\
      20 <= k <= 50 /\
      ((r < float_0_6)%Q -> 40 <= k <= 50) /\
      ((float_0_6 <= r)%Q -> (r < float_0_9)%Q -> 30 <= k <= 40) /\
      ((float_0_9 <= r)%Q -> 20 <= k <= 35).
Proof.
  intros name desc g r. unfold fallback_review_text.
  rewrite (bind_ok _ _ _ _ _ (random_eq g)). fold r.
  pose proof (random_range (advance (advance g))) as Hr.
  set (u := (draws (advance (advance g)) (pos (advance (advance g))) mod 2 ^ 53)
            # (2 ^ 53)) in *.
  assert (H69 : (float_0_6 < float_0_9)%Q) by (unfold float_0_6, float_0_9, Qlt; cbn; lia).
  destruct (Qltb r float_0_6) eqn:E6; [| destruct (Qltb r float_0_9) eqn:E9].
  - apply Qltb_true in E6.
    destruct (round1_between 40 50 (4 + (5 - 4) * u)%Q) as (k & Ek & Hk).
    { change (inject_Z 40) with 40%Q. change (inject_Z 50) with 50%Q. lra. }
    unfold POS_ADJ.
    rewrite (bind_ok _ _ _ _ _ (choice_eq _ _ _)).
    rewrite (bind_ok _ _ _ _ _ (uniform_eq _ _ _)). fold u. rewrite Ek.
    do 2 eexists. split; [reflexivity |].
    split; [rewrite slice_to_len by lia; lia |].
    split; [lia |]. split; [intros _; lia |].
    split; [intros H; lra | intros H; lra].
  - apply Qltb_false in E6. apply Qltb_true in E9.
    destruct (round1_between 30 40 (3 + (4 - 3) * u)%Q) as (k & Ek & Hk).
    { change (inject_Z 30) with 30%Q. change (inject_Z 40) with 40%Q. lra. }
    unfold MID_ADJ.
    rewrite (bind_ok _ _ _ _ _ (choice_eq _ _ _)).
    rewrite (bind_ok _ _ _ _ _ (uniform_eq _ _ _)). fold u. rewrite Ek.
    do 2 eexists. split; [reflexivity |].
    split; [rewrite slice_to_len by lia; lia |].
    split; [lia |]. split; [intros H; lra |].
    split; [intros _ _; lia | intros H; lra].
  - apply Qltb_false in E6, E9.
    destruct (round1_between 20 35 (2 + ((7 # 2) - 2) * u)%Q) as (k & Ek & Hk).
    { change (inject_Z 20) with 20%Q. change (inject_Z 35) with 35%Q. lra. }
    unfold NEG_ADJ.
    rewrite (bind_ok _ _ _ _ _ (choice_eq _ _ _)).
    rewrite (bind_ok _ _ _ _ _ (uniform_eq _ _ _)). fold u. rewrite Ek.
    do 2 eexists. split; [reflexivity |].
    split; [rewrite slice_to_len by lia; lia |].
    split; [lia |]. split; [intros H; lra |].
    split; [intros H1 H2; lra | intros _; lia].
Qed.

(* ------------------------------------------------------------------------- *)
(** ** Replies of the content service *)

(** A well-formed line of the service's reply for slot [s] (its id as an
    integer, a text, a finite number as rating), and the result
    [generate_for_slots] makes of it. *)
Definition answer_line (a : Slot * (text * Q)) : reply_line :=
  Object (JInt (slot_id (fst a))) (JStr (fst (snd a))) (JFloat (FFin (snd (snd a)))).

Definition answer_result (a : Slot * (text * Q)) : Generated :=
  mkGenerated (JInt (slot_id (fst a))) (slice_to (fst (snd a)) 200)
    (round1 (clamp_rating (FFin (snd (snd a))))).

Lemma parse_answer_line results a :
  parse_line results (answer_line a)
  = dict_set (JInt (slot_id (fst a))) (answer_result a) results.
Proof. reflexivity. Qed.

Lemma dict_get_parse_lines (answers : list (Slot * (text * Q))) k v :
  (forall a, In a answers -> slot_id (fst a) = k -> answer_result a = v) ->
  forall lines results,
    (forall line, In line lines ->
       line = Skipped \/ exists a, In a answers /\ line = answer_line a) ->
    (dict_get k results = Some v \/
     exists a, slot_id (fst a) = k /\ In (answer_line a) lines) ->
    dict_get k (fold_left parse_line lines results) = Some v.
Proof.
  intros Hv. induction lines as [| line lines IH]; intros results Hl Hk.
  - destruct Hk as [Hk | (a & _ & [])]. exact Hk.
  - cbn [fold_left]. apply IH; [intros l Hin; apply Hl; now right |].
    destruct (Hl line (or_introl eq_refl)) as [-> | (a & Ha & ->)].
    + cbn [parse_line]. destruct Hk as [Hk | (a & Ea & [Hin | Hin])];
        [now left | discriminate Hin | right; eauto].
    + rewrite parse_answer_line. unfold dict_set. cbn [dict_get key_eq].
      destruct (slot_id (fst a) =? k) eqn:E.
      * left. apply Z.eqb_eq in E. now rewrite (Hv a Ha E).
      * apply Z.eqb_neq in E.
        destruct Hk as [Hk | (a' & Ea' & [Hin | Hin])]; [now left | | right; eauto].
        injection Hin as Hid _ _. congruence.
Qed.

Lemma NoDup_map_fst_eq {X Y : Type} (f : X -> Z) (l : list (X * Y)) :
  NoDup (map (fun a => f (fst a)) l) ->
  forall a b, In a l -> In b l -> f (fst a) = f (fst b) -> a = b.
Proof.
  induction l as [| c l IH]; intros Hnd a b Ha Hb E; [contradiction |].
  cbn [map] in Hnd. inversion Hnd as [| ? ? Hnotin Hnd']; subst.
  destruct Ha as [-> | Ha], Hb as [-> | Hb].
  - reflexivity.
  - exfalso. apply Hnotin. rewrite E.
    apply (in_map (fun a => f (fst a))). exact Hb.
  - exfalso. apply Hnotin. rewrite <- E.
    apply (in_map (fun a => f (fst a))). exact Ha.
  - now apply IH.
Qed.

Lemma map_m_found {S X Y W : Type} (f : X -> M S Y) (p : W -> X) (h : W -> Y)
    (ws : list W) s :
  (forall a, In a ws -> f (p a) s = (Ok (h a), s)) ->
  map_m f (map p ws) s = (Ok (map h ws), s).
Proof.
  induction ws as [| a ws IH]; intros H; [reflexivity |].
  cbn [map_m map]. rewrite (bind_ok _ _ _ _ _ (H a (or_introl eq_refl))).
  rewrite (bind_ok _ _ _ _ _ (IH (fun y Hy => H y (or_intror Hy)))).
  reflexivity.
Qed.

(** What the service is sent for a batch. *)
Definition items_of (slots : list Slot) : list Item :=
  map (fun s => mkItem (slot_id s) (name s) (description s)) slots.

(** X4. When the service is in use and its reply holds, in any order and
    between any blank or malformed lines, one well-formed line for every slot
    of the batch (slot ids being distinct), [generate_for_slots] returns the
    service's reviews in slot order, each text cut to 200 code points and
    each rating clamped to [0, 5] and rounded to tenths, and draws nothing
    from the random source. *)
Theorem generate_for_slots_uses_the_reply :
  forall (llm : ReviewLLM) (answers : list (Slot * (text * Q)))
         (lines : list reply_line) (g : Rng),
    use_openai llm = true ->
    answers <> [] ->
    NoDup (map (fun a => slot_id (fst a)) answers) ->
    client llm (items_of (map fst answers)) = OutputText lines ->
    (forall line, In line lines ->
       line = Skipped \/ exists a, In a answers /\ line = answer_line a) ->
    (forall a, In a answers -> In (answer_line a) lines) ->
    generate_for_slots llm (map fst answers) g
    = (Ok (map answer_result answers), g).
Proof.
  intros llm answers lines g Huse Hne Hnd Hreply Hlines Hall.
  unfold generate_for_slots. rewrite Huse. cbn [negb orb].
  destruct answers as [| a0 rest] eqn:Ea; [contradiction |]. rewrite <- Ea in *.
  replace (is_empty (map fst answers)) with false by (rewrite Ea; reflexivity).
  fold (items_of (map fst answers)). rewrite Hreply.
  apply map_m_found. intros a Ha.
  rewrite (dict_get_parse_lines answers (slot_id (fst a)) (answer_result a)).
  - reflexivity.
  - intros b Hb E. f_equal.
    apply (NoDup_map_fst_eq slot_id answers Hnd); assumption.
  - exact Hlines.
  - right. exists a. split; [reflexivity | now apply Hall].
Qed.

Definition example_answers : list (Slot * (text * Q)) :=
  [(mkSlot 1 7 10 [65] [] "2023-01-01", ([77; 78], 47 # 10));
   (mkSlot 2 7 11 [66] [] "2023-01-05", ([79], 9%Q))].

Definition answering_service : ReviewLLM :=
  mkReviewLLM true
    (fun _ => OutputText [answer_line (mkSlot 2 7 11 [66] [] "2023-01-05", ([79], 9%Q));
                          Skipped;
                          answer_line (mkSlot 1 7 10 [65] [] "2023-01-01",
                                       ([77; 78], 47 # 10))]).

Lemma generate_for_slots_uses_the_reply_witness :
  generate_for_slots answering_service (map fst example_answers) counting_rng
  = (Ok [mkGenerated (JInt 1) [77; 78] (47 # 10); mkGenerated (JInt 2) [79] (50 # 10)],
     counting_rng).
Proof.
  refine (generate_for_slots_uses_the_reply answering_service example_answers _
            counting_rng eq_refl _ _ eq_refl _ _).
  - discriminate.
  - repeat constructor; cbn; intuition discriminate.
  - cbn. intros line [<- | [<- | [<- | []]]];
      [right; eexists; split; [right; left; reflexivity | reflexivity]
      | now left
      | right; eexists; split; [left; reflexivity | reflexivity]].
  - cbn. intros a [<- | [<- | []]]; cbn; auto.
Defined.

(* ------------------------------------------------------------------------- *)
(** ** Review photos *)

(** The photo record of review [rid] with index [idx], its timestamps copied
    from the review row. *)
Definition photo_of (row : Row) (rid idx : Z) : Photo :=
  mkPhoto None rid ("/reviews/" ++ str rid ++ "/" ++ str idx)%string false
    (created_at row) (updated_at row).

(** The photos of a review that is given [n] of them: indices 1 to [n]. *)
Definition photos_of (row : Row) (n : Z) : list Photo :=
  match review_id row with
  | Some rid => map (photo_of row rid) (range 1 (n + 1))
  | None => []
  end.

Definition draw_more (g : Rng) (k : nat) : Rng := mkRng (draws g) (pos g + k).

Lemma draw_more_0 g : draw_more g 0 = g.
Proof. destruct g. unfold draw_more. cbn. now rewrite Nat.add_0_r. Qed.

Lemma draw_more_S g k : draw_more (advance g) k = draw_more g (S k).
Proof. unfold draw_more, advance. cbn. f_equal. lia. Qed.

Lemma photos_of_one_review rv rid w :
  review_id (cells (heap w) rv) = Some rid ->
  forall idxs photos,
    for_each idxs
      (fun idx photos =>
         bind (load rv)
           (fun row =>
              match review_id row with
              | None => raise KeyError
              | Some rid =>
                  ret (photos ++
                       [mkPhoto None rid
                          ("/reviews/" ++ str rid ++ "/" ++ str idx)%string
                          false (created_at row) (updated_at row)])
              end))
      photos w
    = (Ok (photos ++ map (photo_of (cells (heap w) rv) rid) idxs), w).
Proof.
  intros Hid. induction idxs as [| idx idxs IH]; intros photos.
  - cbn [for_each map]. now rewrite app_nil_r.
  - cbn [for_each map]. unfold bind at 1. unfold bind at 1. unfold load at 1.
    rewrite Hid. unfold ret at 1. rewrite IH, <- app_assoc. reflexivity.
Qed.

Lemma build_review_photos_from chunk : forall photos g c h fs,
  Forall (fun a => review_id (cells h a) <> None) chunk ->
  exists counts,
    List.length counts = List.length chunk /\
    Forall (fun n => 0 <= n <= 3) counts /\
    for_each chunk
      (fun rv photos =>
         bind (lift_rng (randint REVIEW_PHOTO_MIN REVIEW_PHOTO_MAX))
           (fun n =>
              for_each (range 1 (n + 1))
                (fun idx photos =>
                   bind (load rv)
                     (fun row =>
                        match review_id row with
                        | None => raise KeyError
                        | Some rid =>
                            ret (photos ++
                                 [mkPhoto None rid
                                    ("/reviews/" ++ str rid ++ "/" ++ str idx)%string
                                    false (created_at row) (updated_at row)])
                        end))
                photos))
      photos (mkWorld g c h fs)
    = (Ok (photos ++
           flat_map (fun an => photos_of (cells h (fst an)) (snd an))
             (combine chunk counts)),
       mkWorld (draw_more g (List.length chunk)) c h fs).
Proof.
  induction chunk as [| rv chunk IH]; intros photos g c h fs Hid.
  - exists []. cbn [for_each combine flat_map List.length].
    rewrite app_nil_r, draw_more_0. repeat split. constructor.
  - inversion Hid as [| ? ? Hrv Hid']; subst.
    destruct (review_id (cells h rv)) as [rid |] eqn:Erid; [| contradiction].
    assert (En : REVIEW_PHOTO_MIN <= REVIEW_PHOTO_MAX)
      by (unfold REVIEW_PHOTO_MIN, REVIEW_PHOTO_MAX; lia).
    pose proof (randint_range _ _ g En) as Hn.
    set (n := REVIEW_PHOTO_MIN + draws g (pos g)
                mod (REVIEW_PHOTO_MAX - REVIEW_PHOTO_MIN + 1)) in *.
    cbn [for_each].
    unfold bind at 1.
    rewrite (bind_ok _ _ _ _ _
               (lift_rng_ok _ (mkWorld g c h fs) _ _ (randint_eq _ _ g En))).
    fold n. cbn [clock heap files rng].
    rewrite (photos_of_one_review rv rid (mkWorld (advance g) c h fs) Erid). cbn [heap].
    destruct (IH (photos ++ map (photo_of (cells h rv) rid) (range 1 (n + 1)))
                (advance g) c h fs Hid') as (counts & Hlen & Hall & E).
    exists (n :: counts). split; [cbn; lia |]. split.
    + constructor; [| exact Hall]. unfold REVIEW_PHOTO_MIN, REVIEW_PHOTO_MAX in Hn. lia.
    + rewrite E. cbn [combine flat_map fst snd List.length].
      unfold photos_of at 2. rewrite Erid, <- app_assoc, draw_more_S. reflexivity.
Qed.

(** X5. For reviews that all carry an id, [_build_review_photos] returns,
    review by review in the given order, between 0 and 3 photo records per
    review: indices 1, 2, ... in the url [/reviews/<review id>/<index>], no
    photo id, not deleted, the timestamps of the review row.  It takes one
    draw per review and changes neither rows, files nor clock. *)
Theorem build_review_photos_per_review :
  forall (chunk : list nat) (w : World),
    Forall (has_id w) chunk ->
    exists counts,
      List.length counts = List.length chunk /\
      Forall (fun n => 0 <= n <= 3) counts /\
      _build_review_photos chunk w
      = (Ok (flat_map (fun an => photos_of (cells (heap w) (fst an)) (snd an))
               (combine chunk counts)),
         mkWorld (draw_more (rng w) (List.length chunk)) (clock w) (heap w)
           (files w)).
Proof.
  intros chunk [g c h fs] Hid. unfold _build_review_photos. cbn [rng clock heap files].
  destruct (build_review_photos_from chunk [] g c h fs Hid) as (counts & Hl & Hall & E).
  exists counts. split; [exact Hl |]. split; [exact Hall |]. exact E.
Qed.

(** A world whose rows all carry an id: row [a] has review id [a + 1]. *)
Definition numbered_world : World :=
  mkWorld counting_rng morning
    (mkHeap (fun a => set_review_id blank_row (Z.of_nat a + 1)) 4) [].

Lemma build_review_photos_per_review_witness :
  Forall (has_id numbered_world) [0; 1]%nat /\
  exists counts,
    List.length counts = List.length [0; 1]%nat /\
    Forall (fun n => 0 <= n <= 3) counts /\
    _build_review_photos [0; 1]%nat numbered_world
    = (Ok (flat_map (fun an => photos_of (cells (heap numbered_world) (fst an)) (snd an))
             (combine [0; 1]%nat counts)),
       mkWorld (draw_more (rng numbered_world) (List.length [0; 1]%nat))
         (clock numbered_world) (heap numbered_world) (files numbered_world)).
Proof.
  assert (H : Forall (has_id numbered_world) [0; 1]%nat)
    by (repeat constructor; discriminate).
  split; [exact H |].
  exact (build_review_photos_per_review [0; 1]%nat numbered_world H).
Defined.

(* ------------------------------------------------------------------------- *)
(** ** The writer at any chunk size *)

Lemma chunks_written_length chunks log :
  chunks_written chunks log -> List.length log = (2 * List.length chunks)%nat.
Proof. induction 1; cbn [List.length]; lia. Qed.

(** X6. [add_rows_and_maybe_flush] with a chunk size of at least 1, on a
    buffer whose rows carry ids: it returns; the rows buffered before and the
    new rows leave in arrival order, in as many chunks of exactly
    [chunk_size] rows as they fill; what is left, fewer than [chunk_size]
    rows, stays buffered; every chunk is written as one review file followed
    by one photo file; and the next id has advanced by the number of new
    rows. *)
Theorem add_rows_flushes_full_chunks :
  forall (self : ReviewStreamer) (rows : list nat) (w : World),
    1 <= chunk_size self ->
    Forall (has_id w) (buffer self) ->
    exists chunks rest log w',
      add_rows_and_maybe_flush self rows w
      = (Ok (mkReviewStreamer (chunk_size self) rest
               (next_review_id self + len rows)), w') /\
      buffer self ++ rows = List.concat chunks ++ rest /\
      Forall (fun c => len c = chunk_size self) chunks /\
      len chunks = (len (buffer self) + len rows) / chunk_size self /\
      len rest = (len (buffer self) + len rows) mod chunk_size self /\
      files w' = files w ++ log /\
      chunks_written (rows_of (heap w') chunks) log /\
      List.length log = (2 * List.length chunks)%nat.
Proof.
  intros self rows w Hcs Hid.
  destruct (add_rows_and_maybe_flush_ok self rows w Hcs Hid)
    as (chunks & log & rest & w' & E & Hsplit & Hall & Hr & _ & _ & _ & Hf & Hcw).
  exists chunks, rest, log, w'. split; [exact E |]. split; [exact Hsplit |].
  split; [exact Hall |].
  assert (Hlen : len (buffer self) + len rows
                 = len chunks * chunk_size self + len rest).
  { rewrite <- len_app, Hsplit, len_app, (len_concat_uniform _ _ Hall). reflexivity. }
  pose proof (len_nonneg rest) as Hr0.
  split; [| split; [| split; [exact Hf | split; [exact Hcw |]]]].
  - rewrite Hlen, Z.div_add_l, Z.div_small by lia. lia.
  - rewrite Hlen, Z.add_comm, Z.mod_add, Z.mod_small by lia. reflexivity.
  - rewrite (chunks_written_length _ _ Hcw). unfold rows_of.
    now rewrite length_map.
Qed.

Lemma add_rows_flushes_full_chunks_witness :
  (1 <= chunk_size (new_streamer 2) /\
   Forall (has_id example_world) (buffer (new_streamer 2))) /\
  exists chunks rest log w',
    add_rows_and_maybe_flush (new_streamer 2) [0; 1; 2]%nat example_world
    = (Ok (mkReviewStreamer (chunk_size (new_streamer 2)) rest
             (next_review_id (new_streamer 2) + len [0; 1; 2]%nat)), w') /\
    buffer (new_streamer 2) ++ [0; 1; 2]%nat = List.concat chunks ++ rest /\
    Forall (fun c => len c = chunk_size (new_streamer 2)) chunks /\
    len chunks
    = (len (buffer (new_streamer 2)) + len [0; 1; 2]%nat) / chunk_size (new_streamer 2) /\
    len rest
    = (len (buffer (new_streamer 2)) + len [0; 1; 2]%nat) mod chunk_size (new_streamer 2) /\
    files w' = files example_world ++ log /\
    chunks_written (rows_of (heap w') chunks) log /\
    List.length log = (2 * List.length chunks)%nat.
Proof.
  assert (H1 : 1 <= chunk_size (new_streamer 2)) by (cbn; lia).
  assert (H2 : Forall (has_id example_world) (buffer (new_streamer 2)))
    by constructor.
  split; [split; assumption |].
  exact (add_rows_flushes_full_chunks (new_streamer 2) [0; 1; 2]%nat example_world H1 H2).
Defined.

Lemma assign_ids_has_id self rows w :
  Forall (has_id w) (buffer self) ->
  exists w',
    assign_ids self rows w
    = (Ok (mkReviewStreamer (chunk_size self) (buffer self ++ rows)
             (next_review_id self + len rows)), w') /\
    files w' = files w /\
    Forall (has_id w') (buffer self ++ rows).
Proof.
  intros Hid.
  destruct (assign_ids_ok rows self w) as (w1 & E1 & _ & _ & Hf & _ & Hcells).
  exists w1. split; [exact E1 |]. split; [exact Hf |].
  apply Forall_app. split.
  - eapply Forall_impl; [| exact Hid]. intros a Ha. unfold has_id in *.
    rewrite Hcells. apply assigned_has_id. now left.
  - apply Forall_forall. intros a Ha. unfold has_id.
    rewrite Hcells. apply assigned_has_id. now right.
Qed.

Lemma flush_empty_chunk fuel self w :
  chunk_size self <= len (buffer self) ->
  slice_to (buffer self) (chunk_size self) = [] ->
  flush_full_chunks (S fuel) self w = (Raise IndexError, w).
Proof.
  intros Hc He. unfold flush_full_chunks. cbn [while].
  apply Z.leb_le in Hc. rewrite Hc, He. reflexivity.
Qed.

Lemma slice_to_negative {A : Type} (xs : list A) (k : Z) :
  k < 0 -> slice_to xs k = firstn (Z.to_nat (len xs + k)) xs.
Proof.
  intros Hk. unfold slice_to, slice, clamp_index.
  pose proof (len_nonneg xs) as Hn.
  replace (0 <? 0) with false by reflexivity.
  rewrite (Z.min_l 0) by lia. cbn [Z.to_nat skipn]. rewrite Z.sub_0_r.
  apply Z.ltb_lt in Hk. rewrite Hk. f_equal. lia.
Qed.

Lemma slice_from_negative {A : Type} (xs : list A) (k : Z) :
  k < 0 -> slice_from xs k = skipn (Z.to_nat (len xs + k)) xs.
Proof.
  intros Hk. unfold slice_from, slice, clamp_index.
  pose proof (len_nonneg xs) as Hn.
  destruct (len xs <? 0) eqn:E; [apply Z.ltb_lt in E; lia |].
  rewrite Z.min_id. pose proof Hk as Hk'. apply Z.ltb_lt in Hk'. rewrite Hk'.
  replace (Z.to_nat (Z.max 0 (len xs + k))) with (Z.to_nat (len xs + k)) by lia.
  apply firstn_all2. rewrite length_skipn. unfold len in *. lia.
Qed.

(** With a chunk size of 0 or less the flushing loop always runs, and ends
    on an empty chunk. *)
Lemma flush_without_chunk_size self w :
  chunk_size self <= 0 ->
  Forall (has_id w) (buffer self) ->
  exists w',
    flush_full_chunks (S (List.length (buffer self))) self w
    = (Raise IndexError, w') /\
    (chunk_size self = 0 -> w' = w).
Proof.
  intros Hcs Hid. pose proof (len_nonneg (buffer self)) as Hn.
  destruct (Z.eq_dec (chunk_size self) 0) as [E0 | Hneg].
  { exists w. split; [| reflexivity]. apply flush_empty_chunk; [lia |].
    rewrite E0. rewrite slice_to_firstn by lia. reflexivity. }
  destruct (Z.le_gt_cases (len (buffer self) + chunk_size self) 0) as [Hshort | Hlong].
  { exists w. split; [| intros; lia]. apply flush_empty_chunk; [lia |].
    rewrite slice_to_negative by lia.
    replace (Z.to_nat (len (buffer self) + chunk_size self)) with 0%nat by lia.
    reflexivity. }
  set (keep := Z.to_nat (len (buffer self) + chunk_size self)).
  set (chunk := slice_to (buffer self) (chunk_size self)).
  assert (Hchunk : chunk = firstn keep (buffer self))
    by (apply slice_to_negative; lia).
  assert (Hrest : slice_from (buffer self) (chunk_size self) = skipn keep (buffer self))
    by (apply slice_from_negative; lia).
  assert (Hne : chunk <> []).
  { intros Hnil. apply (f_equal (@List.length nat)) in Hnil.
    rewrite Hchunk, length_firstn in Hnil. cbn in Hnil. unfold len in *. lia. }
  assert (Hid1 : Forall (has_id w) chunk).
  { rewrite <- (firstn_skipn keep (buffer self)) in Hid.
    apply Forall_app in Hid. rewrite Hchunk. apply Hid. }
  destruct (write_chunk_ok chunk w Hne Hid1)
    as (path & ppath & photos & w1 & Ew & Hh & Hc & Hf & Hp).
  exists w1. split; [| intros; lia].
  assert (Hfuel : exists fuel, List.length (buffer self) = S fuel).
  { destruct (buffer self) as [| a l]; [unfold len in *; cbn in *; lia |].
    exists (List.length l). reflexivity. }
  destruct Hfuel as (fuel & ->).
  unfold flush_full_chunks.
  rewrite (while_step _ _ _ _ _
             (mkReviewStreamer (chunk_size self)
                (slice_from (buffer self) (chunk_size self))
                (next_review_id self)) w1).
  - apply flush_empty_chunk; cbn [buffer chunk_size].
    + pose proof (len_nonneg (slice_from (buffer self) (chunk_size self))). lia.
    + rewrite slice_to_negative by lia. rewrite Hrest.
      replace (Z.to_nat (len (skipn keep (buffer self)) + chunk_size self))
        with 0%nat; [reflexivity |].
      unfold len in *. rewrite length_skipn. lia.
  - apply Z.leb_le. lia.
  - fold chunk. rewrite (bind_ok _ _ _ _ _ Ew). reflexivity.
Qed.

(** X7. With a chunk size of 0 or less, every call of
    [add_rows_and_maybe_flush] ends in [IndexError] (the flushing loop takes
    an empty chunk and asks for its last row); with chunk size 0 no file has
    been written by then. *)
Theorem add_rows_needs_positive_chunk_size :
  forall (self : ReviewStreamer) (rows : list nat) (w : World),
    chunk_size self <= 0 ->
    Forall (has_id w) (buffer self) ->
    exists w',
      add_rows_and_maybe_flush self rows w = (Raise IndexError, w') /\
      (chunk_size self = 0 -> files w' = files w).
Proof.
  intros self rows w Hcs Hid. unfold add_rows_and_maybe_flush.
  destruct (assign_ids_has_id self rows w Hid) as (w1 & E1 & Hf1 & Hid1).
  rewrite (bind_ok _ _ _ _ _ E1).
  match goal with |- context [flush_full_chunks _ ?s1 w1] =>
    destruct (flush_without_chunk_size s1 w1 Hcs Hid1) as (w' & E & H0) end.
  exists w'. split; [exact E |].
  intros Hz. cbn [chunk_size] in H0. rewrite (H0 Hz). exact Hf1.
Qed.

Lemma add_rows_needs_positive_chunk_size_witness :
  (chunk_size (new_streamer 0) <= 0 /\
   Forall (has_id example_world) (buffer (new_streamer 0))) /\
  exists w',
    add_rows_and_maybe_flush (new_streamer 0) [0]%nat example_world
    = (Raise IndexError, w') /\
    (chunk_size (new_streamer 0) = 0 -> files w' = files example_world).
Proof.
  assert (H1 : chunk_size (new_streamer 0) <= 0) by (cbn; lia).
  assert (H2 : Forall (has_id example_world) (buffer (new_streamer 0)))
    by constructor.
  split; [split; assumption |].
  exact (add_rows_needs_positive_chunk_size (new_streamer 0) [0]%nat example_world H1 H2).
Defined.

(* ------------------------------------------------------------------------- *)
(** ** Names of the chunk files *)

Lemma string_length_app (s t : string) :
  String.length (s ++ t) = (String.length s + String.length t)%nat.
Proof. induction s as [| c s IH]; cbn; [reflexivity | now rewrite IH]. Qed.

Lemma string_app_inv_tail (t : string) : forall s1 s2 : string,
  (s1 ++ t = s2 ++ t)%string -> s1 = s2.
Proof.
  induction s1 as [| c s1 IH]; intros [| d s2] H; cbn in H.
  - reflexivity.
  - apply (f_equal String.length) in H. cbn in H.
    rewrite string_length_app in H. lia.
  - apply (f_equal String.length) in H. cbn in H.
    rewrite string_length_app in H. lia.
  - injection H as -> H. f_equal. now apply IH.
Qed.

Lemma to_int_nonnil z :
  Z.to_int z <> Decimal.Pos Decimal.Nil /\ Z.to_int z <> Decimal.Neg Decimal.Nil.
Proof.
  destruct z as [| p | p]; cbn; split; try discriminate;
    intros [= H]; exact (Unsigned.to_uint_nonnil p H).
Qed.

(** [str] is one to one. *)
Lemma str_inj a b : str a = str b -> a = b.
Proof.
  unfold str. intros H. apply DecimalZ.to_int_inj.
  destruct (to_int_nonnil a) as [Ha1 Ha2], (to_int_nonnil b) as [Hb1 Hb2].
  pose proof (NilZero.isi _ Ha1 Ha2) as Ea.
  pose proof (NilZero.isi _ Hb1 Hb2) as Eb.
  rewrite H in Ea. congruence.
Qed.

(** [str] yields a digit or a sign first. *)
Lemma str_head z : exists c s, str z = String c s /\ c <> "p"%char.
Proof.
  assert (Hu : forall d, d <> Decimal.Nil ->
            exists c s, NilZero.string_of_uint d = String c s /\ c <> "p"%char).
  { intros d Hd. destruct d; try contradiction; cbn;
      do 2 eexists; (split; [reflexivity | discriminate]). }
  unfold str. destruct z as [| p | p]; cbn [Z.to_int NilZero.string_of_int].
  - do 2 eexists. split; [reflexivity | discriminate].
  - apply Hu, Unsigned.to_uint_nonnil.
  - do 2 eexists. split; [reflexivity | discriminate].
Qed.

(** The names [add_rows_and_maybe_flush] and [flush_remaining] give the two
    files of a chunk whose last row has review id [id]. *)
Definition review_file (id : Z) : string := ("review_" ++ str id ++ ".json")%string.
Definition photo_file (id : Z) : string :=
  ("review_photo_" ++ str id ++ ".json")%string.

Lemma review_file_inj a b : review_file a = review_file b -> a = b.
Proof.
  unfold review_file. cbn. intros [= H].
  now apply str_inj, (string_app_inv_tail ".json").
Qed.

Lemma photo_file_inj a b : photo_file a = photo_file b -> a = b.
Proof.
  unfold photo_file. cbn. intros [= H].
  now apply str_inj, (string_app_inv_tail ".json").
Qed.

Lemma review_file_not_photo_file a b : review_file a <> photo_file b.
Proof.
  unfold review_file, photo_file. cbn. intros [= H].
  destruct (str_head a) as (c & s & E & Hc). rewrite E in H. cbn in H.
  injection H as -> _. now apply Hc.
Qed.

(** A log of chunk files: a review file and then its photo file, both named
    after the review id of the last row in the review file. *)
Inductive files_named : list (string * content) -> Prop :=
| fn_nil : files_named []
| fn_chunk rows photos id log :
    last (map review_id rows) None = Some id ->
    files_named log ->
    files_named ((review_file id, ReviewChunk rows)
                 :: (photo_file id, PhotoChunk photos) :: log).

Lemma files_named_app l1 l2 :
  files_named l1 -> files_named l2 -> files_named (l1 ++ l2).
Proof. induction 1; intros H2; [exact H2 |]. cbn. constructor; auto. Qed.

(** The files of [w'] are those of [w] and then whole chunks, well named. *)
Definition appends_chunks (w w' : World) : Prop :=
  exists log, files w' = files w ++ log /\ files_named log.

Lemma appends_chunks_refl w : appends_chunks w w.
Proof. exists []. split; [now rewrite app_nil_r | constructor]. Qed.

Lemma appends_chunks_trans w1 w2 w3 :
  appends_chunks w1 w2 -> appends_chunks w2 w3 -> appends_chunks w1 w3.
Proof.
  intros (l1 & E1 & H1) (l2 & E2 & H2). exists (l1 ++ l2). split.
  - rewrite E2, E1, <- app_assoc. reflexivity.
  - now apply files_named_app.
Qed.

(** A loop that returns has seen every turn return. *)
Lemma for_each_returns {S A St : Type} (R : S -> S -> Prop)
    (body : A -> St -> M S St) :
  (forall s, R s s) -> (forall a b c, R a b -> R b c -> R a c) ->
  forall xs,
    (forall x st s st' s', In x xs -> body x st s = (Ok st', s') -> R s s') ->
    forall st s st' s', for_each xs body st s = (Ok st', s') -> R s s'.
Proof.
  intros Hrefl Htrans. induction xs as [| x xs IH]; intros Hb st s st' s' E.
  - cbn in E. injection E as _ <-. apply Hrefl.
  - cbn [for_each] in E. unfold bind in E.
    destruct (body x st s) as [[st1 | e |] s1] eqn:E1; try discriminate E.
    apply (Htrans _ s1).
    + eapply Hb; [now left | exact E1].
    + eapply IH; [| exact E]. intros y st0 s0 st0' s0' Hy. apply Hb. now right.
Qed.

Lemma while_returns {S St : Type} (R : S -> S -> Prop) (cond : St -> bool)
    (body : St -> M S St) :
  (forall s, R s s) -> (forall a b c, R a b -> R b c -> R a c) ->
  (forall st s st' s', body st s = (Ok st', s') -> R s s') ->
  forall fuel st s st' s', while fuel cond body st s = (Ok st', s') -> R s s'.
Proof.
  intros Hrefl Htrans Hb. induction fuel as [| fuel IH]; intros st s st' s' E;
    cbn [while] in E; destruct (cond st).
  - discriminate E.
  - injection E as _ <-. apply Hrefl.
  - unfold bind in E.
    destruct (body st s) as [[st1 | e |] s1] eqn:E1; try discriminate E.
    apply (Htrans _ s1); [eapply Hb; exact E1 | eapply IH; exact E].
  - injection E as _ <-. apply Hrefl.
Qed.

Lemma build_review_photos_store chunk w photos w' :
  _build_review_photos chunk w = (Ok photos, w') ->
  heap w' = heap w /\ files w' = files w.
Proof.
  unfold _build_review_photos.
  apply (for_each_returns (fun w w' => heap w' = heap w /\ files w' = files w)).
  - auto.
  - intros a b c [H1 H2] [H3 H4]. split; congruence.
  - intros rv st s st' s' _ E. unfold bind in E. unfold lift_rng at 1 in E.
    destruct (randint REVIEW_PHOTO_MIN REVIEW_PHOTO_MAX (rng s)) as [[n | e |] g];
      try discriminate E.
    revert E.
    match goal with |- for_each _ _ _ ?s1 = _ -> _ =>
      change (heap s) with (heap s1); change (files s) with (files s1) end.
    apply (for_each_returns (fun w w' => heap w' = heap w /\ files w' = files w)).
    + auto.
    + intros a b c [H1 H2] [H3 H4]. split; congruence.
    + intros idx st0 s0 st0' s0' _ E. unfold load in E.
      destruct (review_id (cells (heap s0) rv)); [| discriminate E].
      injection E as _ <-. auto.
Qed.

Lemma rev_last {A : Type} (l : list A) (x d : A) (r : list A) :
  rev l = x :: r -> last l d = x.
Proof.
  intros H. apply (f_equal (@rev A)) in H. rewrite rev_involutive in H.
  subst l. cbn [rev]. apply last_last.
Qed.

Lemma write_chunk_named chunk w w' :
  write_chunk chunk w = (Ok tt, w') -> appends_chunks w w'.
Proof.
  unfold write_chunk. destruct (rev chunk) as [| last_row rest] eqn:Er;
    [discriminate |].
  unfold bind at 1. unfold load at 1.
  destruct (review_id (cells (heap w) last_row)) as [last_id |] eqn:Eid;
    [| discriminate].
  rewrite (bind_ok _ _ _ _ _ (map_m_load chunk w)).
  unfold bind at 1. unfold write_file at 1. unfold bind.
  match goal with |- context [_build_review_photos chunk ?w1] =>
    destruct (_build_review_photos chunk w1) as [[photos | e |] w2] eqn:Eb;
      try discriminate end.
  apply build_review_photos_store in Eb. destruct Eb as [Hh Hf].
  cbn [heap files] in Hh, Hf. unfold write_file. intros [= <-].
  exists [(review_file last_id, ReviewChunk (map (cells (heap w)) chunk));
          (photo_file last_id, PhotoChunk photos)].
  cbn [files]. split; [rewrite Hf, <- app_assoc; reflexivity |].
  constructor; [| constructor].
  rewrite map_map, <- Eid.
  rewrite <- (rev_last chunk last_row last_row rest Er).
  destruct chunk as [| a chunk]; [discriminate Er |].
  clear. revert a. induction chunk as [| b chunk IH]; intros a; [reflexivity |].
  cbn [map last] in *. apply IH.
Qed.

Lemma assign_ids_files self rows w self' w' :
  assign_ids self rows w = (Ok self', w') -> files w' = files w.
Proof.
  intros E. destruct (assign_ids_ok rows self w) as (w1 & E1 & _ & _ & Hf & _).
  rewrite E in E1. now injection E1 as _ ->.
Qed.

Lemma add_rows_named self rows w self' w' :
  add_rows_and_maybe_flush self rows w = (Ok self', w') -> appends_chunks w w'.
Proof.
  unfold add_rows_and_maybe_flush, bind.
  destruct (assign_ids self rows w) as [[s1 | e |] w1] eqn:E1; try discriminate.
  apply assign_ids_files in E1. unfold flush_full_chunks. intros E.
  assert (H : appends_chunks w1 w').
  { revert E. apply while_returns.
    - apply appends_chunks_refl.
    - apply appends_chunks_trans.
    - intros st s st' s' Eb. unfold bind in Eb.
      destruct (write_chunk _ s) as [[[] | e |] s1'] eqn:Ew; try discriminate Eb.
      injection Eb as _ <-. now apply write_chunk_named in Ew. }
  destruct H as (log & Hf & Hn). exists log. split; [congruence | exact Hn].
Qed.

Lemma flush_remaining_named self w self' w' :
  flush_remaining self w = (Ok self', w') -> appends_chunks w w'.
Proof.
  unfold flush_remaining. destruct (is_empty (buffer self)).
  - intros [= _ <-]. apply appends_chunks_refl.
  - unfold bind. destruct (write_chunk _ w) as [[[] | e |] w1] eqn:Ew;
      try discriminate.
    intros [= _ <-]. now apply write_chunk_named in Ew.
Qed.

Lemma apply_ops_named ops self w self' w' :
  apply_ops ops self w = (Ok self', w') -> appends_chunks w w'.
Proof.
  unfold apply_ops. apply for_each_returns.
  - apply appends_chunks_refl.
  - apply appends_chunks_trans.
  - intros [rows |] st s st' s' _ E; cbn [apply_op] in E.
    + eapply add_rows_named; exact E.
    + eapply flush_remaining_named; exact E.
Qed.

Lemma app_eq_length {A : Type} (a c b d : list A) :
  List.length a = List.length c -> a ++ b = c ++ d -> a = c /\ b = d.
Proof.
  revert c. induction a as [| x a IH]; intros [| y c] Hl H; cbn in *;
    try discriminate; [auto |].
  injection H as -> H. destruct (IH c ltac:(lia) H) as [-> ->]. auto.
Qed.

Lemma last_ids_from base m :
  last (ids_from base (S m)) None = Some (base + Z.of_nat m).
Proof.
  unfold ids_from. rewrite seq_S, map_app. cbn [map Nat.add]. apply last_last.
Qed.

(** In a log of well-named chunk files whose review ids count up from
    [base], every name carries an id of at least [base], and no name occurs
    twice. *)
Lemma files_named_distinct log : files_named log ->
  forall base n,
    review_ids_written log = ids_from base n ->
    NoDup (map fst log) /\
    Forall (fun f => exists id, base <= id /\
                       (fst f = review_file id \/ fst f = photo_file id)) log.
Proof.
  induction 1 as [| rows photos id log Hlast _ IH]; intros base n Hids.
  - split; constructor.
  - cbn [review_ids_written flat_map snd app] in Hids.
    fold (review_ids_written log) in Hids.
    set (m := List.length rows).
    assert (Hm : (m <= n)%nat).
    { apply (f_equal (@List.length (option Z))) in Hids.
      unfold ids_from in Hids.
      rewrite length_app, !length_map, length_seq in Hids. unfold m. lia. }
    replace n with (m + (n - m))%nat in Hids by lia.
    rewrite ids_from_app in Hids.
    apply app_eq_length in Hids.
    2: { unfold ids_from. now rewrite !length_map, length_seq. }
    destruct Hids as [Hrows Hrest].
    destruct (IH _ _ Hrest) as [Hnd Hall].
    assert (Hid : id = base + Z.of_nat m - 1 /\ (1 <= m)%nat).
    { rewrite Hrows in Hlast. destruct m as [| m'].
      - discriminate Hlast.
      - rewrite last_ids_from in Hlast. injection Hlast as <-. lia. }
    destruct Hid as [Hid Hm1].
    assert (Hfresh : forall name, In name (map fst log) ->
              name <> review_file id /\ name <> photo_file id).
    { intros name Hin. apply in_map_iff in Hin. destruct Hin as (f & <- & Hf).
      rewrite Forall_forall in Hall. destruct (Hall f Hf) as (id' & Hge & [E | E]);
        rewrite E; split; intros Heq.
      - apply review_file_inj in Heq. lia.
      - exact (review_file_not_photo_file _ _ Heq).
      - symmetry in Heq. exact (review_file_not_photo_file _ _ Heq).
      - apply photo_file_inj in Heq. lia. }
    split.
    + cbn [map fst]. constructor; [| constructor; [| exact Hnd]].
      * intros [Heq | Hin].
        -- symmetry in Heq. exact (review_file_not_photo_file _ _ Heq).
        -- destruct (Hfresh _ Hin) as [H1 _]. now apply H1.
      * intros Hin. destruct (Hfresh _ Hin) as [_ H2]. now apply H2.
    + constructor; [| constructor].
      * exists id. cbn [fst]. split; [lia | now left].
      * exists id. cbn [fst]. split; [lia | now right].
      * eapply Forall_impl; [| exact Hall].
        intros f (id' & Hge & Hname). exists id'. split; [lia | exact Hname].
Qed.

(** X8. Take any sequence of writer operations on a new writer (chunk size at
    least 1), each row object handed over once.  The files written come in
    pairs, a review file [review_<id>.json] and then its photo file
    [review_photo_<id>.json], where [id] is the review id of the last row in
    that review file; and no two files written have the same name, so no
    chunk overwrites another. *)
Theorem chunk_files_named_by_last_id :
  forall (size : Z) (ops : list writer_op) (w : World),
    1 <= size ->
    NoDup (arrivals ops) ->
    exists self' w' log,
      apply_ops ops (new_streamer size) w = (Ok self', w') /\
      files w' = files w ++ log /\
      files_named log /\
      NoDup (map fst log).
Proof.
  intros size ops w Hsize Hnd.
  assert (Ht0 : tracks (new_streamer size) w [] 0).
  { repeat split; cbn; try lia. intros [| i] a Hi; discriminate. }
  destruct (apply_ops_ids ops (new_streamer size) w [] 0%nat Hsize Ht0 Hnd)
    as (s1 & w1 & f1 & log & E & _ & _ & _ & Hf & Hids & _).
  destruct (apply_ops_named _ _ _ _ _ E) as (log' & Hf' & Hnamed).
  assert (log' = log) by (rewrite Hf in Hf'; now apply app_inv_head in Hf').
  subst log'. exists s1, w1, log. split; [exact E |]. split; [exact Hf |].
  split; [exact Hnamed |].
  exact (proj1 (files_named_distinct log Hnamed _ _ Hids)).
Qed.

Lemma chunk_files_named_by_last_id_witness :
  (1 <= 2 /\ NoDup (arrivals [AddRows [0; 1; 2]%nat; AddRows [3]%nat; FlushRemaining])) /\
  exists self' w' log,
    apply_ops [AddRows [0; 1; 2]%nat; AddRows [3]%nat; FlushRemaining]
      (new_streamer 2) example_world = (Ok self', w') /\
    files w' = files example_world ++ log /\
    files_named log /\
    NoDup (map fst log).
Proof.
  assert (H : 1 <= 2) by lia.
  assert (Hnd : NoDup (arrivals [AddRows [0; 1; 2]%nat; AddRows [3]%nat; FlushRemaining])).
  { cbn. repeat (constructor; [cbn; intuition discriminate |]). constructor. }
  split; [split; assumption |].
  exact (chunk_files_named_by_last_id 2 _ example_world H Hnd).
Defined.

(* ------------------------------------------------------------------------- *)
(** ** Restaurants of a visit plan *)



(* ------------------------------------------------------------------------- *)
(** ** Visit dates and the calendar *)

(** A date of the calendar. *)
Definition valid_date (d : date) : Prop :=
  1 <= month d <= 12 /\ 1 <= day d <= days_in_month (year d) (month d).

(** A visit date as [gen_user_dates] is to return it: the ten characters
    [YYYY-MM-DD] of a calendar date from [DATE_START] to [DATE_END]. *)
Definition visit_date_in_range (s : string) : Prop :=
  exists d,
    s = strftime_ymd d /\ valid_date d /\
    toordinal DATE_START <= toordinal d <= toordinal DATE_END /\
    String.length s = 10%nat.

Lemma day_in_range k : 0 <= k < total_days -> visit_date_in_range (day_str k).
Proof.
  assert (H : forallb
                (fun k =>
                   let d := day_date k in
                   (1 <=? month d) && (month d <=? 12) && (1 <=? day d)
                   && (day d <=? days_in_month (year d) (month d))
                   && (String.length (day_str k) =? 10)%nat)
                (range 0 total_days) = true) by (vm_compute; reflexivity).
  intros Hk. rewrite forallb_forall in H.
  specialize (H k (proj2 (range_In 0 total_days k) Hk)). cbv zeta in H.
  repeat (apply andb_true_iff in H; destruct H as [H ?]).
  exists (day_date k). split; [reflexivity |].
  split; [unfold valid_date; lia |]. split.
  - rewrite day_ordinal by assumption. unfold total_days in *. lia.
  - now apply Nat.eqb_eq.
Qed.

Lemma firstn_Forall {A : Type} (P : A -> Prop) (k : nat) (xs : list A) :
  Forall P xs -> Forall P (firstn k xs).
Proof.
  intros H. rewrite <- (firstn_skipn k xs) in H. now apply Forall_app in H.
Qed.

Lemma slice_to_Forall {A : Type} (P : A -> Prop) (xs : list A) (k : Z) :
  0 <= k -> Forall P xs -> Forall P (slice_to xs k).
Proof. intros Hk H. rewrite slice_to_firstn by assumption. now apply firstn_Forall. Qed.

(** X10. Whatever the count, the fuel and the random source: every date
    [gen_user_dates] returns is the ten-character form [YYYY-MM-DD] of a
    calendar date from [DATE_START] (2023-01-01) to [DATE_END] (2025-07-31),
    both included. *)
Theorem gen_user_dates_within_range :
  forall (fuel : nat) (n : Z) (g : Rng) (dates : list string) (g' : Rng),
    gen_user_dates fuel n g = (Ok dates, g') ->
    Forall visit_date_in_range dates.
Proof.
  intros fuel n g dates g' E. destruct (Z.le_gt_cases n 0) as [Hn | Hn].
  - unfold gen_user_dates in E. apply Z.leb_le in Hn. rewrite Hn in E.
    injection E as <- _. constructor.
  - rewrite gen_user_dates_pos in E by lia.
    destruct (spaced_phases_ok n g) as (used & attempts & g1 & E1 & [Hc _]).
    rewrite (bind_ok _ _ _ _ _ E1) in E. unfold bind in E.
    destruct (phase3 fuel n (used, attempts) g1) as [[[used' attempts'] | e |] g2] eqn:E3;
      try discriminate E.
    destruct (phase3_result g n _ _ _ _ _ _ Hc E3) as [(_ & _ & _ & Hr & _) _].
    cbn [fst] in Hr. unfold ret in E. injection E as <- _.
    apply slice_to_Forall; [lia |]. rewrite dates_of_str.
    apply Forall_map. apply sorted_in_range in Hr.
    eapply Forall_impl; [| exact Hr]. intros k Hk. now apply day_in_range.
Qed.

Lemma gen_user_dates_within_range_witness :
  gen_user_dates 5 3 counting_rng
  = (Ok ["2023-01-01"; "2023-01-03"; "2023-01-05"]%string, mkRng Z.of_nat 5) /\
  Forall visit_date_in_range ["2023-01-01"; "2023-01-03"; "2023-01-05"]%string.
Proof.
  assert (E : gen_user_dates 5 3 counting_rng
              = (Ok ["2023-01-01"; "2023-01-03"; "2023-01-05"]%string,
                 mkRng Z.of_nat 5)) by (vm_compute; reflexivity).
  split; [exact E |].
  exact (gen_user_dates_within_range 5 3 counting_rng _ _ E).
Defined.

(* ------------------------------------------------------------------------- *)
(** ** Slots *)

(** A visit to be reviewed: the user, the restaurant, the date. *)
Definition visit : Type := (Z * (Z * string))%type.

Definition visit_of (s : Slot) : visit :=
  (user_id s, (restaurant_id s, visited_at s)).

(** The visits planned for a user, in the order of the plan. *)
Definition visits_of (user_plan : odict plan) (uid : Z) : list visit :=
  match odict_get uid user_plan with
  | Some visits => map (pair uid) visits
  | None => []
  end.

(** The [i]-th user of every bucket that has one. *)
Definition rank (i : nat) (buckets : list (list Z)) : list Z :=
  flat_map (fun bucket => match nth_error bucket i with
                          | Some uid => [uid]
                          | None => []
                          end) buckets.

(** The users in round-robin order: the first of every bucket, then the
    second of every bucket, and so on. *)
Definition round_robin (buckets : list (list Z)) : list Z :=
  flat_map (fun i => rank i buckets)
    (seq 0 (Z.to_nat (fold_right Z.max 0 (map len buckets)))).

(** Name and description of a slot are those of its restaurant in the
    catalog, a missing description being empty. *)
Definition from_catalog (rest_by_id : odict Restaurant) (s : Slot) : Prop :=
  exists r,
    odict_get (restaurant_id s) rest_by_id = Some r /\
    name s = rest_name r /\
    description s = match rest_description r with Some d => d | None => [] end.

(** Slots numbered from [first] that stand for the visits [vs], in order. *)
Definition slots_for (rest_by_id : odict Restaurant) (first : Z)
    (vs : list visit) (slots : list Slot) : Prop :=
  map slot_id slots = range first (first + len slots) /\
  map visit_of slots = vs /\
  Forall (from_catalog rest_by_id) slots.

Lemma range_app a n m :
  0 <= n -> 0 <= m -> range a (a + n) ++ range (a + n) (a + n + m) = range a (a + n + m).
Proof.
  intros Hn Hm. unfold range.
  replace (Z.to_nat (a + n - a)) with (Z.to_nat n) by lia.
  replace (Z.to_nat (a + n + m - (a + n))) with (Z.to_nat m) by lia.
  replace (Z.to_nat (a + n + m - a)) with (Z.to_nat n + Z.to_nat m)%nat by lia.
  rewrite seq_app, map_app. f_equal. rewrite map_seq_shift.
  apply map_ext. intros k. lia.
Qed.

Lemma slots_for_nil rest_by_id first : slots_for rest_by_id first [] [].
Proof.
  repeat split; [| constructor]. cbn [map]. change (len (@nil Slot)) with 0.
  unfold range. now rewrite Z.add_0_r, Z.sub_diag.
Qed.

Lemma slots_for_app rest_by_id first vs1 vs2 new1 new2 :
  slots_for rest_by_id first vs1 new1 ->
  slots_for rest_by_id (first + len new1) vs2 new2 ->
  slots_for rest_by_id first (vs1 ++ vs2) (new1 ++ new2).
Proof.
  intros (Hi1 & Hv1 & Hc1) (Hi2 & Hv2 & Hc2). split; [| split].
  - rewrite map_app, Hi1, Hi2, len_app, Z.add_assoc.
    apply range_app; apply len_nonneg.
  - now rewrite map_app, Hv1, Hv2.
  - now apply Forall_app.
Qed.

(** A loop whose every turn appends slots, numbered on from the counter. *)
Lemma slot_loop {S X : Type} (rest_by_id : odict Restaurant)
    (body : X -> list Slot * Z -> M S (list Slot * Z)) (vs_of : X -> list visit)
    (xs : list X) :
  (forall x all_slots slot_seq s, In x xs ->
     exists new,
       body x (all_slots, slot_seq) s = (Ok (all_slots ++ new, slot_seq + len new), s) /\
       slots_for rest_by_id slot_seq (vs_of x) new) ->
  forall all_slots slot_seq s,
    exists new,
      for_each xs body (all_slots, slot_seq) s
      = (Ok (all_slots ++ new, slot_seq + len new), s) /\
      slots_for rest_by_id slot_seq (flat_map vs_of xs) new.
Proof.
  induction xs as [| x xs IH]; intros Hb all_slots slot_seq s.
  - exists []. cbn [for_each flat_map]. unfold ret.
    rewrite app_nil_r. change (len (@nil Slot)) with 0. rewrite Z.add_0_r.
    split; [reflexivity | apply slots_for_nil].
  - destruct (Hb x all_slots slot_seq s (or_introl eq_refl)) as (new1 & E1 & H1).
    destruct (IH (fun y a q t Hy => Hb y a q t (or_intror Hy))
                (all_slots ++ new1) (slot_seq + len new1) s) as (new2 & E2 & H2).
    exists (new1 ++ new2). cbn [for_each flat_map].
    rewrite (bind_ok _ _ _ _ _ E1), E2. split.
    + rewrite <- app_assoc, len_app, Z.add_assoc. reflexivity.
    + now apply slots_for_app.
Qed.

Lemma slots_of_user_ok {S : Type} (rest_by_id : odict Restaurant)
    (user_plan : odict plan) (uid : Z) (visits : plan) :
  odict_get uid user_plan = Some visits ->
  (forall v, In v visits -> odict_get (fst v) rest_by_id <> None) ->
  forall all_slots slot_seq (s : S),
    exists new,
      slots_of_user rest_by_id user_plan uid (all_slots, slot_seq) s
      = (Ok (all_slots ++ new, slot_seq + len new), s) /\
      slots_for rest_by_id slot_seq (visits_of user_plan uid) new.
Proof.
  intros Hplan Hcat all_slots slot_seq s.
  unfold slots_of_user, visits_of. rewrite Hplan.
  assert (Hvs : map (pair uid) visits
                = flat_map (fun v : Z * string => [(uid, v)]) visits).
  { clear. induction visits as [| v visits IH]; [reflexivity |].
    cbn [map flat_map app]. now rewrite IH. }
  rewrite Hvs. apply slot_loop.
  intros [rid vdate] slots0 seq0 s0 Hin.
  specialize (Hcat _ Hin). cbn [fst] in Hcat.
  destruct (odict_get rid rest_by_id) as [r |] eqn:Er; [| contradiction].
  exists [mkSlot seq0 uid rid (rest_name r)
            (match rest_description r with Some d => d | None => [] end) vdate].
  split; [reflexivity |]. split; [| split].
  - cbn [map slot_id]. change (len [_]) with 1. unfold range.
    replace (Z.to_nat (seq0 + 1 - seq0)) with 1%nat by lia. cbn. f_equal. lia.
  - reflexivity.
  - constructor; [| constructor]. exists r. cbn. auto.
Qed.

Lemma flat_map_nil {X Y : Type} (l : list X) :
  flat_map (fun _ : X => @nil Y) l = [].
Proof. induction l; [reflexivity | exact IHl]. Qed.

Lemma flat_map_flat_map {X Y W : Type} (f : X -> list Y) (g : Y -> list W)
    (l : list X) :
  flat_map g (flat_map f l) = flat_map (fun x => flat_map g (f x)) l.
Proof.
  induction l as [| x l IH]; [reflexivity |].
  cbn [flat_map]. now rewrite flat_map_app, IH.
Qed.

Lemma flat_map_map {X Y W : Type} (f : X -> Y) (g : Y -> list W) (l : list X) :
  flat_map g (map f l) = flat_map (fun x => g (f x)) l.
Proof. induction l as [| x l IH]; [reflexivity |]. cbn. now rewrite IH. Qed.

Lemma flat_map_app_perm {X Y : Type} (f g : X -> list Y) (l : list X) :
  Permutation (flat_map (fun x => f x ++ g x) l) (flat_map f l ++ flat_map g l).
Proof.
  induction l as [| x l IH]; [reflexivity |].
  cbn [flat_map]. rewrite IH, <- !app_assoc. apply Permutation_app_head.
  rewrite !app_assoc. apply Permutation_app_tail, Permutation_app_comm.
Qed.

(** Reading a bucket position by position gives the bucket. *)
Lemma by_position (b : list Z) : forall m,
  (List.length b <= m)%nat ->
  flat_map (fun i => match nth_error b i with Some uid => [uid] | None => [] end)
    (seq 0 m) = b.
Proof.
  induction b as [| x b IH]; intros m Hm.
  - rewrite (flat_map_ext _ (fun _ => [])); [apply flat_map_nil |].
    intros [| i]; reflexivity.
  - destruct m as [| m]; [cbn in Hm; lia |].
    cbn [seq flat_map nth_error app]. f_equal.
    rewrite <- seq_shift, flat_map_map. cbn [nth_error].
    apply IH. cbn in Hm. lia.
Qed.

Lemma round_robin_all (buckets : list (list Z)) : forall m,
  Forall (fun b => (List.length b <= m)%nat) buckets ->
  Permutation (flat_map (fun i => rank i buckets) (seq 0 m)) (List.concat buckets).
Proof.
  induction buckets as [| b buckets IH]; intros m Hm.
  - cbn [List.concat]. unfold rank. cbn [flat_map]. now rewrite flat_map_nil.
  - inversion Hm as [| ? ? Hb Hbs]; subst. unfold rank. cbn [flat_map List.concat].
    fold (rank) in *.
    rewrite (flat_map_app_perm
               (fun i => match nth_error b i with Some uid => [uid] | None => [] end)
               (fun i => rank i buckets)).
    rewrite (by_position b m Hb). apply Permutation_app_head. now apply IH.
Qed.

Lemma max_len_bound (buckets : list (list Z)) :
  Forall (fun b => (List.length b <= Z.to_nat (fold_right Z.max 0%Z (map len buckets)))%nat)
    buckets.
Proof.
  induction buckets as [| b buckets IH]; constructor; cbn [map fold_right].
  - unfold len. lia.
  - eapply Forall_impl; [| exact IH]. cbn. intros c Hc. lia.
Qed.

(** The loops of [flatten], turn by turn. *)
Lemma flatten_loops :
  forall (S : Type) (rest_by_id : odict Restaurant) (user_plan : odict plan)
         (buckets : list (list Z)) (s : S),
    (forall uid, In uid (List.concat buckets) ->
       exists visits,
         odict_get uid user_plan = Some visits /\
         forall v, In v visits -> odict_get (fst v) rest_by_id <> None) ->
    exists slots,
      flatten rest_by_id user_plan buckets s = (Ok slots, s) /\
      slots_for rest_by_id 1
        (flat_map (fun i => flat_map (visits_of user_plan) (rank (Z.to_nat i) buckets))
           (range 0 (fold_right Z.max 0 (map len buckets))))
        slots.
Proof.
  intros S rest_by_id user_plan buckets s Hplans. unfold flatten.
  set (max_len := fold_right Z.max 0 (map len buckets)).
  match goal with |- context [for_each (range 0 max_len) ?body ([], 1)] =>
    destruct (slot_loop rest_by_id body
                (fun i => flat_map (visits_of user_plan) (rank (Z.to_nat i) buckets))
                (range 0 max_len)) with (all_slots := @nil Slot) (slot_seq := 1) (s := s)
      as (slots & E & Hi & Hv & Hc) end.
  - intros i all_slots slot_seq s0 _. cbv beta.
    match goal with |- context [for_each buckets ?body] =>
      destruct (slot_loop rest_by_id body
                  (fun bucket => match nth_error bucket (Z.to_nat i) with
                                 | Some uid => visits_of user_plan uid
                                 | None => []
                                 end)
                  buckets) with (all_slots := all_slots) (slot_seq := slot_seq) (s := s0)
        as (new & E & Hnew) end.
    + intros bucket slots0 seq0 s1 Hb.
      destruct (nth_error bucket (Z.to_nat i)) as [uid |] eqn:En.
      * destruct (Hplans uid) as (visits & Hp & Hcat).
        { apply in_concat. exists bucket. split; [exact Hb |].
          eapply nth_error_In; exact En. }
        now apply (slots_of_user_ok rest_by_id user_plan uid visits).
      * exists []. unfold ret. rewrite app_nil_r.
        change (len (@nil Slot)) with 0. rewrite Z.add_0_r.
        split; [reflexivity | apply slots_for_nil].
    + exists new. split; [exact E |].
      unfold rank. rewrite flat_map_flat_map.
      erewrite flat_map_ext; [exact Hnew |].
      intros bucket. cbv beta. destruct (nth_error bucket (Z.to_nat i)); cbn [flat_map];
        [now rewrite app_nil_r | reflexivity].
  - exists slots. rewrite (bind_ok _ _ _ _ _ E). cbn [app] in *.
    split; [reflexivity |]. split; [exact Hi |]. split; [exact Hv | exact Hc].
Qed.

(** X11. When every user of the cohorts has a plan and every planned
    restaurant is in the catalog (as in [run]), [flatten] returns one slot
    per planned visit: the slot ids are 1, 2, ... in the order of the list;
    the slots follow the users in round-robin order over the cohorts (the
    first user of every cohort, then the second of every cohort, ...), every
    user of every cohort having exactly one turn, and within a user the order
    of the plan; name and description are those of the restaurant in the
    catalog.  The state it runs in is left as it was. *)
Theorem flatten_numbers_slots_round_robin :
  forall (S : Type) (rest_by_id : odict Restaurant) (user_plan : odict plan)
         (buckets : list (list Z)) (s : S),
    (forall uid, In uid (List.concat buckets) ->
       exists visits,
         odict_get uid user_plan = Some visits /\
         forall v, In v visits -> odict_get (fst v) rest_by_id <> None) ->
    exists slots,
      flatten rest_by_id user_plan buckets s = (Ok slots, s) /\
      map slot_id slots = range 1 (1 + len slots) /\
      map visit_of slots
      = flat_map (visits_of user_plan) (round_robin buckets) /\
      Forall (from_catalog rest_by_id) slots /\
      Permutation (round_robin buckets) (List.concat buckets).
Proof.
  intros S rest_by_id user_plan buckets s Hplans.
  destruct (flatten_loops S rest_by_id user_plan buckets s Hplans)
    as (slots & E & Hi & Hv & Hc).
  exists slots. split; [exact E |]. split; [exact Hi |].
  split; [| split; [exact Hc |]].
  - rewrite Hv. unfold round_robin, range.
    rewrite flat_map_map, flat_map_flat_map, Z.sub_0_r.
    apply flat_map_ext. intros k. now rewrite Z.add_0_l, Nat2Z.id.
  - apply round_robin_all, max_len_bound.
Qed.

Definition example_plan : odict plan :=
  [(1, [(10, "2023-01-01"%string); (11, "2023-01-03"%string)]);
   (2, [(12, "2023-02-01"%string)])].

Lemma flatten_numbers_slots_round_robin_witness :
  exists slots,
    flatten (rest_by_id_of example_restaurants) example_plan [[1]; [2]; []] tt
    = (Ok slots, tt) /\
    map slot_id slots = range 1 (1 + len slots) /\
    map visit_of slots
    = flat_map (visits_of example_plan) (round_robin [[1]; [2]; []]) /\
    Forall (from_catalog (rest_by_id_of example_restaurants)) slots /\
    Permutation (round_robin [[1]; [2]; []]) (List.concat [[1]; [2]; []]).
Proof.
  apply (flatten_numbers_slots_round_robin unit).
  intros uid [<- | [<- | []]]; eexists; (split; [reflexivity |]);
    cbn; intros v Hv; repeat (destruct Hv as [<- | Hv]; [discriminate |]);
    contradiction.
Defined.

(* ------------------------------------------------------------------------- *)
(** ** Rows *)

(** [{r["slot_id"]: r for r in results}] read at an integer key: the last
    result whose id equals the key. *)
Lemma results_map_get (k : Z) (results : list Generated) :
  dict_get k (fold_left (fun d r => dict_set (g_slot_id r) r d) results [])
  = find (fun r => key_eq (g_slot_id r) k) (rev results).
Proof.
  assert (H : forall acc : dict Generated,
            fold_left (fun d r => dict_set (g_slot_id r) r d) results acc
            = map (fun r => (g_slot_id r, r)) (rev results) ++ acc).
  { induction results as [| r results IH]; intros acc; [reflexivity |].
    cbn [fold_left rev]. rewrite IH, map_app, <- app_assoc. reflexivity. }
  rewrite H, app_nil_r. clear H.
  induction (rev results) as [| r rs IH]; [reflexivity |].
  cbn [map dict_get find fst snd]. cbv beta.
  destruct (key_eq (g_slot_id r) k); [reflexivity | exact IH].
Qed.

(** The row [run_prompt] makes for slot [s] from the result [rr], at the
    clock reading [nowts]. *)
Definition row_of (nowts : string) (s : Slot) (rr : Generated) : Row :=
  mkRow (user_id s) (restaurant_id s) (g_rating rr)
    (slice_to (g_review_text rr) 200) (visited_at s) false nowts nowts None.

(** A loop that makes one new row per element and collects the references:
    the rows it has made are in the heap when it ends. *)
Lemma row_loop {X : Type} (P : X -> Row -> Prop)
    (body : X -> list nat -> M World (list nat)) (xs : list X) :
  (forall x rows w, In x xs ->
     exists r,
       body x rows w
       = (Ok (rows ++ [brk (heap w)]),
          mkWorld (rng w) (clock w)
            (mkHeap (fun b => if Nat.eqb b (brk (heap w)) then r else cells (heap w) b)
               (S (brk (heap w))))
            (files w)) /\
       P x r) ->
  forall rows w,
    exists w',
      for_each xs body rows w
      = (Ok (rows ++ seq (brk (heap w)) (List.length xs)), w') /\
      rng w' = rng w /\ clock w' = clock w /\ files w' = files w /\
      brk (heap w') = (brk (heap w) + List.length xs)%nat /\
      (forall a, (a < brk (heap w))%nat -> cells (heap w') a = cells (heap w) a) /\
      Forall2 (fun x a => P x (cells (heap w') a)) xs
        (seq (brk (heap w)) (List.length xs)).
Proof.
  induction xs as [| x xs IH]; intros Hb rows w.
  - exists w. cbn [for_each List.length seq]. unfold ret.
    rewrite app_nil_r, Nat.add_0_r. repeat split. constructor.
  - destruct (Hb x rows w (or_introl eq_refl)) as (r & E1 & Hp).
    match type of E1 with _ = (_, ?w1) =>
      destruct (IH (fun y rs v Hy => Hb y rs v (or_intror Hy))
                  (rows ++ [brk (heap w)]) w1)
        as (w2 & E2 & Hg & Hc & Hf & Hk & Hold & Hall) end.
    cbn [rng clock heap files brk cells] in *.
    exists w2. cbn [for_each]. rewrite (bind_ok _ _ _ _ _ E1), E2.
    split; [now rewrite <- app_assoc |].
    split; [exact Hg |]. split; [exact Hc |]. split; [exact Hf |].
    split; [cbn [List.length]; lia |]. split.
    + intros a Ha. rewrite Hold by lia.
      destruct (Nat.eqb_spec a (brk (heap w))); [lia | reflexivity].
    + cbn [List.length seq]. constructor; [| exact Hall].
      rewrite Hold by lia. now rewrite Nat.eqb_refl.
Qed.

(** What [run_prompt] does, row by row. *)
Lemma run_prompt_makes_rows (llm : ReviewLLM) (slots : list Slot) (w : World) :
  exists results g' w',
    generate_for_slots llm slots (rng w) = (Ok results, g') /\
    run_prompt llm slots w
    = (Ok (seq (brk (heap w)) (List.length slots)), w') /\
    Forall2
      (fun s a =>
         exists rr,
           In rr results /\ key_eq (g_slot_id rr) (slot_id s) = true /\
           rating_ok (g_rating rr) /\
           cells (heap w') a
           = row_of (readings (clock w) (ticks (clock w))) s rr)
      slots (seq (brk (heap w)) (List.length slots)) /\
    rng w' = g' /\
    clock w' = mkClock (readings (clock w)) (S (ticks (clock w))) /\
    files w' = files w /\
    brk (heap w') = (brk (heap w) + List.length slots)%nat /\
    (forall a, (a < brk (heap w))%nat -> cells (heap w') a = cells (heap w) a).
Proof.
  destruct (generate_for_slots_answers llm slots (rng w)) as (results & g' & E & Hans).
  exists results, g'. unfold run_prompt.
  rewrite (bind_ok _ _ _ _ _ (lift_rng_ok _ _ _ _ E)).
  unfold bind at 1. unfold now at 1. cbn [clock rng heap files].
  set (nowts := readings (clock w) (ticks (clock w))).
  match goal with |- context [for_each slots ?body [] ?w1] =>
    destruct (row_loop
                (fun s r => exists rr,
                   In rr results /\ key_eq (g_slot_id rr) (slot_id s) = true /\
                   rating_ok (g_rating rr) /\ r = row_of nowts s rr)
                body slots) with (rows := @nil nat) (w := w1)
      as (w' & E' & Hg & Hc & Hf & Hk & Hold & Hall) end.
  - intros s rows w0 Hs. rewrite results_map_get.
    destruct (find _ (rev results)) as [rr |] eqn:Efind.
    + apply find_some in Efind. destruct Efind as [Hin Hkey].
      apply in_rev in Hin.
      exists (row_of nowts s rr). split; [reflexivity |].
      exists rr. split; [exact Hin |]. split; [exact Hkey |].
      split; [| reflexivity].
      clear - Hans Hin. induction Hans as [| s0 r0 ss rs [_ Hr] _ IH];
        [contradiction |].
      destruct Hin as [<- | Hin]; [exact Hr | now apply IH].
    + exfalso. clear - Hans Hs Efind.
      assert (Hex : exists r, In r results /\ key_eq (g_slot_id r) (slot_id s) = true).
      { clear Efind. induction Hans as [| s0 r0 ss rs [Hk _] _ IH]; [contradiction |].
        destruct Hs as [<- | Hs].
        - exists r0. split; [now left | exact Hk].
        - destruct (IH Hs) as (r & Hin & Hkey). exists r. split; [now right | exact Hkey]. }
      destruct Hex as (r & Hin & Hkey).
      apply in_rev in Hin. pose proof (find_none _ _ Efind r Hin) as Hno.
      cbv beta in Hno. congruence.
  - cbn [rng clock heap files brk app] in *. exists w'.
    split; [exact E |]. split; [exact E' |]. split; [exact Hall |]. auto.
Qed.

(** X12. [run_prompt] never fails.  It reads the clock once and makes one
    new row per slot, in slot order: the row carries the slot's user id,
    restaurant id and visit date, the rating and the text (cut to 200 code
    points) of a generator result with the slot's id, a rating that is a
    whole number of tenths within [0.0, 5.0], [is_deleted] false, the one
    clock reading as both [created_at] and [updated_at], and no review id
    yet.  Its own fallback is never used: the random source ends as
    [generate_for_slots] left it.  Rows made earlier and the files are
    untouched. *)
Theorem run_prompt_one_row_per_slot :
  forall (llm : ReviewLLM) (slots : list Slot) (w : World),
    exists results g' w',
      generate_for_slots llm slots (rng w) = (Ok results, g') /\
      run_prompt llm slots w
      = (Ok (seq (brk (heap w)) (List.length slots)), w') /\
      Forall2
        (fun s a =>
           exists rr,
             In rr results /\ key_eq (g_slot_id rr) (slot_id s) = true /\
             cells (heap w') a
             = row_of (readings (clock w) (ticks (clock w))) s rr /\
             rating_ok (rating (cells (heap w') a)) /\
             len (review_text (cells (heap w') a)) <= 200)
        slots (seq (brk (heap w)) (List.length slots)) /\
      rng w' = g' /\
      clock w' = mkClock (readings (clock w)) (S (ticks (clock w))) /\
      files w' = files w /\
      brk (heap w') = (brk (heap w) + List.length slots)%nat /\
      (forall a, (a < brk (heap w))%nat -> cells (heap w') a = cells (heap w) a).
Proof.
  intros llm slots w.
  destruct (run_prompt_makes_rows llm slots w)
    as (results & g' & w' & E & E' & Hall & Hrest).
  exists results, g', w'. split; [exact E |]. split; [exact E' |].
  split; [| exact Hrest].
  eapply Forall2_impl; [| exact Hall].
  intros s a (rr & Hin & Hkey & Hrat & Hrow).
  exists rr. split; [exact Hin |]. split; [exact Hkey |]. split; [exact Hrow |].
  rewrite Hrow. cbn [row_of rating review_text]. split; [exact Hrat |].
  rewrite slice_to_len by lia. lia.
Qed.

(* ------------------------------------------------------------------------- *)
(** ** A whole run *)















(** With at least one VIP asked for and enough users, the VIP cohort is not
    empty. *)
Lemma pick_cohorts_first_vip cfg user_ids g :
  1 <= VIP_COUNT cfg -> VIP_COUNT cfg <= len user_ids ->
  exists uid vip loyal regular g',
    pick_cohorts cfg user_ids g = (Ok (uid :: vip, loyal, regular), g').
Proof.
  intros Hv Hlen. unfold pick_cohorts.
  destruct (shuffle_perm user_ids g) as (users & g' & E & P).
  rewrite (bind_ok _ _ _ _ _ E). unfold ret.
  rewrite slice_to_firstn by lia.
  assert (Hl : List.length users = List.length user_ids)
    by (symmetry; now apply Permutation_length).
  destruct users as [| uid users]; [unfold len in *; cbn in *; lia |].
  replace (Z.to_nat (VIP_COUNT cfg)) with (S (Z.to_nat (VIP_COUNT cfg - 1))) by lia.
  cbn [firstn]. do 5 eexists. reflexivity.
Qed.

(** X14. [run] does not check the order of a range of review counts: with
    the VIP range given the wrong way round (minimum above maximum), at
    least one VIP and enough users, [run] raises [ValueError] when it plans
    the first VIP user, before anything is written. *)
Theorem run_rejects_reversed_vip_range :
  forall (cfg : Config) (llm : ReviewLLM) (fuel : nat)
         (restaurants : list Restaurant) (users : list User)
         (g : Rng) (c : Clock),
    1 <= VIP_COUNT cfg -> 0 <= LOYAL_COUNT cfg -> 0 <= REGULAR_COUNT cfg ->
    VIP_COUNT cfg + LOYAL_COUNT cfg + REGULAR_COUNT cfg <= len users ->
    snd (VIP_REVIEWS_RANGE cfg) < fst (VIP_REVIEWS_RANGE cfg) ->
    exists w',
      run cfg llm fuel restaurants users (initial_world g c)
      = (Raise ValueError, w') /\
      files w' = [].
Proof.
  intros cfg llm fuel restaurants users g c Hv Hl Hr Hsum Hrev. unfold run.
  destruct (len users <? VIP_COUNT cfg + LOYAL_COUNT cfg + REGULAR_COUNT cfg) eqn:E;
    [apply Z.ltb_lt in E; lia |].
  destruct (pick_cohorts_first_vip cfg (map account_id users) g Hv)
    as (uid & vip & loyal & regular & g0 & E0).
  { unfold len in *. rewrite length_map. lia. }
  assert (Ep : plan_batches cfg fuel restaurants users g = (Raise ValueError, g0)).
  { unfold plan_batches. cbv zeta. rewrite (bind_ok _ _ _ _ _ E0).
    cbn [for_each]. unfold assign_for, randint.
    apply Z.ltb_lt in Hrev. rewrite Hrev. reflexivity. }
  unfold bind, lift_rng. cbn [rng initial_world]. rewrite Ep.
  eexists. split; reflexivity.
Qed.

Definition reversed_cfg : Config := mkConfig 1 1 1 (5, 1) (1, 1) (1, 2) 2 2 3.

Lemma run_rejects_reversed_vip_range_witness :
  exists w',
    run reversed_cfg no_service 5 example_restaurants example_users
      (initial_world counting_rng morning)
    = (Raise ValueError, w') /\
    files w' = [].
Proof.
  apply run_rejects_reversed_vip_range; cbn; lia.
Defined.

(* ------------------------------------------------------------------------- *)
(** ** The loader finds what the writer wrote *)

Lemma strip_prefix_app (p s : string) : strip_prefix p (p ++ s) = Some s.
Proof.
  induction p as [| a p IH]; cbn; [now destruct s |].
  now rewrite Ascii.eqb_refl.
Qed.

Lemma strip_prefix_common (p q s : string) :
  strip_prefix (p ++ q) (p ++ s) = strip_prefix q s.
Proof.
  induction p as [| a p IH]; cbn; [reflexivity |].
  now rewrite Ascii.eqb_refl.
Qed.

Lemma strip_suffix_app (suffix : string) : forall a : string,
  strip_suffix suffix (a ++ suffix) = Some a.
Proof.
  induction a as [| c a IH].
  - cbn [append]. destruct suffix; cbn [strip_suffix]; now rewrite String.eqb_refl.
  - cbn [append strip_suffix].
    destruct (String.eqb_spec (String c (a ++ suffix)) suffix) as [E | _].
    + apply (f_equal String.length) in E. cbn in E.
      rewrite string_length_app in E. lia.
    + now rewrite IH.
Qed.

Lemma not_digits (s : string) : int_of_digits (String "p" s) = None.
Proof.
  unfold int_of_digits, NilZero.uint_of_string.
  cbn [NilEmpty.uint_of_string]. now destruct (NilEmpty.uint_of_string s).
Qed.

(** Reading back the decimal form of a number that is not negative. *)
Lemma int_of_digits_str (id : Z) : 0 <= id -> int_of_digits (str id) = Some id.
Proof.
  intros Hid. unfold int_of_digits, str.
  assert (E : exists d, Z.to_int id = Decimal.Pos d /\ d <> Decimal.Nil).
  { destruct id as [| p | p]; [| | lia]; cbn; eexists; split;
      try reflexivity; [discriminate | apply Unsigned.to_uint_nonnil]. }
  destruct E as (d & E & Hd). rewrite E. cbn [NilZero.string_of_int].
  rewrite (NilZero.usu d Hd). cbn [option_map]. f_equal.
  rewrite <- (DecimalZ.of_to id), E. reflexivity.
Qed.

Lemma review_name_under_review id :
  0 <= id ->
  glob_match "review" (review_file id) = true /\
  chunk_number "review" (review_file id) = Some id.
Proof.
  intros Hid. unfold glob_match, chunk_number, review_file.
  change ("review" ++ "_")%string with "review_"%string.
  rewrite strip_prefix_app, strip_suffix_app. split; [reflexivity |].
  now apply int_of_digits_str.
Qed.

Lemma photo_name_under_review id :
  chunk_number "review" (photo_file id) = None.
Proof.
  unfold chunk_number, photo_file.
  change ("review" ++ "_")%string with "review_"%string.
  change ("review_photo_" ++ str id ++ ".json")%string
    with ("review_" ++ (String "p" ("hoto_" ++ str id)) ++ ".json")%string.
  rewrite strip_prefix_app, strip_suffix_app. apply not_digits.
Qed.

Lemma photo_name_under_photo id :
  0 <= id ->
  glob_match "review_photo" (photo_file id) = true /\
  chunk_number "review_photo" (photo_file id) = Some id.
Proof.
  intros Hid. unfold glob_match, chunk_number, photo_file.
  change ("review_photo" ++ "_")%string with "review_photo_"%string.
  rewrite strip_prefix_app, strip_suffix_app. split; [reflexivity |].
  now apply int_of_digits_str.
Qed.

Lemma review_name_under_photo id :
  glob_match "review_photo" (review_file id) = false.
Proof.
  unfold glob_match, review_file.
  destruct (str_head id) as (c & s & E & Hc). rewrite E.
  change ("review_photo" ++ "_")%string with ("review_" ++ "photo_")%string.
  rewrite strip_prefix_common. cbn [append strip_prefix].
  apply Ascii.eqb_neq in Hc. rewrite Ascii.eqb_sym, Hc. reflexivity.
Qed.

(** Ascending numbers, none twice. *)
Definition by_number (x y : Z * string) : Prop := fst x < fst y.

Lemma insert_by_number_perm x xs : Permutation (x :: xs) (insert_by_number x xs).
Proof.
  induction xs as [| y xs IH]; cbn [insert_by_number]; [reflexivity |].
  destruct (fst x <=? fst y); [reflexivity |].
  rewrite perm_swap. now constructor.
Qed.

Lemma sort_by_number_perm items : Permutation items (sort_by_number items).
Proof.
  unfold sort_by_number.
  induction items as [| x items IH]; cbn [fold_right]; [reflexivity |].
  rewrite <- insert_by_number_perm. now constructor.
Qed.

Lemma insert_by_number_sorted x xs :
  StronglySorted by_number xs ->
  Forall (fun y => fst y <> fst x) xs ->
  StronglySorted by_number (insert_by_number x xs).
Proof.
  induction 1 as [| y xs Hs IH Hall]; intros Hne; cbn [insert_by_number].
  - repeat constructor.
  - inversion Hne as [| ? ? Hy Hne']; subst.
    destruct (fst x <=? fst y) eqn:E.
    + apply Z.leb_le in E. constructor; [now constructor |].
      constructor; [unfold by_number; lia |].
      eapply Forall_impl; [| exact Hall]. unfold by_number. cbn; intros; lia.
    + apply Z.leb_gt in E. constructor; [now apply IH |].
      apply (Permutation_Forall (insert_by_number_perm x xs)).
      constructor; [unfold by_number; lia | exact Hall].
Qed.

Lemma sort_by_number_sorted items :
  NoDup (map fst items) -> StronglySorted by_number (sort_by_number items).
Proof.
  unfold sort_by_number.
  induction items as [| x items IH]; cbn [fold_right map]; intros Hnd;
    [constructor |].
  inversion Hnd as [| ? ? Hnotin Hnd']; subst.
  apply insert_by_number_sorted; [now apply IH |].
  apply (Permutation_Forall (sort_by_number_perm items)).
  apply Forall_forall. intros y Hy E. apply Hnotin. rewrite <- E.
  now apply in_map.
Qed.

(** Two lists in ascending order of distinct numbers that hold the same
    items are the same list. *)
Lemma sorted_by_number_unique l1 : forall l2,
  StronglySorted by_number l1 -> StronglySorted by_number l2 ->
  Permutation l1 l2 -> l1 = l2.
Proof.
  induction l1 as [| x l1 IH]; intros l2 H1 H2 P.
  - apply Permutation_nil in P. now subst.
  - destruct l2 as [| y l2]; [apply Permutation_sym, Permutation_nil in P; discriminate |].
    inversion H1 as [| ? ? H1' Hx]; subst. inversion H2 as [| ? ? H2' Hy]; subst.
    assert (Exy : x = y).
    { assert (Hin1 : In x (y :: l2)) by (apply (Permutation_in _ P); now left).
      assert (Hin2 : In y (x :: l1))
        by (apply (Permutation_in _ (Permutation_sym P)); now left).
      destruct Hin1 as [-> | Hin1]; [reflexivity |].
      destruct Hin2 as [-> | Hin2]; [reflexivity |].
      rewrite Forall_forall in Hx, Hy.
      specialize (Hx _ Hin2). specialize (Hy _ Hin1).
      unfold by_number in *. lia. }
    subst y. f_equal. apply IH; try assumption.
    eapply Permutation_cons_inv. exact P.
Qed.

Lemma filter_perm {A : Type} (f : A -> bool) (l1 l2 : list A) :
  Permutation l1 l2 -> Permutation (filter f l1) (filter f l2).
Proof.
  induction 1 as [| x l1 l2 _ IH | x y l | l1 l2 l3 _ IH1 _ IH2]; cbn [filter].
  - constructor.
  - destruct (f x); [now constructor | exact IH].
  - destruct (f x), (f y); try reflexivity. apply perm_swap.
  - now transitivity (filter f l2).
Qed.

(** What the loader lists, for a directory that holds the two files of every
    chunk: [ids] are the last review ids of the chunks, in ascending
    order. *)
Lemma list_chunk_files_of_chunks (ids : list Z) (entries : list string) :
  StronglySorted Z.lt ids -> Forall (fun id => 0 <= id) ids ->
  Permutation entries (flat_map (fun id => [review_file id; photo_file id]) ids) ->
  list_chunk_files "review" entries = map review_file ids /\
  list_chunk_files "review_photo" entries = map photo_file ids.
Proof.
  intros Hs Hpos P.
  assert (Hgen : forall (prefix : string) (name : Z -> string),
            (forall id, In id ids ->
               flat_map (chunk_item prefix)
                 (filter (glob_match prefix) [review_file id; photo_file id])
               = [(id, name id)]) ->
            list_chunk_files prefix entries = map name ids).
  { intros prefix name Hone. unfold list_chunk_files. cbv zeta.
    assert (Hitems : Permutation
                       (flat_map (chunk_item prefix)
                          (filter (glob_match prefix) entries))
                       (map (fun id => (id, name id)) ids)).
    { rewrite (Permutation_flat_map _ (filter_perm (glob_match prefix) _ _ P)).
      clear P Hs Hpos. induction ids as [| id ids IH]; [reflexivity |].
      cbn [flat_map map].
      rewrite filter_app, flat_map_app, (Hone id (or_introl eq_refl)).
      cbn [app]. constructor. apply IH. intros k Hk. apply Hone. now right. }
    assert (Hkeys : map fst (map (fun id => (id, name id)) ids) = ids).
    { rewrite map_map. cbn [fst]. apply map_id. }
    assert (Htarget : StronglySorted by_number (map (fun id => (id, name id)) ids)).
    { clear - Hs. induction Hs as [| id ids Hs IH Hall]; [constructor |].
      cbn [map]. constructor; [exact IH |]. apply Forall_map.
      eapply Forall_impl; [| exact Hall]. intros k Hk. exact Hk. }
    assert (Hnd : NoDup (map fst (flat_map (chunk_item prefix)
                                    (filter (glob_match prefix) entries)))).
    { apply (Permutation_NoDup (Permutation_map fst (Permutation_sym Hitems))).
      rewrite Hkeys. eapply StronglySorted_NoDup; [| exact Hs]. intros x. lia. }
    rewrite (sorted_by_number_unique _ _ (sort_by_number_sorted _ Hnd) Htarget).
    - rewrite map_map. reflexivity.
    - rewrite <- sort_by_number_perm. exact Hitems. }
  rewrite Forall_forall in Hpos. split; apply Hgen; intros id Hid;
    cbn [filter]; unfold chunk_item.
  - destruct (review_name_under_review id (Hpos id Hid)) as [Hg Hn]. rewrite Hg.
    destruct (glob_match "review" (photo_file id)); cbn [flat_map];
      rewrite Hn, ?photo_name_under_review; reflexivity.
  - rewrite review_name_under_photo.
    destruct (photo_name_under_photo id (Hpos id Hid)) as [Hg Hn]. rewrite Hg.
    cbn [flat_map]. rewrite Hn. reflexivity.
Qed.

(** The names of the review files, and of the photo files, of a log, in
    writing order. *)
Definition review_files_of (log : list (string * content)) : list string :=
  flat_map (fun f => match snd f with
                     | ReviewChunk _ => [fst f]
                     | PhotoChunk _ => []
                     end) log.

Definition photo_files_of (log : list (string * content)) : list string :=
  flat_map (fun f => match snd f with
                     | ReviewChunk _ => []
                     | PhotoChunk _ => [fst f]
                     end) log.

(** The last review ids of the chunks of a well-named log whose review ids
    count up from [base]. *)
Lemma files_named_last_ids log : files_named log ->
  forall base n,
    review_ids_written log = ids_from base n ->
    exists ids,
      StronglySorted Z.lt ids /\ Forall (fun id => base <= id) ids /\
      map fst log = flat_map (fun id => [review_file id; photo_file id]) ids /\
      review_files_of log = map review_file ids /\
      photo_files_of log = map photo_file ids.
Proof.
  induction 1 as [| rows photos id log Hlast _ IH]; intros base n Hids.
  - exists []. repeat split; constructor.
  - cbn [review_ids_written flat_map snd app] in Hids.
    fold (review_ids_written log) in Hids.
    set (m := List.length rows).
    assert (Hm : (m <= n)%nat).
    { apply (f_equal (@List.length (option Z))) in Hids.
      unfold ids_from in Hids.
      rewrite length_app, !length_map, length_seq in Hids. unfold m. lia. }
    replace n with (m + (n - m))%nat in Hids by lia.
    rewrite ids_from_app in Hids.
    apply app_eq_length in Hids.
    2: { unfold ids_from. now rewrite !length_map, length_seq. }
    destruct Hids as [Hrows Hrest].
    destruct (IH _ _ Hrest) as (ids & Hs & Hge & Hnames & Hrev & Hpho).
    assert (Hid : id = base + Z.of_nat m - 1 /\ (1 <= m)%nat).
    { rewrite Hrows in Hlast. destruct m as [| m'].
      - discriminate Hlast.
      - rewrite last_ids_from in Hlast. injection Hlast as <-. lia. }
    destruct Hid as [Hid Hm1].
    exists (id :: ids). split; [| split; [| split; [| split]]].
    + constructor; [exact Hs |].
      eapply Forall_impl; [| exact Hge]. cbn; intros; lia.
    + constructor; [lia |].
      eapply Forall_impl; [| exact Hge]. cbn; intros; lia.
    + cbn [map fst flat_map app]. now rewrite Hnames.
    + unfold review_files_of in *. cbn [flat_map snd fst app map]. now rewrite Hrev.
    + unfold photo_files_of in *. cbn [flat_map snd fst app map]. now rewrite Hpho.
Qed.

(** X15. The loader finds what the writer wrote.  Take any sequence of
    writer operations on a new writer (chunk size at least 1, every row
    handed over once) in a directory that holds no other file.  Whatever the
    order in which the directory lists its entries,
    [list_chunk_files("review")] returns the review files in the order they
    were written (ascending last review id) and none of the photo files, and
    [list_chunk_files("review_photo")] returns the photo files in the order
    they were written. *)
Theorem loader_lists_chunks_in_writing_order :
  forall (size : Z) (ops : list writer_op) (w : World),
    1 <= size ->
    NoDup (arrivals ops) ->
    files w = [] ->
    exists self' w',
      apply_ops ops (new_streamer size) w = (Ok self', w') /\
      forall entries : list string,
        Permutation entries (map fst (files w')) ->
        list_chunk_files "review" entries = review_files_of (files w') /\
        list_chunk_files "review_photo" entries = photo_files_of (files w').
Proof.
  intros size ops w Hsize Hnd Hempty.
  assert (Ht0 : tracks (new_streamer size) w [] 0).
  { repeat split; cbn; try lia. intros [| i] a Hi; discriminate. }
  destruct (apply_ops_ids ops (new_streamer size) w [] 0%nat Hsize Ht0 Hnd)
    as (s1 & w1 & f1 & log & E & _ & _ & _ & Hf & Hids & _).
  destruct (apply_ops_named _ _ _ _ _ E) as (log' & Hf' & Hnamed).
  rewrite Hempty in Hf, Hf'. cbn [app] in Hf, Hf'.
  rewrite <- Hf' in Hnamed. rewrite <- Hf in Hids.
  exists s1, w1. split; [exact E |]. intros entries P.
  destruct (files_named_last_ids _ Hnamed _ _ Hids)
    as (ids & Hs & Hge & Hnames & -> & ->).
  apply list_chunk_files_of_chunks; [exact Hs | | now rewrite <- Hnames].
  eapply Forall_impl; [| exact Hge]. cbn; intros; lia.
Qed.

Lemma loader_lists_chunks_in_writing_order_witness :
  (1 <= 2 /\
   NoDup (arrivals [AddRows [0; 1; 2]%nat; AddRows [3]%nat; FlushRemaining]) /\
   files example_world = []) /\
  exists self' w',
    apply_ops [AddRows [0; 1; 2]%nat; AddRows [3]%nat; FlushRemaining]
      (new_streamer 2) example_world = (Ok self', w') /\
    forall entries : list string,
      Permutation entries (map fst (files w')) ->
      list_chunk_files "review" entries = review_files_of (files w') /\
      list_chunk_files "review_photo" entries = photo_files_of (files w').
Proof.
  assert (H : 1 <= 2) by lia.
  assert (Hnd : NoDup (arrivals [AddRows [0; 1; 2]%nat; AddRows [3]%nat; FlushRemaining])).
  { cbn. repeat (constructor; [cbn; intuition discriminate |]). constructor. }
  split; [repeat split; assumption |].
  exact (loader_lists_chunks_in_writing_order 2 _ example_world H Hnd eq_refl).
Defined.

(* ------------------------------------------------------------------------- *)
(** ** Chunk sizes *)

(** X16. With any chunk size of at least 1, rows fed in any sequence of
    [add_rows_and_maybe_flush] calls and then [flush_remaining]: the writer
    returns with an empty buffer, having written every row of the calls in
    [ceil(N / chunk_size)] review files for [N] rows, each followed by its
    photo file; no review file is empty, and all but the last hold exactly
    [chunk_size] rows. *)
Theorem feed_and_flush_chunk_sizes :
  forall (size : Z) (calls : list (list nat)) (w : World),
    1 <= size ->
    exists self' w' chunks log,
      feed_and_flush size calls w = (Ok self', w') /\
      buffer self' = [] /\
      files w' = files w ++ log /\
      chunks_written chunks log /\
      len (List.concat chunks) = len (List.concat calls) /\
      len chunks = (len (List.concat calls) + size - 1) / size /\
      Forall (fun rows => 1 <= len rows <= size) chunks /\
      Forall (fun rows => len rows = size) (removelast chunks).
Proof.
  intros size calls w Hsize. unfold feed_and_flush.
  destruct (feed_ok calls (new_streamer size) w ltac:(cbn; lia) ltac:(constructor))
    as (chunks & log & rest & w1 & E1 & Hlen & Hr & Hall & Hid & Hf & Hcw).
  rewrite (bind_ok _ _ _ _ _ E1).
  cbn [new_streamer chunk_size buffer next_review_id] in *.
  change (len (@nil nat)) with 0 in *.
  specialize (Hr ltac:(left; lia)).
  destruct (flush_remaining_ok (mkReviewStreamer size rest (1 + len (List.concat calls))) w1 Hid)
    as (log2 & w2 & E2 & Hh2 & Hc2 & Hf2 & Hcw2).
  cbn [chunk_size buffer next_review_id] in *.
  set (N := len (List.concat calls)) in *.
  pose proof (len_nonneg rest) as Hr0. pose proof (len_nonneg chunks) as Hc0.
  assert (Hcat : len (List.concat chunks) = len chunks * size)
    by (apply len_concat_uniform; exact Hall).
  assert (Hfull : Forall (fun rows : list Row => 1 <= len rows <= size) chunks).
  { eapply Forall_impl; [| exact Hall]. cbn; intros; lia. }
  destruct rest as [| a rest]; cbn [is_empty] in Hcw2.
  - inversion Hcw2; subst. change (len (@nil nat)) with 0 in *.
    exists (mkReviewStreamer size [] (1 + N)), w2, chunks, log.
    split; [exact E2 |]. split; [reflexivity |].
    split; [rewrite Hf2, Hf, app_nil_r; reflexivity |].
    split; [exact Hcw |]. split; [lia |]. split; [| split; [exact Hfull |]].
    + replace (N + size - 1) with (size - 1 + len chunks * size) by lia.
      rewrite Z.div_add, Z.div_small by lia. lia.
    + now apply Forall_removelast.
  - set (last_rows := map (cells (heap w1)) (a :: rest)) in *.
    assert (Hl : len last_rows = len (a :: rest))
      by (unfold last_rows, len; now rewrite length_map).
    assert (Hl1 : 1 <= len (a :: rest))
      by (unfold len; cbn [List.length]; lia).
    exists (mkReviewStreamer size [] (1 + N)), w2, (chunks ++ [last_rows]), (log ++ log2).
    split; [exact E2 |]. split; [reflexivity |].
    split; [rewrite Hf2, Hf, <- app_assoc; reflexivity |].
    split; [apply chunks_written_app; [exact Hcw | exact Hcw2] |].
    split; [| split; [| split]].
    + rewrite concat_app, len_app. cbn [List.concat]. rewrite app_nil_r. lia.
    + rewrite len_app. change (len [last_rows]) with 1.
      replace (N + size - 1) with (len (a :: rest) - 1 + (len chunks + 1) * size) by lia.
      rewrite Z.div_add, Z.div_small by lia. lia.
    + apply Forall_app. split; [exact Hfull |]. constructor; [lia | constructor].
    + rewrite removelast_last. exact Hall.
Qed.

Lemma feed_and_flush_chunk_sizes_witness :
  1 <= 2 /\
  exists self' w' chunks log,
    feed_and_flush 2 [[0; 1; 2]%nat; [3]%nat; [4]%nat] example_world
    = (Ok self', w') /\
    buffer self' = [] /\
    files w' = files example_world ++ log /\
    chunks_written chunks log /\
    len (List.concat chunks)
    = len (List.concat [[0; 1; 2]%nat; [3]%nat; [4]%nat]) /\
    len chunks
    = (len (List.concat [[0; 1; 2]%nat; [3]%nat; [4]%nat]) + 2 - 1) / 2 /\
    Forall (fun rows => 1 <= len rows <= 2) chunks /\
    Forall (fun rows => len rows = 2) (removelast chunks).
Proof.
  assert (H : 1 <= 2) by lia.
  split; [exact H |].
  exact (feed_and_flush_chunk_sizes 2 _ example_world H).
Defined.

(* ------------------------------------------------------------------------- *)
(** ** Every slot gets its review *)

(** The rows in the review files of a log, in writing order. *)
Definition written_rows (log : list (string * content)) : list Row :=
  flat_map (fun f => match snd f with
                     | ReviewChunk rows => rows
                     | PhotoChunk _ => []
                     end) log.






Lemma written_rows_ids log :
  review_ids_written log = map review_id (written_rows log).
Proof.
  unfold review_ids_written, written_rows.
  induction log as [| [name [rows | photos]] log IH]; cbn [flat_map snd];
    [reflexivity | |].
  - now rewrite map_app, IH.
  - exact IH.
Qed.











